(** * Topological graph navigation planner

    A shallow embedding of [interactive_planner.js]: the A* search
    [astar] with its [heuristic] and [reconstructPath], the greedy
    multi-goal chaining of [calculatePath], [calculatePathDistance], the
    distance and time shown by [PathPlannerDemo], [generateSampleGraph],
    the animation and the highlighting of edges.

    Numbers.  A JavaScript number is an IEEE 754 double: [NaN], one of
    the two infinities, or a finite double, which is a rational ([num]).
    Comparisons are exact on these values.  Every arithmetic operation
    is the exact operation followed by rounding to the nearest double;
    the rounding is a parameter [rnd] of the development, of which the
    theorems use the laws of [rounding] only (it is monotone, and 0 and
    its own results are doubles).  [round64] is the rounding of binary64,
    ties to even: it gives a double nearest to its argument
    ([round64_nearest]), overflows as binary64 does
    ([round64_overflow]) and obeys the laws ([round64_rounding]); it is
    the rounding of the runs.  [exact] does not round and obeys the
    laws too.
    [Math.sqrt] and [Math.sin] are parameters that return doubles.  The
    sign of a zero is not kept: nothing in the program divides by a
    zero or prints one.

    Containers.  A JS [Map] is a [gmap]; a JS [Set], whose iteration
    order is insertion order, is a duplicate-free list.

    Effects.  A thrown [TypeError] and a loop that has not finished
    within the given fuel are outcomes of their own ([Throw],
    [OutOfFuel]). *)

From Stdlib Require Import QArith Qround Qabs Qpower Lqa.
From stdpp Require Import base option list gmap.

Local Open Scope Q_scope.

(** ** Numbers *)

Inductive num : Type :=
  | NaN
  | PInf
  | NInf
  | Fin (q : Q).

Definition Qltb (a b : Q) : bool := negb (Qle_bool b a).

(** [a < b] on JS numbers: false as soon as one side is [NaN]. *)
Definition num_lt (a b : num) : bool :=
  match a, b with
  | Fin p, Fin q => Qltb p q
  | Fin _, PInf => true
  | NInf, Fin _ => true
  | NInf, PInf => true
  | _, _ => false
  end.

(** [Map.prototype.get] returns [undefined] on a missing key, and
    [undefined] used as a number is [NaN]. *)
Definition to_number (o : option num) : num := default NaN o.

(** [-a] *)
Definition fneg (a : num) : num :=
  match a with
  | NaN => NaN
  | PInf => NInf
  | NInf => PInf
  | Fin p => Fin (- p)
  end.

(** [Math.sqrt] on the rationals that are squares of rationals. *)
Definition exact_sqrt (q : Q) : Q :=
  let r := Qred q in Z.sqrt (Qnum r) # Pos.sqrt (Qden r).

(** A square root that is rounded down to a multiple of the inverse of
    the denominator, and exact on squares. *)
Definition floor_sqrt (q : Q) : Q := Z.sqrt (Qnum q * Z.pos (Qden q)) # Qden q.

(** *** Rounding *)

(** No rounding. *)
Definition exact (q : Q) : num := Fin q.

(** [2 ^ e] *)
Definition pow2 (e : Z) : Q :=
  if (0 <=? e)%Z then inject_Z (2 ^ e) else / inject_Z (2 ^ (- e)).

(** For [q > 0], the [e] with [2 ^ e <= q < 2 ^ (e + 1)]. *)
Definition ilog2 (q : Q) : Z :=
  let k := (Z.log2 (Qnum q) - Z.log2 (Z.pos (Qden q)))%Z in
  if Qle_bool (pow2 k) q then k else (k - 1)%Z.

(** The nearest integer, the even one on a tie. *)
Definition round_even (q : Q) : Z :=
  let f := Qfloor q in
  let r := q - inject_Z f in
  if Qltb r (1 # 2) then f
  else if Qltb (1 # 2) r then (f + 1)%Z
  else if Z.even f then f else (f + 1)%Z.

(** Rounding of [q > 0] to binary64: 53 bits of significand, the least
    exponent -1074 of the subnormal numbers, and infinity from
    [2 ^ 1024] on. *)
Definition round64_pos (q : Q) : num :=
  let e := Z.max (ilog2 q - 52) (-1074) in
  let v := inject_Z (round_even (q / pow2 e)) * pow2 e in
  if Qle_bool (pow2 1024) v then PInf else Fin (Qred v).

(** Rounding to the nearest double, ties to even. *)
Definition round64 (q : Q) : num :=
  if Qeq_bool q 0 then Fin 0
  else if Qltb 0 q then round64_pos q
  else fneg (round64_pos (- q)).

(** The finite doubles: a significand of at most 53 bits and an
    exponent of the last place from -1074 to 971. *)
Definition is_double (r : Q) : Prop :=
  ∃ m e : Z, (Z.abs m < 2 ^ 53)%Z ∧ (-1074 <= e <= 971)%Z ∧ r == inject_Z m * pow2 e.

(** [Number.prototype.toFixed(1)], as the number its decimal string
    denotes: for a double below [10 ^ 21] in size the nearest multiple
    of 1/10, the larger one on a tie, the sign handled apart; a double
    from [10 ^ 21] on, an infinity and [NaN] are printed as they are. *)
Definition round_tenths (q : Q) : Q := Qfloor (q * 10 + (1 # 2)) # 10.

Definition toFixed1_fin (q : Q) : Q :=
  if Qltb q 0 then - round_tenths (- q) else round_tenths q.

Definition toFixed1 (v : num) : num :=
  match v with
  | Fin q => if Qle_bool (inject_Z (10 ^ 21)) (Qabs q) then Fin q else Fin (toFixed1_fin q)
  | _ => v
  end.

(** ** Outcomes *)

Inductive outcome (A : Type) : Type :=
  | Ret (a : A)
  | Throw
  | OutOfFuel.
Arguments Ret {A} a.
Arguments Throw {A}.
Arguments OutOfFuel {A}.

#[global] Instance outcome_ret : MRet outcome := λ A a, Ret a.

#[global] Instance outcome_bind : MBind outcome := λ A B k m,
  match m with
  | Ret a => k a
  | Throw => Throw
  | OutOfFuel => OutOfFuel
  end.

Fixpoint foldM {A B : Type} (f : A → B → outcome A) (l : list B) (a : A) : outcome A :=
  match l with
  | [] => Ret a
  | b :: l' => a' ← f a b; foldM f l' a'
  end.

(** ** Graph data *)

(** A node as [generateSampleGraph] builds it; [zone] and [label] are
    only drawn. *)
Record node : Type := mkNode { id : nat; x : num; y : num }.

(** An edge.  [generateSampleGraph] stores [from], [to] and [weight];
    [traversable] is the attribute of the repository's graph format,
    which an edge object may carry ([None] when it does not) and which
    no function of the planner reads. *)
Record edge : Type := mkEdge {
  from : nat;
  to : nat;
  weight : num;
  traversable : option bool
}.

Record graph : Type := mkGraph { nodes : list node; edges : list edge }.

(** ** The open set: a JS [Set] in insertion order *)

Definition set_add (n : nat) (s : list nat) : list nat :=
  if bool_decide (n ∈ s) then s else s ++ [n].

Definition set_delete (n : nat) (s : list nat) : list nat :=
  List.filter (λ m, negb (m =? n)%nat) s.

(** [new Set(array)] *)
Definition set_of_list (l : list nat) : list nat :=
  fold_left (λ s n, set_add n s) l [].

(** ** Adjacency, as [astar] reads it from the edge array *)

Definition touches (c : nat) (e : edge) : bool :=
  (from e =? c)%nat || (to e =? c)%nat.

Definition other_end (c : nat) (e : edge) : nat :=
  if (from e =? c)%nat then to e else from e.

Definition neighbors (es : list edge) (c : nat) : list nat :=
  map (other_end c) (List.filter (touches c) es).

Definition joins (c n : nat) (e : edge) : bool :=
  ((from e =? c)%nat && (to e =? n)%nat) || ((to e =? c)%nat && (from e =? n)%nat).

Definition find_edge (es : list edge) (c n : nat) : option edge :=
  List.find (joins c n) es.

(** ** Search state *)

Record astar_state : Type := mkState {
  openSet : list nat;
  cameFrom : gmap nat nat;
  gScore : gmap nat num;
  fScore : gmap nat num
}.

(** The callback of [reduce]: keeps [a] only when its f-score is
    strictly below that of [b]. *)
Definition pick_min (fs : gmap nat num) (a b : nat) : nat :=
  if num_lt (to_number (fs !! a)) (to_number (fs !! b)) then a else b.

Definition pick_current (fs : gmap nat num) (a : nat) (rest : list nat) : nat :=
  fold_left (pick_min fs) rest a.

Fixpoint reconstructPath (fuel : nat) (cf : gmap nat nat) (current : nat)
    (path : list nat) : outcome (list nat) :=
  match cf !! current with
  | None => Ret path
  | Some p =>
      match fuel with
      | O => OutOfFuel
      | S k => reconstructPath k cf p (p :: path)
      end
  end.

Section Planner.

(** Rounding to the nearest double. *)
Variable rnd : Q → num.

(** [Math.sqrt], on a finite argument that is not negative. *)
Variable sqrt : Q → Q.

(** ** Arithmetic *)

(** [a + b] *)
Definition fadd (a b : num) : num :=
  match a, b with
  | NaN, _ | _, NaN => NaN
  | Fin p, Fin q => rnd (p + q)
  | PInf, NInf | NInf, PInf => NaN
  | PInf, _ | _, PInf => PInf
  | NInf, _ | _, NInf => NInf
  end.

(** [a - b] *)
Definition fsub (a b : num) : num :=
  match a, b with
  | NaN, _ | _, NaN => NaN
  | Fin p, Fin q => rnd (p - q)
  | PInf, PInf | NInf, NInf => NaN
  | PInf, _ | _, NInf => PInf
  | NInf, _ | _, PInf => NInf
  end.

(** The infinity that [p] times a positive infinity is. *)
Definition inf_times (p : Q) : num :=
  if Qeq_bool p 0 then NaN else if Qltb 0 p then PInf else NInf.

(** [a * b] *)
Definition fmul (a b : num) : num :=
  match a, b with
  | NaN, _ | _, NaN => NaN
  | Fin p, Fin q => rnd (p * q)
  | Fin p, PInf | PInf, Fin p => inf_times p
  | Fin p, NInf | NInf, Fin p => fneg (inf_times p)
  | PInf, PInf | NInf, NInf => PInf
  | PInf, NInf | NInf, PInf => NInf
  end.

(** [a / c] for a literal [c] other than 0. *)
Definition fdiv (a : num) (c : Q) : num :=
  match a with
  | NaN => NaN
  | Fin p => rnd (p / c)
  | PInf => if Qltb 0 c then PInf else NInf
  | NInf => if Qltb 0 c then NInf else PInf
  end.

(** [Math.sqrt(a)] *)
Definition fsqrt (a : num) : num :=
  match a with
  | Fin q => if Qltb q 0 then NaN else Fin (sqrt q)
  | PInf => PInf
  | _ => NaN
  end.

(** The number a decimal string denotes, as [Number(string)] or a
    string used in a division gives it. *)
Definition of_string (v : num) : num :=
  match v with
  | Fin q => rnd q
  | _ => v
  end.

(** ** [heuristic] *)

Definition heuristic (a b : node) : num :=
  let dx := fsub (x a) (x b) in
  let dy := fsub (y a) (y b) in
  fsqrt (fadd (fmul dx dx) (fmul dy dy)).

(** [heuristic(nodes[i], nodes[j])]: reading [.x] of [undefined] throws. *)
Definition heuristic_at (ns : list node) (i j : nat) : outcome num :=
  match ns !! i, ns !! j with
  | Some a, Some b => Ret (heuristic a b)
  | _, _ => Throw
  end.

(** ** [generateSampleGraph] *)

(** The second loop of [generateSampleGraph]: an edge from [i] to every
    later node [j] less than 100 away, its weight the distance. *)
Definition connect_from (ns : list node) (i : nat) (a : node) : list edge :=
  flat_map (λ j, match ns !! j with
                 | Some b =>
                     let dx := fsub (x a) (x b) in
                     let dy := fsub (y a) (y b) in
                     let dist := fsqrt (fadd (fmul dx dx) (fmul dy dy)) in
                     if num_lt dist (Fin 100)
                     then [{| from := i; to := j; weight := dist; traversable := None |}]
                     else []
                 | None => []
                 end)
           (seq (S i) (length ns - S i)).

Definition connect_nearby (ns : list node) : list edge :=
  flat_map (λ i, match ns !! i with
                 | Some a => connect_from ns i a
                 | None => []
                 end)
           (seq 0 (length ns)).

(** [Math.sin] on a finite argument, and [Math.PI]. *)
Variable sin : Q → Q.
Variable PI : Q.

Definition fsin (a : num) : num :=
  match a with
  | Fin q => Fin (sin q)
  | _ => NaN
  end.

(** The node that the first loop pushes at its turn [i]. *)
Definition sample_node (i : nat) : node :=
  let t := fdiv (Fin (inject_Z (Z.of_nat i))) 40 in
  {| id := i;
     x := fadd (Fin 50) (fmul t (Fin 600));
     y := fadd (Fin 200)
               (fmul (Fin 100) (fsin (fmul (fmul (fmul (Fin 2) (Fin PI)) t) (Fin 2)))) |}.

Definition generateSampleGraph : graph :=
  let nodes := map sample_node (seq 0 40) in
  {| nodes := nodes; edges := connect_nearby nodes |}.

(** ** [astar] *)

(** One turn of [for (const neighbor of neighbors)]. *)
Definition relax (g : graph) (goal current : nat) (st : astar_state)
    (neighbor : nat) : outcome astar_state :=
  match find_edge (edges g) current neighbor with
  | None => Throw
  | Some e =>
      let tentativeG := fadd (to_number (gScore st !! current)) (weight e) in
      if negb (bool_decide (is_Some (gScore st !! neighbor)))
         || num_lt tentativeG (to_number (gScore st !! neighbor))
      then
        h ← heuristic_at (nodes g) neighbor goal;
        Ret {| openSet := set_add neighbor (openSet st);
               cameFrom := <[neighbor := current]> (cameFrom st);
               gScore := <[neighbor := tentativeG]> (gScore st);
               fScore := <[neighbor := fadd tentativeG h]> (fScore st) |}
      else Ret st
  end.

(** The rest of a turn of the [while] loop once [current] is known not
    to be the goal: [openSet.delete(current)], then the [for] loop over
    the neighbours. *)
Definition expand (g : graph) (goal current : nat) (st : astar_state)
    : outcome astar_state :=
  foldM (relax g goal current) (neighbors (edges g) current)
        {| openSet := set_delete current (openSet st);
           cameFrom := cameFrom st;
           gScore := gScore st;
           fScore := fScore st |}.

(** The [while (openSet.size > 0)] loop. *)
Fixpoint astar_loop (fuel : nat) (g : graph) (goal : nat) (st : astar_state)
    : outcome (option (list nat)) :=
  match fuel with
  | O => OutOfFuel
  | S k =>
      match openSet st with
      | [] => Ret None
      | a :: rest =>
          let current := pick_current (fScore st) a rest in
          if (current =? goal)%nat then
            p ← reconstructPath k (cameFrom st) current [current]; Ret (Some p)
          else
            st2 ← expand g goal current st;
            astar_loop k g goal st2
      end
  end.

Definition astar_init (h0 : num) (start : nat) : astar_state :=
  {| openSet := [start];
     cameFrom := ∅;
     gScore := {[ start := Fin 0 ]};
     fScore := {[ start := h0 ]} |}.

(** [astar(graph, start, goal)]: [Ret None] is the [null] result. *)
Definition astar (fuel : nat) (g : graph) (start goal : nat)
    : outcome (option (list nat)) :=
  h0 ← heuristic_at (nodes g) start goal;
  astar_loop fuel g goal (astar_init h0 start).

(** ** [calculatePathDistance] *)

Fixpoint distance_loop (ns : list node) (path : list nat) (dist : num) : outcome num :=
  match path with
  | a :: (b :: _) as rest =>
      h ← heuristic_at ns a b; distance_loop ns rest (fadd dist h)
  | _ => Ret dist
  end.

Definition calculatePathDistance (g : graph) (path : list nat) : outcome num :=
  distance_loop (nodes g) path (Fin 0).

(** ** [calculatePath] *)

Definition calculatePath_single (fuel : nat) (g : graph) (startNode goalNode : nat)
    : outcome (list nat) :=
  path ← astar fuel g startNode goalNode; Ret (default [] path).

Record best : Type := mkBest {
  bestGoal : option nat;
  bestPath : option (list nat);
  bestDist : num
}.

(** One turn of [for (const goal of remaining)]. *)
Definition try_goal (fuel : nat) (g : graph) (current : nat) (b : best) (goal : nat)
    : outcome best :=
  path ← astar fuel g current goal;
  match path with
  | None => Ret b
  | Some p =>
      dist ← calculatePathDistance g p;
      if num_lt dist (bestDist b)
      then Ret {| bestGoal := Some goal; bestPath := Some p; bestDist := dist |}
      else Ret b
  end.

Definition select_best (fuel : nat) (g : graph) (current : nat) (remaining : list nat)
    : outcome best :=
  foldM (try_goal fuel g current) remaining
        {| bestGoal := None; bestPath := None; bestDist := PInf |}.

(** [!bestGoal]: true for [null] and for the number 0. *)
Definition falsy (o : option nat) : bool :=
  match o with
  | None => true
  | Some n => (n =? 0)%nat
  end.

(** The [while (remaining.size > 0)] loop; [turns] bounds its turns. *)
Fixpoint multi_loop (turns fuel : nat) (g : graph) (current : nat)
    (remaining fullPath : list nat) : outcome (list nat * list nat) :=
  match remaining with
  | [] => Ret (fullPath, remaining)
  | _ :: _ =>
      match turns with
      | O => OutOfFuel
      | S t =>
          b ← select_best fuel g current remaining;
          if falsy (bestGoal b) then Ret (fullPath, remaining)
          else
            match bestGoal b, bestPath b with
            | Some goal, Some p =>
                multi_loop t fuel g goal (set_delete goal remaining)
                           (fullPath ++ drop 1 p)
            | _, _ => Throw
            end
      end
  end.

(** The state in which the loop of the multi-goal branch stops: the
    accumulated path and what is left of [remaining]. *)
Definition multi_final (fuel : nat) (g : graph) (startNode : nat) (multiGoals : list nat)
    : outcome (list nat * list nat) :=
  let remaining := set_of_list multiGoals in
  multi_loop (length remaining) fuel g startNode remaining [startNode].

(** The multi-goal branch of [calculatePath]: only [fullPath] is handed
    to [setCurrentPath]. *)
Definition calculatePath_multi (fuel : nat) (g : graph) (startNode : nat)
    (multiGoals : list nat) : outcome (list nat) :=
  r ← multi_final fuel g startNode multiGoals; Ret r.1.

(** ** What [PathPlannerDemo] shows *)

(** [pathDistance]: the string of [toFixed(1)], or the number 0 for the
    empty path; either way the number shown. *)
Definition pathDistance (g : graph) (currentPath : list nat) : outcome num :=
  match currentPath with
  | [] => Ret (Fin 0)
  | _ :: _ => d ← calculatePathDistance g currentPath; Ret (toFixed1 d)
  end.

(** [(pathDistance / 50).toFixed(1)]: the division turns the string
    into the double nearest to the number it denotes. *)
Definition estimatedTime (g : graph) (currentPath : list nat) : outcome num :=
  match currentPath with
  | [] => Ret (toFixed1 (fdiv (Fin 0) 50))
  | _ :: _ =>
      d ← calculatePathDistance g currentPath;
      Ret (toFixed1 (fdiv (of_string (toFixed1 d)) 50))
  end.

End Planner.

(** ** The order of the numbers *)

(** [a <= b], false as soon as one side is [NaN]. *)
Definition num_le (a b : num) : Prop :=
  match a, b with
  | NaN, _ | _, NaN => False
  | NInf, _ | _, PInf => True
  | Fin p, Fin q => p <= q
  | _, _ => False
  end.

(** The same number. *)
Definition num_eq (a b : num) : Prop :=
  match a, b with
  | NaN, NaN | PInf, PInf | NInf, NInf => True
  | Fin p, Fin q => p == q
  | _, _ => False
  end.

(** What is used of the rounding: it is monotone (and so never gives
    [NaN]), and 0 and every finite result of it round to themselves. *)
Record rounding (rnd : Q → num) : Prop := mkRounding {
  rnd_mono : ∀ p q, p <= q → num_le (rnd p) (rnd q);
  rnd_zero : num_eq (rnd 0) (Fin 0);
  rnd_idem : ∀ p r, rnd p = Fin r → num_eq (rnd r) (Fin r)
}.

(** Zero, a positive number or the positive infinity. *)
Definition nn (v : num) : Prop := num_le (Fin 0) v.

(** A finite number is a double. *)
Definition dbl (rnd : Q → num) (v : num) : Prop :=
  match v with
  | Fin p => num_eq (rnd p) (Fin p)
  | _ => True
  end.

(** The values a g-score can have. *)
Definition good (rnd : Q → num) (v : num) : Prop := nn v ∧ dbl rnd v.

(** A number below infinity: what [dist < bestDist] asks of the first
    distance it sees. *)
Definition finite (v : num) : Prop := ∃ q, v = Fin q.

(** ** Paths over the edge array *)

(** Some edge of [es] joins [u] and [v], in one direction or the other. *)
Definition adjacent (es : list edge) (u v : nat) : Prop :=
  ∃ e, e ∈ es ∧ joins u v e = true.

(** Every hop of the node sequence [p] is joined by an edge. *)
Fixpoint hops_ok (es : list edge) (p : list nat) : Prop :=
  match p with
  | u :: (v :: _) as rest => adjacent es u v ∧ hops_ok es rest
  | _ => True
  end.

(** [p] leads from [s] to [t] over the edges of [g]. *)
Definition is_path (g : graph) (s t : nat) (p : list nat) : Prop :=
  head p = Some s ∧ last p = Some t ∧ hops_ok (edges g) p.

Definition connected (g : graph) (s t : nat) : Prop := ∃ p, is_path g s t p.

(** The weight [astar] adds for the hop from [u] to [v]: that of the
    first edge of the array joining them. *)
Definition step_weight (es : list edge) (u v : nat) : num :=
  match find_edge es u v with
  | Some e => weight e
  | None => Fin 0
  end.

(** Cost of a node sequence listed from its last node back to its
    first, added up the way [astar] adds it: hop by hop from the first
    node, every sum rounded. *)
Fixpoint rcost (rnd : Q → num) (es : list edge) (rp : list nat) : num :=
  match rp with
  | v :: (u :: _) as rest => fadd rnd (rcost rnd es rest) (step_weight es u v)
  | _ => Fin 0
  end.

Definition path_cost (rnd : Q → num) (g : graph) (p : list nat) : num :=
  rcost rnd (edges g) (reverse p).

(** No weight is negative or [NaN]. *)
Definition nonneg_weights (g : graph) : Prop := ∀ e, e ∈ edges g → nn (weight e).

(** Every end of every edge indexes a node of the node array. *)
Definition endpoints_ok (g : graph) : Prop :=
  ∀ e, e ∈ edges g → is_Some (nodes g !! from e) ∧ is_Some (nodes g !! to e).

(** ** Invariants of the search loop *)

(** The state [relax] returns when it improves [neighbor]: its score
    becomes [t], reached from [current]. *)
Definition improved (rnd : Q → num) (st : astar_state) (current neighbor : nat)
    (t h : num) : astar_state :=
  {| openSet := set_add neighbor (openSet st);
     cameFrom := <[neighbor := current]> (cameFrom st);
     gScore := <[neighbor := t]> (gScore st);
     fScore := <[neighbor := fadd rnd t h]> (fScore st) |}.

(** Every open node has a g-score, every g-score is a double that is
    not negative, and that of [start] is 0. *)
Definition scores_ok (rnd : Q → num) (start : nat) (st : astar_state) : Prop :=
  (∀ n, n ∈ openSet st → is_Some (gScore st !! n)) ∧
  (∀ n v, gScore st !! n = Some v → good rnd v) ∧
  gScore st !! start = Some (Fin 0).

(** The nodes a search from [start] can ever score. *)
Definition universe (es : list edge) (start : nat) : list nat :=
  start :: flat_map (λ e, [from e; to e]) es.

(** Every g-score is the cost of a walk without repeated node, and no
    node of that walk has a score above the cost of the walk up to it. *)
Definition walks_ok (rnd : Q → num) (es : list edge) (start : nat) (st : astar_state)
    : Prop :=
  ∀ n v, gScore st !! n = Some v →
    ∃ rp, NoDup (n :: rp) ∧ (∀ m, m ∈ n :: rp → m ∈ universe es start) ∧
          rcost rnd es (n :: rp) = v ∧
          ∀ m s, suffix (m :: s) (n :: rp) →
            ∃ y, gScore st !! m = Some y ∧ num_le y (rcost rnd es (m :: s)).

(** [chain cf n l]: following [cf] from [n] visits [l] and stops. *)
Inductive chain (cf : gmap nat nat) : nat → list nat → Prop :=
  | chain_root n : cf !! n = None → chain cf n [n]
  | chain_link n p l : cf !! n = Some p → chain cf p l → chain cf n (n :: l).

(** [cameFrom] links a node to a neighbour whose score, plus the hop,
    does not exceed its own; [start] has no link, and from every scored
    node the links lead back to [start]. *)
Definition chains_ok (rnd : Q → num) (es : list edge) (start : nat) (st : astar_state)
    : Prop :=
  cameFrom st !! start = None ∧
  (∀ n p, cameFrom st !! n = Some p →
     adjacent es p n ∧
     ∃ gp gn, gScore st !! p = Some gp ∧ gScore st !! n = Some gn ∧
              num_le (fadd rnd gp (step_weight es p n)) gn) ∧
  (∀ n, is_Some (gScore st !! n) → ∃ l, chain (cameFrom st) n l ∧ last l = Some start).

(** Scored nodes that are no longer open have all their neighbours
    scored, and the goal stays open once it is scored. *)
Definition closed_ok (es : list edge) (start goal : nat) (st : astar_state) : Prop :=
  is_Some (gScore st !! start) ∧
  (∀ n, is_Some (gScore st !! n) → n ∉ openSet st →
     ∀ m, adjacent es n m → is_Some (gScore st !! m)) ∧
  (is_Some (gScore st !! goal) → goal ∈ openSet st).

(** What the search keeps true from turn to turn on a graph with
    non-negative weights. *)
Definition search_ok (rnd : Q → num) (es : list edge) (start : nat) (st : astar_state)
    : Prop :=
  scores_ok rnd start st ∧ walks_ok rnd es start st ∧ chains_ok rnd es start st.

(** The state after [openSet.delete(current)]. *)
Definition closed (current : nat) (st : astar_state) : astar_state :=
  {| openSet := set_delete current (openSet st);
     cameFrom := cameFrom st;
     gScore := gScore st;
     fScore := fScore st |}.

(** Every [cameFrom] link lies along an edge. *)
Definition links_ok (es : list edge) (st : astar_state) : Prop :=
  ∀ n p, cameFrom st !! n = Some p → adjacent es p n.

(** [closed_ok] in the middle of a turn, when the neighbours of
    [current] are not all scored yet. *)
Definition closed_but (es : list edge) (start goal current : nat) (st : astar_state) : Prop :=
  is_Some (gScore st !! start) ∧
  (∀ n, n ≠ current → is_Some (gScore st !! n) → n ∉ openSet st →
     ∀ m, adjacent es n m → is_Some (gScore st !! m)) ∧
  (is_Some (gScore st !! goal) → goal ∈ openSet st).

(** Everything the search keeps true from turn to turn. *)
Definition astar_inv (rnd : Q → num) (es : list edge) (start goal : nat)
    (st : astar_state) : Prop :=
  search_ok rnd es start st ∧ closed_ok es start goal st.

(** The straight-line estimate from node [n] to [goal]. *)
Definition heuristic_to (rnd : Q → num) (sqrt : Q → Q) (g : graph) (goal n : nat) : num :=
  match nodes g !! n, nodes g !! goal with
  | Some a, Some c => heuristic rnd sqrt a c
  | _, _ => Fin 0
  end.

(** The estimate is consistent with the weights, in the arithmetic of
    the search: it is a double that is not negative, it is 0 at the
    goal, and along an edge, in either direction, a score plus the
    estimate is at most the score plus the weight plus the estimate at
    the other end. *)
Definition consistent (rnd : Q → num) (sqrt : Q → Q) (g : graph) (goal : nat) : Prop :=
  (∀ n, good rnd (heuristic_to rnd sqrt g goal n)) ∧
  num_eq (heuristic_to rnd sqrt g goal goal) (Fin 0) ∧
  ∀ e c, e ∈ edges g → good rnd c →
    num_le (fadd rnd c (heuristic_to rnd sqrt g goal (from e)))
           (fadd rnd (fadd rnd c (weight e)) (heuristic_to rnd sqrt g goal (to e))) ∧
    num_le (fadd rnd c (heuristic_to rnd sqrt g goal (to e)))
           (fadd rnd (fadd rnd c (weight e)) (heuristic_to rnd sqrt g goal (from e))).





(** All lists over [u] of length at most [k]. *)
Fixpoint lists_upto (u : list nat) (k : nat) : list (list nat) :=
  match k with
  | O => [[]]
  | S k' => [] :: flat_map (λ l, map (λ a, a :: l) u) (lists_upto u k')
  end.

(** The costs a walk without repeated node can have. *)
Definition walk_costs (rnd : Q → num) (es : list edge) (start : nat) : list num :=
  let u := universe es start in map (rcost rnd es) (lists_upto u (length u)).

(** How many walk costs lie strictly below a score; an absent score
    counts above them all. *)
Definition below (costs : list num) (o : option num) : nat :=
  match o with
  | None => S (length costs)
  | Some v => length (List.filter (λ c, num_lt c v) costs)
  end.

(** The quantity every turn of the [while] loop decreases. *)
Definition measure (rnd : Q → num) (es : list edge) (start : nat) (st : astar_state)
    : nat :=
  2 * sum_list (map (λ n, below (walk_costs rnd es start) (gScore st !! n))
                    (universe es start))
  + length (openSet st).

(** The loop has gone from one state to another by whole turns, none of
    which picked the goal. *)
Inductive reaches (rnd : Q → num) (sqrt : Q → Q) (g : graph) (goal : nat)
    : astar_state → astar_state → Prop :=
  | reaches_here st : reaches rnd sqrt g goal st st
  | reaches_turn st a rest st1 st2 :
      openSet st = a :: rest →
      pick_current (fScore st) a rest ≠ goal →
      expand rnd sqrt g goal (pick_current (fScore st) a rest) st = Ret st1 →
      reaches rnd sqrt g goal st1 st2 →
      reaches rnd sqrt g goal st st2.

(** Every edge weighs the straight-line distance between its ends, as
    in [generateSampleGraph]. *)
Definition euclidean_weights (rnd : Q → num) (sqrt : Q → Q) (g : graph) : Prop :=
  ∀ e a b, e ∈ edges g → nodes g !! from e = Some a → nodes g !! to e = Some b →
    num_eq (weight e) (heuristic rnd sqrt a b) ∧ num_eq (weight e) (heuristic rnd sqrt b a).

(** The same graph with the [traversable] attribute of every edge
    replaced. *)
Definition with_flags (f : edge → option bool) (g : graph) : graph :=
  {| nodes := nodes g;
     edges := map (λ e, {| from := from e; to := to e; weight := weight e;
                           traversable := f e |}) (edges g) |}.

(** The straight-line distances between the consecutive nodes of a path,
    in the order of the path; [NaN] where a node is missing. *)
Fixpoint legs (rnd : Q → num) (sqrt : Q → Q) (ns : list node) (p : list nat) : list num :=
  match p with
  | a :: (b :: _) as rest =>
      match ns !! a, ns !! b with
      | Some na, Some nb => heuristic rnd sqrt na nb
      | _, _ => NaN
      end :: legs rnd sqrt ns rest
  | _ => []
  end.

(** Their sum, added up from the first on and rounded after every
    addition. *)
Definition straight_line (rnd : Q → num) (sqrt : Q → Q) (ns : list node) (p : list nat) : num :=
  fold_left (fadd rnd) (legs rnd sqrt ns p) (Fin 0).

(** Rounding commutes with the change of sign, as rounding to the
    nearest double does. *)
Definition odd_rounding (rnd : Q → num) : Prop :=
  ∀ q, num_eq (rnd (- q)) (fneg (rnd q)).

(** Rounding a number of size at most [2 ^ 20] gives a finite number at
    most [1 / 1024] away; rounding to the nearest double moves such a
    number far less. *)
Definition close_rounding (rnd : Q → num) : Prop :=
  ∀ q, Qabs q <= inject_Z (2 ^ 20) →
    ∃ r, rnd q = Fin r ∧ Qabs (r - q) <= 1 # 1024.

(** What the [for] loop over the remaining goals has found after the
    goals of [seen]: nothing while no goal had a path of a distance
    below infinity, and otherwise the first of the goals whose path is
    shortest. *)
Definition best_of (rnd : Q → num) (sqrt : Q → Q) (fuel : nat) (g : graph) (cur : nat)
    (seen : list nat) (b : best) : Prop :=
  match bestGoal b with
  | None =>
      bestDist b = PInf ∧ bestPath b = None ∧
      ∀ x p d, x ∈ seen → astar rnd sqrt fuel g cur x = Ret (Some p) →
        calculatePathDistance rnd sqrt g p = Ret d → num_lt d PInf = false
  | Some bg =>
      ∃ l1 l2 p d,
        seen = l1 ++ bg :: l2 ∧
        astar rnd sqrt fuel g cur bg = Ret (Some p) ∧ bestPath b = Some p ∧
        calculatePathDistance rnd sqrt g p = Ret d ∧ bestDist b = d ∧
        num_lt d PInf = true ∧
        (∀ x p' d', x ∈ l1 → astar rnd sqrt fuel g cur x = Ret (Some p') →
           calculatePathDistance rnd sqrt g p' = Ret d' → ¬ num_le d' d) ∧
        (∀ x p' d', x ∈ l2 → astar rnd sqrt fuel g cur x = Ret (Some p') →
           calculatePathDistance rnd sqrt g p' = Ret d' → num_lt d' d = false)
  end.

(** ** The cost model of the specification *)

Module CostModel.

(** Modelled from the spec: the execution primitive of an edge (spec
    section 3); no file under src/ declares it. *)
Inductive skill_kind : Type :=
  | enter_zone | exit_zone | follow_corridor
  | enter_facility | exit_facility | navigate_service_corridor.

(** Modelled from the spec: the attributes of an edge of the Graph Store
    (spec section 3); planning/costs.py is not under src/. *)
Record store_edge : Type := mkStoreEdge {
  base_cost : Q;
  reliability : Q;
  skill : skill_kind;
  can_traverse : bool;
  failure_penalty : Q
}.

(** Modelled from the spec: the Graph Store keeps its edges by
    [(from, to)] (spec sections 3 and 4.1). *)
Abbreviation edge_store := (gmap (nat * nat) store_edge).

(** Modelled from the spec: [effective_cost(edge) = edge.base_cost /
    edge.reliability + edge.failure_penalty] (spec section 4.2). *)
Definition effective_cost (e : store_edge) : Q :=
  base_cost e / reliability e + failure_penalty e.

Definition add_penalty (amount : Q) (e : store_edge) : store_edge :=
  {| base_cost := base_cost e; reliability := reliability e; skill := skill e;
     can_traverse := can_traverse e; failure_penalty := failure_penalty e + amount |}.

(** Modelled from the spec: [apply_penalty(from, to, amount)] adds to
    that edge's [failure_penalty] and fails with [NotFound] ([None]) on
    an unknown edge (spec section 4.1). *)
Definition apply_penalty (s : edge_store) (k : nat * nat) (amount : Q) : option edge_store :=
  match s !! k with
  | None => None
  | Some e => Some (<[k := add_penalty amount e]> s)
  end.

End CostModel.


(** ** Sample graphs *)

Definition nd (i : nat) (a b : Z) : node := {| id := i; x := Fin (a # 1); y := Fin (b # 1) |}.

Definition ed (a b : nat) (w : Z) : edge :=
  {| from := a; to := b; weight := Fin (w # 1); traversable := None |}.

(** A short hop to the goal that costs more than the way round. *)
Definition g_detour : graph :=
  {| nodes := [nd 0 0 0; nd 1 100 0; nd 2 1 0];
     edges := [ed 0 2 10; ed 0 1 1; ed 1 2 1] |}.

(** The three-node scenario of the specification. *)
Definition g_triangle : graph :=
  {| nodes := [nd 0 0 0; nd 1 10 0; nd 2 10 10];
     edges := [ed 0 1 10; ed 1 2 10; ed 0 2 25] |}.

(** One edge, stored from node 1 to node 0. *)
Definition g_one_way : graph :=
  {| nodes := [nd 0 0 0; nd 1 1 0]; edges := [ed 1 0 1] |}.

(** Node 2 has no edge. *)
Definition g_island : graph :=
  {| nodes := [nd 0 0 0; nd 1 1 0; nd 2 5 0]; edges := [ed 0 1 1] |}.


(** Nodes 1 and 2 lie at the same distance on either side of node 0. *)
Definition g_fork : graph :=
  {| nodes := [nd 0 0 0; nd 1 1 0; nd 2 (-1) 0]; edges := [ed 0 1 1; ed 0 2 1] |}.

(** The path found to node 3 runs through node 2 and is shorter than
    the path found to node 2. *)
Definition g_through : graph :=
  {| nodes := [nd 0 0 16; nd 1 0 9; nd 2 0 0; nd 3 12 0; nd 4 (-12) 0];
     edges := [ed 0 4 0; ed 0 1 4; ed 4 2 0; ed 1 2 0; ed 2 3 0] |}.

(** An edge that weighs twice the distance between its ends. *)
Definition g_long_edge : graph :=
  {| nodes := [nd 0 0 0; nd 1 3 4]; edges := [ed 0 1 10] |}.

(** The only edge is marked as not traversable. *)
Definition g_blocked : graph :=
  {| nodes := [nd 0 0 0; nd 1 1 0];
     edges := [ {| from := 0; to := 1; weight := Fin 1; traversable := Some false |} ] |}.

(** All nodes in one place, so that every estimate is 0; the weights
    [10 ^ 16 + 2] and [10 ^ 16] are doubles, [10 ^ 16 + 1] is not. *)
Definition g_rounding : graph :=
  {| nodes := [nd 0 0 0; nd 1 0 0; nd 2 0 0; nd 3 0 0; nd 4 0 0];
     edges := [ed 0 4 (10 ^ 16 + 2); ed 0 1 (10 ^ 16); ed 1 2 1; ed 2 3 1; ed 3 4 1] |}.

(** Two nodes so far apart that the square of their distance is not a
    finite double. *)
Definition g_far : graph :=
  {| nodes := [nd 0 0 0; nd 1 (2 ^ 700) 0]; edges := [ed 0 1 1] |}.

(** Three short hops after a long one: adding 1 to [2 ^ 53] gives
    [2 ^ 53] again. *)
Definition g_line : graph :=
  {| nodes := [nd 0 0 0; nd 1 (2 ^ 53) 0; nd 2 (2 ^ 53) 1; nd 3 (2 ^ 53) 2];
     edges := [ed 0 1 (2 ^ 53); ed 1 2 1; ed 2 3 1] |}.

(** Two nodes 7.5 apart. *)
Definition g_half : graph :=
  {| nodes := [nd 0 0 0; {| id := 1; x := Fin (15 # 2); y := Fin 0 |}];
     edges := [{| from := 0; to := 1; weight := Fin (15 # 2); traversable := None |}] |}.

(** An edge of the store, with and without penalty. *)
Definition sample_store : CostModel.edge_store :=
  {[ (0%nat, 1%nat) := CostModel.mkStoreEdge 10 1 CostModel.follow_corridor true 0;
     (1%nat, 2%nat) := CostModel.mkStoreEdge 10 (1 # 2) CostModel.enter_zone true 0 ]}.

(** Three nodes at the corners of a right triangle with sides 30, 40
    and 50. *)
Definition corner_nodes : list node := [nd 0 0 0; nd 1 30 40; nd 2 30 0].

(** ** The rest of [interactive_planner.js] *)

(** Following the [cameFrom] links [j] times from [n]. *)
Fixpoint link_iter (cf : gmap nat nat) (j : nat) (n : nat) : option nat :=
  match j with
  | O => Some n
  | S j' =>
      match cf !! n with
      | Some p => link_iter cf j' p
      | None => None
      end
  end.

(** [Array.prototype.indexOf]: the first position of [v], or -1. *)
Fixpoint indexOf_from (l : list nat) (v : nat) (i : Z) : Z :=
  match l with
  | [] => (-1)%Z
  | a :: l' => if (a =? v)%nat then i else indexOf_from l' v (i + 1)%Z
  end.

Definition indexOf (l : list nat) (v : nat) : Z := indexOf_from l v 0%Z.

(** [isInPath] of an edge, which decides whether the edge is drawn as
    part of the path. *)
Definition isInPath (currentPath : list nat) (e : edge) : bool :=
  bool_decide (from e ∈ currentPath) && bool_decide (to e ∈ currentPath)
  && (Z.abs (indexOf currentPath (from e) - indexOf currentPath (to e)) =? 1)%Z.

(** The state [animatePath] works on: the component's [animating] and
    [robotPos], the [pos] of the closure, and whether the interval is
    still set. *)
Record animation : Type := mkAnimation {
  animating : bool;
  robotPos : nat;
  pos : nat;
  interval : bool
}.

(** [animatePath], for a current path of [len] nodes. *)
Definition animatePath (len : nat) (st : animation) : animation :=
  if (len =? 0)%nat then st
  else {| animating := true; robotPos := 0; pos := 0; interval := true |}.

(** One firing of the interval's callback. *)
Definition tick (len : nat) (st : animation) : animation :=
  if interval st then
    let pos1 := S (pos st) in
    if (len <=? pos1)%nat
    then {| animating := false; robotPos := len - 1; pos := len - 1; interval := false |}
    else {| animating := animating st; robotPos := pos1; pos := pos1;
            interval := true |}
  else st.

Definition ticks (len k : nat) (st : animation) : animation :=
  Nat.iter k (tick len) st.

(** ** Tactics for the runs on the sample graphs *)

Ltac each_elem H :=
  simpl in H; repeat (apply elem_of_cons in H as [->|H]);
  try (by apply elem_of_nil in H).

Ltac weights_nonneg := intros ? He; each_elem He; by vm_compute.

Ltac ends_in_nodes := intros ? He; each_elem He; split; simpl; eauto.


(** * Facts *)

(** ** The order of the numbers *)

Lemma Qltb_lt (a b : Q) : Qltb a b = true ↔ a < b.
Proof.
  unfold Qltb. rewrite negb_true_iff. split.
  - intros H. apply Qnot_le_lt. intros Hle. apply Qle_bool_iff in Hle. congruence.
  - intros H. destruct (Qle_bool b a) eqn:E; [|done].
    apply Qle_bool_iff in E. lra.
Qed.

Lemma Qltb_ge (a b : Q) : Qltb a b = false ↔ b <= a.
Proof.
  split.
  - intros H. destruct (Qlt_le_dec a b) as [Hlt|Hle]; [|done].
    apply Qltb_lt in Hlt. congruence.
  - intros H. destruct (Qltb a b) eqn:E; [|done]. apply Qltb_lt in E. lra.
Qed.

Lemma num_le_refl (a : num) : a ≠ NaN → num_le a a.
Proof. destruct a; simpl; try done; intros _; lra. Qed.

Lemma num_le_trans (a b c : num) : num_le a b → num_le b c → num_le a c.
Proof. destruct a, b, c; simpl; try done; lra. Qed.

Lemma num_le_not_nan (a b : num) : num_le a b → a ≠ NaN ∧ b ≠ NaN.
Proof. by destruct a, b. Qed.

Lemma num_lt_le (a b : num) : num_lt a b = true → num_le a b.
Proof.
  destruct a, b; simpl; try done. intros H. apply Qltb_lt in H. lra.
Qed.

Lemma num_lt_irrefl (a : num) : num_lt a a = false.
Proof. destruct a; simpl; try done. apply Qltb_ge. lra. Qed.

Lemma num_lt_trans (a b c : num) :
  num_lt a b = true → num_lt b c = true → num_lt a c = true.
Proof.
  destruct a, b, c; simpl; try done.
  rewrite !Qltb_lt. lra.
Qed.

Lemma num_le_lt_trans (a b c : num) :
  num_le a b → num_lt b c = true → num_lt a c = true.
Proof.
  destruct a, b, c; simpl; try done.
  rewrite !Qltb_lt. lra.
Qed.

Lemma num_lt_le_trans (a b c : num) :
  num_lt a b = true → num_le b c → num_lt a c = true.
Proof.
  destruct a, b, c; simpl; try done.
  rewrite !Qltb_lt. lra.
Qed.


Lemma num_le_lt_false (a b : num) : num_le b a → num_lt a b = false.
Proof.
  destruct a, b; simpl; try done. intros H. by apply Qltb_ge.
Qed.

Lemma num_eq_refl (a : num) : num_eq a a.
Proof. destruct a; simpl; try done. Qed.

Lemma num_eq_sym (a b : num) : num_eq a b → num_eq b a.
Proof. destruct a, b; simpl; try done; intros H; by symmetry. Qed.

Lemma num_eq_trans (a b c : num) : num_eq a b → num_eq b c → num_eq a c.
Proof. destruct a, b, c; simpl; try done; intros H1 H2; by rewrite H1. Qed.

Lemma num_eq_le (a b : num) : num_eq a b → a ≠ NaN → num_le a b.
Proof. destruct a, b; simpl; try done; intros H _; lra. Qed.

Lemma num_le_antisym (a b : num) : num_le a b → num_le b a → num_eq a b.
Proof. destruct a, b; simpl; try done; intros; lra. Qed.

Lemma num_le_eq_l (a a' b : num) : num_eq a a' → num_le a b → num_le a' b.
Proof. destruct a, a', b; simpl; try done; intros; lra. Qed.

Lemma num_le_eq_r (a b b' : num) : num_eq b b' → num_le a b → num_le a b'.
Proof. destruct a, b, b'; simpl; try done; intros; lra. Qed.

Lemma Qltb_proper (p p' q q' : Q) : p == p' → q == q' → Qltb p q = Qltb p' q'.
Proof.
  intros H1 H2. destruct (Qltb p q) eqn:E1, (Qltb p' q') eqn:E2; try done.
  - apply Qltb_lt in E1. apply Qltb_ge in E2. lra.
  - apply Qltb_ge in E1. apply Qltb_lt in E2. lra.
Qed.

Lemma num_lt_proper (a a' b b' : num) :
  num_eq a a' → num_eq b b' → num_lt a b = num_lt a' b'.
Proof.
  destruct a, a', b, b'; simpl; try done. apply Qltb_proper.
Qed.

Lemma nn_not_nan (a : num) : nn a → a ≠ NaN.
Proof. by destruct a. Qed.

Lemma nn_eq (a b : num) : num_eq a b → nn a → nn b.
Proof. unfold nn. destruct a, b; simpl; try done; intros; lra. Qed.

Lemma finite_lt_inf (v : num) : nn v → (num_lt v PInf = true ↔ finite v).
Proof.
  destruct v; simpl; try done.
  - intros _. split; [done|]. by intros [q ?].
  - intros _. split; [by eexists|done].
Qed.

(** ** Rounding *)


Section Rounding.

Variable rnd : Q → num.
Hypothesis Hrnd : rounding rnd.

Lemma rnd_not_nan (p : Q) : rnd p ≠ NaN.
Proof.
  pose proof (rnd_mono rnd Hrnd p p (Qle_refl p)) as H.
  by apply num_le_not_nan in H as [? _].
Qed.

Lemma rnd_proper (p q : Q) : p == q → num_eq (rnd p) (rnd q).
Proof.
  intros H. apply num_le_antisym; apply (rnd_mono rnd Hrnd); lra.
Qed.

Lemma rnd_nn (p : Q) : 0 <= p → nn (rnd p).
Proof.
  intros Hp. unfold nn. apply num_le_eq_l with (rnd 0); [apply (rnd_zero rnd Hrnd)|].
  by apply (rnd_mono rnd Hrnd).
Qed.

Lemma rnd_dbl (p : Q) : dbl rnd (rnd p).
Proof.
  destruct (rnd p) as [| | |r] eqn:E; simpl; try done.
  by apply (rnd_idem rnd Hrnd p).
Qed.

Lemma good_zero : good rnd (Fin 0).
Proof. split; [simpl; unfold nn; simpl; lra|]. apply (rnd_zero rnd Hrnd). Qed.

Lemma good_nn (a : num) : good rnd a → nn a.
Proof. by intros [? _]. Qed.

Lemma fadd_nn (a w : num) : nn a → nn w → nn (fadd rnd a w).
Proof.
  unfold nn. destruct a as [| | |p], w as [| | |q]; cbn [fadd]; try done.
  simpl. intros Hp Hq. apply rnd_nn. lra.
Qed.

Lemma fadd_good (a w : num) : nn a → nn w → good rnd (fadd rnd a w).
Proof.
  intros Ha Hw. split; [by apply fadd_nn|].
  unfold nn in *. destruct a as [| | |p], w as [| | |q]; simpl in Ha, Hw; cbn [fadd]; try done.
  apply rnd_dbl.
Qed.

(** Adding a weight that is not negative never lowers a score. *)
Lemma fadd_infl (a w : num) : good rnd a → nn w → num_le a (fadd rnd a w).
Proof.
  intros [Ha Hd] Hw. unfold nn in *.
  destruct a as [| | |p], w as [| | |q]; simpl in Ha, Hd, Hw; cbn [fadd]; try done.
  apply num_le_eq_l with (rnd p); [done|].
  apply (rnd_mono rnd Hrnd). lra.
Qed.

(** Addition is monotone in the score. *)
Lemma fadd_mono (a b w : num) :
  nn a → nn w → num_le a b → num_le (fadd rnd a w) (fadd rnd b w).
Proof.
  unfold nn. intros Ha Hw Hab.
  destruct a as [| | |p], b as [| | |q], w as [| | |r];
    simpl in Ha, Hw, Hab; cbn [fadd]; try done.
  - pose proof (rnd_not_nan (p + r)). by destruct (rnd (p + r)).
  - apply (rnd_mono rnd Hrnd). lra.
Qed.

(** Addition gives the same number on the same numbers. *)
Lemma fadd_proper (a a' b b' : num) :
  num_eq a a' → num_eq b b' → num_eq (fadd rnd a b) (fadd rnd a' b').
Proof.
  destruct a, a', b, b'; cbn [fadd]; try done.
  simpl. intros H1 H2. apply rnd_proper. by rewrite H1, H2.
Qed.

Lemma fsub_proper (a a' b b' : num) :
  num_eq a a' → num_eq b b' → num_eq (fsub rnd a b) (fsub rnd a' b').
Proof.
  destruct a, a', b, b'; cbn [fsub]; try done.
  simpl. intros H1 H2. apply rnd_proper. by rewrite H1, H2.
Qed.

Lemma inf_times_proper (p q : Q) : p == q → inf_times p = inf_times q.
Proof.
  intros H. unfold inf_times.
  assert (Qeq_bool p 0 = Qeq_bool q 0) as ->.
  { destruct (Qeq_bool p 0) eqn:E1, (Qeq_bool q 0) eqn:E2; try done.
    - apply Qeq_bool_iff in E1. apply Qeq_bool_neq in E2. destruct E2. lra.
    - apply Qeq_bool_iff in E2. apply Qeq_bool_neq in E1. destruct E1. lra. }
  assert (Qltb 0 p = Qltb 0 q) as ->; [|done].
  destruct (Qltb 0 p) eqn:E1, (Qltb 0 q) eqn:E2; try done.
  - apply Qltb_lt in E1. apply Qltb_ge in E2. lra.
  - apply Qltb_ge in E1. apply Qltb_lt in E2. lra.
Qed.

Lemma fmul_proper (a a' b b' : num) :
  num_eq a a' → num_eq b b' → num_eq (fmul rnd a b) (fmul rnd a' b').
Proof.
  destruct a, a', b, b'; cbn [fmul]; try done;
    try (simpl; intros H1 H2; first [rewrite (inf_times_proper _ _ H1)
                                    |rewrite (inf_times_proper _ _ H2)];
         apply num_eq_refl).
  simpl. intros H1 H2. apply rnd_proper. by rewrite H1, H2.
Qed.

Lemma fadd_zero_r (a z : num) : good rnd a → num_eq z (Fin 0) → num_eq (fadd rnd a z) a.
Proof.
  intros [Ha Hd] Hz. destruct z as [| | |q]; try done. simpl in Hz.
  unfold nn in Ha. destruct a as [| | |p]; simpl in Ha, Hd; cbn [fadd]; try done.
  apply num_eq_trans with (rnd p); [|done]. apply rnd_proper. lra.
Qed.

End Rounding.

(** ** The rounding of binary64 *)

Lemma pow2_Qpower (e : Z) : pow2 e == 2 ^ e.
Proof.
  unfold pow2. destruct (Z.leb_spec 0 e) as [H|H].
  - by rewrite Zpower_Qpower.
  - rewrite Zpower_Qpower by lia. rewrite Qpower_opp. change (inject_Z 2) with 2.
    by rewrite Qinv_involutive.
Qed.

Lemma pow2_pos (e : Z) : 0 < pow2 e.
Proof. rewrite pow2_Qpower. by apply Qpower_0_lt. Qed.

Lemma pow2_add (a b : Z) : pow2 (a + b) == pow2 a * pow2 b.
Proof. rewrite !pow2_Qpower. by apply Qpower_plus. Qed.

Lemma pow2_le (a b : Z) : (a <= b)%Z → pow2 a <= pow2 b.
Proof. intros H. rewrite !pow2_Qpower. by apply Qpower_le_compat_l. Qed.

Lemma pow2_lt (a b : Z) : (a < b)%Z → pow2 a < pow2 b.
Proof. intros H. rewrite !pow2_Qpower. by apply Qpower_lt_compat_l. Qed.

Lemma pow2_inject (n : Z) : (0 <= n)%Z → pow2 n == inject_Z (2 ^ n).
Proof. intros H. unfold pow2. destruct (Z.leb_spec 0 n); [done|lia]. Qed.

Lemma Qle_bool_true (a b : Q) : Qle_bool a b = true ↔ a <= b.
Proof. apply Qle_bool_iff. Qed.

Lemma Qle_bool_false (a b : Q) : Qle_bool a b = false ↔ b < a.
Proof.
  split.
  - intros H. apply Qnot_le_lt. intros Hle. apply Qle_bool_iff in Hle. congruence.
  - intros H. destruct (Qle_bool a b) eqn:E; [|done]. apply Qle_bool_iff in E. lra.
Qed.

Lemma ilog2_spec (q : Q) : 0 < q → pow2 (ilog2 q) <= q ∧ q < pow2 (ilog2 q + 1).
Proof.
  intros Hq. destruct q as [n d]. unfold ilog2. cbn [Qnum Qden].
  assert (0 < n)%Z as Hn by (unfold Qlt in Hq; simpl in Hq; lia).
  destruct (Z.log2_spec n Hn) as [Hn1 Hn2].
  destruct (Z.log2_spec (Z.pos d) (Pos2Z.is_pos d)) as [Hd1 Hd2].
  pose proof (Z.log2_nonneg n) as Ha. pose proof (Z.log2_nonneg (Z.pos d)) as Hb.
  set (a := Z.log2 n) in *. set (b := Z.log2 (Z.pos d)) in *.
  assert (n # d == inject_Z n / inject_Z (Z.pos d)) as Hnd by apply Qmake_Qdiv.
  assert (0 < inject_Z (Z.pos d)) as Hdpos by (unfold Qlt; simpl; lia).
  assert (pow2 a <= inject_Z n) as H1.
  { rewrite pow2_inject by done. by rewrite <- Zle_Qle. }
  assert (inject_Z n < pow2 (a + 1)) as H2.
  { rewrite pow2_inject by lia. rewrite <- Zlt_Qlt. by rewrite <- Z.add_1_r in Hn2. }
  assert (pow2 b <= inject_Z (Z.pos d)) as H3.
  { rewrite pow2_inject by done. by rewrite <- Zle_Qle. }
  assert (inject_Z (Z.pos d) < pow2 (b + 1)) as H4.
  { rewrite pow2_inject by lia. rewrite <- Zlt_Qlt. by rewrite <- Z.add_1_r in Hd2. }
  pose proof (pow2_pos (a - b)) as P1. pose proof (pow2_pos b) as P2.
  pose proof (pow2_pos (a - b - 1)) as P3.
  assert (pow2 a == pow2 (a - b) * pow2 b) as E1.
  { rewrite <- pow2_add. by replace (a - b + b)%Z with a by lia. }
  assert (pow2 (a + 1) == pow2 (a - b + 1) * pow2 b) as E2.
  { rewrite <- pow2_add. by replace (a - b + 1 + b)%Z with (a + 1)%Z by lia. }
  assert (pow2 (b + 1) == 2 * pow2 b) as E3.
  { rewrite pow2_add. change (pow2 1) with 2. ring. }
  assert (pow2 (a - b) == 2 * pow2 (a - b - 1)) as E4.
  { replace (a - b)%Z with (1 + (a - b - 1))%Z at 1 by lia. rewrite pow2_add.
    change (pow2 1) with 2. ring. }
  assert (pow2 (a - b + 1) == 2 * pow2 (a - b)) as E5.
  { replace (a - b + 1)%Z with (1 + (a - b))%Z by lia. rewrite pow2_add.
    change (pow2 1) with 2. ring. }
  set (x := inject_Z n) in *. set (y := inject_Z (Z.pos d)) in *.
  assert (∀ c, c * y <= x ↔ c <= n # d) as Hdiv1.
  { intros c. rewrite Hnd. split; intros H.
    - apply Qle_shift_div_l; done.
    - apply (Qmult_le_r _ _ (/ y)); [by apply Qinv_lt_0_compat|].
      rewrite <- Qmult_assoc, Qmult_inv_r by lra. unfold Qdiv in H. lra. }
  assert (∀ c, x < c * y ↔ n # d < c) as Hdiv2.
  { intros c. rewrite Hnd. split; intros H.
    - apply Qlt_shift_div_r; done.
    - apply (Qmult_lt_r _ _ (/ y)); [by apply Qinv_lt_0_compat|].
      rewrite <- (Qmult_assoc c), Qmult_inv_r by lra. unfold Qdiv in H. lra. }
  destruct (Qle_bool (pow2 (a - b)) (n # d)) eqn:E.
  - apply Qle_bool_true in E. split; [done|]. apply Hdiv2. rewrite E5. nra.
  - apply Qle_bool_false in E. replace (a - b - 1 + 1)%Z with (a - b)%Z by lia.
    split; [|done]. apply Hdiv1. nra.
Qed.

Lemma pow2_lt_inv (a b : Z) : pow2 a < pow2 b → (a < b)%Z.
Proof. rewrite !pow2_Qpower. intros H. by apply Qpower_lt_compat_l_inv in H. Qed.

Lemma ilog2_unique (q : Q) (k : Z) : pow2 k <= q → q < pow2 (k + 1) → ilog2 q = k.
Proof.
  intros H1 H2. pose proof (pow2_pos k) as Hk.
  assert (0 < q) as Hq by lra.
  destruct (ilog2_spec q Hq) as [H3 H4].
  assert (pow2 k < pow2 (ilog2 q + 1)) as A by lra.
  assert (pow2 (ilog2 q) < pow2 (k + 1)) as B by lra.
  apply pow2_lt_inv in A, B. lia.
Qed.

Lemma ilog2_mono (p q : Q) : 0 < p → p <= q → (ilog2 p <= ilog2 q)%Z.
Proof.
  intros Hp Hpq. destruct (ilog2_spec p Hp) as [H1 H2].
  assert (0 < q) as Hq by lra.
  destruct (ilog2_spec q Hq) as [H3 H4].
  assert (pow2 (ilog2 p) < pow2 (ilog2 q + 1)) as A by lra.
  apply pow2_lt_inv in A. lia.
Qed.

Lemma ilog2_proper (p q : Q) : 0 < p → p == q → ilog2 p = ilog2 q.
Proof.
  intros Hp Hpq. destruct (ilog2_spec p Hp) as [H1 H2].
  symmetry. apply ilog2_unique; lra.
Qed.

Lemma round_even_bounds (q : Q) : (Qfloor q <= round_even q <= Qfloor q + 1)%Z.
Proof.
  unfold round_even. cbv zeta.
  destruct (Qltb _ _); [lia|]. destruct (Qltb _ _); [lia|]. destruct (Z.even _); lia.
Qed.

Lemma round_even_proper (p q : Q) : p == q → round_even p = round_even q.
Proof.
  intros H. unfold round_even. cbv zeta. rewrite (Qfloor_comp _ _ H).
  rewrite (Qltb_proper (p - inject_Z (Qfloor q)) (q - inject_Z (Qfloor q)) (1 # 2) (1 # 2))
    by (rewrite ?H; reflexivity).
  rewrite (Qltb_proper (1 # 2) (1 # 2) (p - inject_Z (Qfloor q)) (q - inject_Z (Qfloor q)))
    by (rewrite ?H; reflexivity).
  done.
Qed.

Lemma round_even_Z (n : Z) : round_even (inject_Z n) = n.
Proof.
  unfold round_even. cbv zeta. rewrite Qfloor_Z.
  assert (Qltb (inject_Z n - inject_Z n) (1 # 2) = true) as ->; [|done].
  apply Qltb_lt. lra.
Qed.

Lemma round_even_mono (p q : Q) : p <= q → (round_even p <= round_even q)%Z.
Proof.
  intros Hpq. pose proof (Qfloor_resp_le _ _ Hpq) as Hf.
  pose proof (round_even_bounds p) as Bp. pose proof (round_even_bounds q) as Bq.
  destruct (Z.eq_dec (Qfloor p) (Qfloor q)) as [E|E]; [|lia].
  unfold round_even in *. cbv zeta in *. rewrite E in *.
  set (f := Qfloor q) in *.
  destruct (Qltb (p - inject_Z f) (1 # 2)) eqn:P1.
  { destruct (Qltb (q - inject_Z f) (1 # 2)); [lia|].
    destruct (Qltb (1 # 2) (q - inject_Z f)); [lia|]. destruct (Z.even f); lia. }
  apply Qltb_ge in P1.
  assert (Qltb (q - inject_Z f) (1 # 2) = false) as -> by (apply Qltb_ge; lra).
  destruct (Qltb (1 # 2) (p - inject_Z f)) eqn:P2.
  { apply Qltb_lt in P2.
    assert (Qltb (1 # 2) (q - inject_Z f) = true) as -> by (apply Qltb_lt; lra). lia. }
  destruct (Qltb (1 # 2) (q - inject_Z f)); destruct (Z.even f); lia.
Qed.

Lemma round_even_close (q : Q) : Qabs (inject_Z (round_even q) - q) <= 1 # 2.
Proof.
  unfold round_even. cbv zeta.
  pose proof (Qfloor_le q) as Hlo. pose proof (Qlt_floor q) as Hhi.
  rewrite inject_Z_plus in Hhi. change (inject_Z 1) with 1 in Hhi.
  apply Qabs_Qle_condition.
  destruct (Qltb _ _) eqn:E1.
  { apply Qltb_lt in E1. split; lra. }
  apply Qltb_ge in E1.
  assert (inject_Z (Qfloor q + 1) == inject_Z (Qfloor q) + 1) as Hp1.
  { by rewrite inject_Z_plus. }
  destruct (Qltb _ _) eqn:E2.
  { rewrite Hp1. split; lra. }
  apply Qltb_ge in E2. destruct (Z.even _); rewrite ?Hp1; split; lra.
Qed.

(** The exponent of the last place and the significand that
    [round64_pos] uses. *)
Lemma round64_pos_exponent (q : Q) :
  0 < q →
  let e := Z.max (ilog2 q - 52) (-1074) in
  (0 <= round_even (q / pow2 e) <= 2 ^ 53)%Z ∧
  ((-1074 < e)%Z → (2 ^ 52 <= round_even (q / pow2 e))%Z).
Proof.
  intros Hq e. pose proof (pow2_pos e) as He.
  destruct (ilog2_spec q Hq) as [H1 H2].
  assert (0 <= q / pow2 e) as Hnn.
  { apply Qle_shift_div_l; [done|]. lra. }
  assert (q / pow2 e <= inject_Z (2 ^ 53)) as Hup.
  { apply Qle_shift_div_r; [done|]. rewrite <- pow2_inject by lia.
    rewrite <- pow2_add.
    assert (pow2 (ilog2 q + 1) <= pow2 (53 + e)) by (apply pow2_le; lia). lra. }
  split.
  - split.
    + rewrite <- (round_even_Z 0). by apply round_even_mono.
    + rewrite <- (round_even_Z (2 ^ 53)). by apply round_even_mono.
  - intros Hsub. rewrite <- (round_even_Z (2 ^ 52)). apply round_even_mono.
    apply Qle_shift_div_l; [done|]. rewrite <- pow2_inject by lia.
    rewrite <- pow2_add. replace (52 + e)%Z with (ilog2 q) by lia. done.
Qed.

Lemma num_le_round64_pos (p q : Q) :
  0 < p → p <= q → num_le (round64_pos p) (round64_pos q).
Proof.
  intros Hp Hpq. assert (0 < q) as Hq by lra.
  pose proof (ilog2_mono p q Hp Hpq) as Hlog.
  pose proof (round64_pos_exponent p Hp) as [[Bp0 Bp] _].
  pose proof (round64_pos_exponent q Hq) as [_ Bq].
  unfold round64_pos. cbv zeta in *.
  set (e1 := Z.max (ilog2 p - 52) (-1074)) in *.
  set (e2 := Z.max (ilog2 q - 52) (-1074)) in *.
  pose proof (pow2_pos e1) as P1. pose proof (pow2_pos e2) as P2.
  assert (inject_Z (round_even (p / pow2 e1)) * pow2 e1
          <= inject_Z (round_even (q / pow2 e2)) * pow2 e2) as Hv.
  { destruct (Z.eq_dec e1 e2) as [E|E].
    - rewrite <- E. apply Qmult_le_compat_r; [|lra]. rewrite <- Zle_Qle.
      apply round_even_mono. apply Qmult_le_compat_r; [done|].
      apply Qlt_le_weak, Qinv_lt_0_compat. done.
    - assert (e1 < e2)%Z as Hlt by lia. specialize (Bq ltac:(lia)).
      apply Qle_trans with (pow2 (53 + e1)).
      + rewrite pow2_add. change (pow2 53) with (inject_Z (2 ^ 53)).
        apply Qmult_le_compat_r; [|lra]. by rewrite <- Zle_Qle.
      + apply Qle_trans with (pow2 (52 + e2)); [apply pow2_le; lia|].
        rewrite pow2_add. change (pow2 52) with (inject_Z (2 ^ 52)).
        apply Qmult_le_compat_r; [|lra]. by rewrite <- Zle_Qle. }
  destruct (Qle_bool (pow2 1024) (inject_Z (round_even (p / pow2 e1)) * pow2 e1)) eqn:E1.
  - apply Qle_bool_true in E1.
    assert (Qle_bool (pow2 1024) (inject_Z (round_even (q / pow2 e2)) * pow2 e2) = true)
      as ->; [|done].
    apply Qle_bool_true. lra.
  - destruct (Qle_bool (pow2 1024) (inject_Z (round_even (q / pow2 e2)) * pow2 e2)); [done|].
    unfold num_le. by rewrite !Qred_correct.
Qed.

Lemma round64_pos_nn (q : Q) : 0 < q → nn (round64_pos q).
Proof.
  intros Hq. pose proof (round64_pos_exponent q Hq) as [[B0 _] _].
  unfold round64_pos. cbv zeta in *. destruct (Qle_bool _ _); [done|].
  unfold nn, num_le. rewrite Qred_correct. apply Qmult_le_0_compat.
  - by rewrite Zle_Qle in B0.
  - apply Qlt_le_weak, pow2_pos.
Qed.

Lemma round64_cases (q : Q) :
  (q == 0 ∧ round64 q = Fin 0) ∨
  (0 < q ∧ round64 q = round64_pos q) ∨
  (q < 0 ∧ round64 q = fneg (round64_pos (- q))).
Proof.
  unfold round64. destruct (Qeq_bool q 0) eqn:E0.
  { left. split; [by apply Qeq_bool_iff|done]. }
  apply Qeq_bool_neq in E0. destruct (Qltb 0 q) eqn:E1.
  { right. left. split; [by apply Qltb_lt|done]. }
  apply Qltb_ge in E1. right. right. split; [|done].
  apply Qle_lteq in E1 as [H|H]; [done|]. by destruct E0.
Qed.

Lemma fneg_anti (a b : num) : num_le a b → num_le (fneg b) (fneg a).
Proof. destruct a, b; simpl; try done. intros H. lra. Qed.

Lemma fneg_nn (a : num) : nn a → num_le (fneg a) (Fin 0).
Proof. unfold nn. destruct a; simpl; try done. intros H. lra. Qed.

Lemma round64_mono (p q : Q) : p <= q → num_le (round64 p) (round64 q).
Proof.
  intros Hpq.
  destruct (round64_cases p) as [[Hp ->]|[[Hp ->]|[Hp ->]]];
    destruct (round64_cases q) as [[Hq ->]|[[Hq ->]|[Hq ->]]]; try lra.
  - simpl. lra.
  - by apply round64_pos_nn.
  - by apply num_le_round64_pos.
  - apply (fneg_nn (round64_pos (- p))). apply round64_pos_nn. lra.
  - apply num_le_trans with (Fin 0).
    + apply (fneg_nn (round64_pos (- p))). apply round64_pos_nn. lra.
    + by apply round64_pos_nn.
  - apply fneg_anti. apply num_le_round64_pos; lra.
Qed.

Lemma round64_pos_proper (p q : Q) :
  0 < p → p == q → num_eq (round64_pos p) (round64_pos q).
Proof.
  intros Hp Hpq. apply num_le_antisym; apply num_le_round64_pos; lra.
Qed.

(** A number with a significand of at most 53 bits and an exponent in
    the range of binary64 is rounded to itself. *)
Lemma round64_pos_fixed (m e : Z) :
  (0 < m <= 2 ^ 53)%Z → (-1074 <= e)%Z → inject_Z m * pow2 e < pow2 1024 →
  num_eq (round64_pos (inject_Z m * pow2 e)) (Fin (inject_Z m * pow2 e)).
Proof.
  intros [Hm0 Hm] He Hlt. set (r := inject_Z m * pow2 e) in *.
  pose proof (pow2_pos e) as Pe.
  assert (0 < inject_Z m) as Hmq by (by rewrite (Zlt_Qlt 0 m) in Hm0).
  assert (0 < r) as Hr by (unfold r; nra).
  destruct (ilog2_spec r Hr) as [L1 L2].
  set (e' := Z.max (ilog2 r - 52) (-1074)).
  pose proof (pow2_pos e') as Pe'.
  assert (∃ z, inject_Z z * pow2 e' == r) as [z Hz].
  { destruct (Z.eq_dec m (2 ^ 53)%Z) as [->|Hne].
    - assert (r == pow2 (53 + e)) as Hr53.
      { unfold r. rewrite pow2_add. by change (pow2 53) with (inject_Z (2 ^ 53)). }
      assert (ilog2 r = (53 + e)%Z) as Hlog.
      { apply ilog2_unique; [lra|]. rewrite Hr53. apply pow2_lt. lia. }
      exists (2 ^ 52)%Z. unfold e'. rewrite Hlog.
      replace (Z.max (53 + e - 52) (-1074)) with (1 + e)%Z by lia.
      rewrite Hr53. change (inject_Z (2 ^ 52)) with (pow2 52).
      rewrite <- pow2_add. by replace (52 + (1 + e))%Z with (53 + e)%Z by lia.
    - assert (m <= 2 ^ 53 - 1)%Z as Hm' by lia.
      assert (r < pow2 (53 + e)) as Hr53.
      { unfold r. rewrite pow2_add. change (pow2 53) with (inject_Z (2 ^ 53)).
        apply Qmult_lt_compat_r; [done|]. rewrite <- Zlt_Qlt. lia. }
      assert (pow2 (ilog2 r) < pow2 (53 + e)) as Hl by lra.
      apply pow2_lt_inv in Hl.
      assert (e' <= e)%Z as Hle by (unfold e'; lia).
      exists (m * 2 ^ (e - e'))%Z. rewrite inject_Z_mult.
      rewrite <- (pow2_inject (e - e')) by lia. unfold r.
      rewrite <- Qmult_assoc, <- pow2_add.
      by replace (e - e' + e')%Z with e by lia. }
  unfold round64_pos. cbv zeta. fold e'.
  assert (r / pow2 e' == inject_Z z) as Hdiv.
  { rewrite <- Hz. field. lra. }
  rewrite (round_even_proper _ _ Hdiv), round_even_Z.
  destruct (Qle_bool (pow2 1024) (inject_Z z * pow2 e')) eqn:E.
  { apply Qle_bool_true in E. lra. }
  unfold num_eq. by rewrite Qred_correct.
Qed.

Lemma round64_pos_idem (p r : Q) :
  0 < p → round64_pos p = Fin r →
  r == 0 ∨ (0 < r ∧ num_eq (round64_pos r) (Fin r)).
Proof.
  intros Hp Hr. pose proof (round64_pos_exponent p Hp) as [[B0 B1] _].
  unfold round64_pos in Hr. cbv zeta in *.
  set (e := Z.max (ilog2 p - 52) (-1074)) in *.
  set (m := round_even (p / pow2 e)) in *.
  destruct (Qle_bool (pow2 1024) (inject_Z m * pow2 e)) eqn:E; [done|].
  apply Qle_bool_false in E. injection Hr as <-.
  pose proof (pow2_pos e) as Pe.
  destruct (Z.eq_dec m 0%Z) as [->|Hne].
  { left. rewrite Qred_correct. change (inject_Z 0) with 0. ring. }
  right. assert (0 < inject_Z m) as Hmq.
  { assert (0 < m)%Z as H by lia. by rewrite (Zlt_Qlt 0 m) in H. }
  assert (0 < inject_Z m * pow2 e) as Hpos by nra.
  split; [by rewrite Qred_correct|].
  apply num_eq_trans with (round64_pos (inject_Z m * pow2 e)).
  - apply round64_pos_proper; [by rewrite Qred_correct|apply Qred_correct].
  - apply num_eq_trans with (Fin (inject_Z m * pow2 e)).
    + apply round64_pos_fixed; [lia|unfold e; lia|done].
    + unfold num_eq. by rewrite Qred_correct.
Qed.

Lemma round64_zero (q : Q) : q == 0 → round64 q = Fin 0.
Proof. intros H. destruct (round64_cases q) as [[_ ?]|[[? _]|[? _]]]; [done|lra|lra]. Qed.

Lemma round64_pos_case (q : Q) : 0 < q → round64 q = round64_pos q.
Proof. intros H. destruct (round64_cases q) as [[? _]|[[_ ?]|[? _]]]; [lra|done|lra]. Qed.

Lemma round64_neg_case (q : Q) : q < 0 → round64 q = fneg (round64_pos (- q)).
Proof. intros H. destruct (round64_cases q) as [[? _]|[[? _]|[_ ?]]]; [lra|lra|done]. Qed.

Lemma fneg_proper (a b : num) : num_eq a b → num_eq (fneg a) (fneg b).
Proof. destruct a, b; simpl; try done. intros H. by rewrite H. Qed.

Lemma fneg_involutive (a : num) : num_eq (fneg (fneg a)) a.
Proof. destruct a; simpl; try done. ring. Qed.

Lemma round64_idem (p r : Q) : round64 p = Fin r → num_eq (round64 r) (Fin r).
Proof.
  intros Hr. destruct (round64_cases p) as [[Hp E]|[[Hp E]|[Hp E]]]; rewrite E in Hr.
  - injection Hr as <-. done.
  - destruct (round64_pos_idem p r Hp Hr) as [H0|[Hpos Hid]].
    + rewrite (round64_zero r H0). simpl. by rewrite H0.
    + by rewrite (round64_pos_case r Hpos).
  - destruct (round64_pos (- p)) as [| | |v] eqn:Ev; try done.
    injection Hr as <-.
    destruct (round64_pos_idem (- p) v ltac:(lra) Ev) as [H0|[Hpos Hid]].
    + rewrite (round64_zero (- v)) by lra. simpl. lra.
    + rewrite (round64_neg_case (- v)) by lra.
      change (Fin (- v)) with (fneg (Fin v)). apply fneg_proper.
      apply num_eq_trans with (round64_pos v); [|done].
      apply round64_pos_proper; [lra|ring].
Qed.

(** The rounding of binary64 obeys the laws of [rounding]. *)
Lemma round64_rounding : rounding round64.
Proof.
  split.
  - apply round64_mono.
  - by rewrite round64_zero.
  - apply round64_idem.
Qed.

Lemma round64_odd : odd_rounding round64.
Proof.
  intros q. destruct (round64_cases q) as [[Hq E]|[[Hq E]|[Hq E]]]; rewrite E.
  - rewrite round64_zero by lra. simpl. lra.
  - rewrite round64_neg_case by lra. apply fneg_proper.
    apply round64_pos_proper; [lra|ring].
  - rewrite round64_pos_case by lra. apply num_eq_sym, fneg_involutive.
Qed.

(** A significand of at most 53 bits, of either sign. *)
Lemma round64_fixed (m e : Z) :
  (- 2 ^ 53 <= m <= 2 ^ 53)%Z → (-1074 <= e)%Z → (e <= 970)%Z →
  num_eq (round64 (inject_Z m * pow2 e)) (Fin (inject_Z m * pow2 e)).
Proof.
  intros Hm He1 He2. pose proof (pow2_pos e) as Pe.
  assert (∀ k, (0 < k <= 2 ^ 53)%Z → inject_Z k * pow2 e < pow2 1024) as Hbig.
  { intros k [Hk0 Hk]. apply Qle_lt_trans with (pow2 (53 + e)); [|apply pow2_lt; lia].
    rewrite pow2_add. change (pow2 53) with (inject_Z (2 ^ 53)).
    apply Qmult_le_compat_r; [|lra]. by rewrite <- Zle_Qle. }
  destruct (Z.lt_trichotomy m 0%Z) as [Hneg|[->|Hpos]].
  - assert (inject_Z m < 0) as Hmq by (by rewrite (Zlt_Qlt m 0) in Hneg).
    rewrite round64_neg_case by nra.
    assert (- (inject_Z m * pow2 e) == inject_Z (- m) * pow2 e) as Hopp.
    { rewrite inject_Z_opp. ring. }
    apply num_eq_trans with (fneg (Fin (inject_Z (- m) * pow2 e))).
    + apply fneg_proper.
      apply num_eq_trans with (round64_pos (inject_Z (- m) * pow2 e)).
      * apply round64_pos_proper; [nra|done].
      * apply round64_pos_fixed; [lia|done|apply Hbig; lia].
    + simpl. rewrite <- Hopp. ring.
  - rewrite round64_zero; [simpl|]; change (inject_Z 0) with 0; ring.
  - assert (0 < inject_Z m) as Hmq by (by rewrite (Zlt_Qlt 0 m) in Hpos).
    rewrite round64_pos_case by nra.
    apply round64_pos_fixed; [lia|done|apply Hbig; lia].
Qed.

Lemma round64_close : close_rounding round64.
Proof.
  intros q Hq. apply Qabs_Qle_condition in Hq as [Hq1 Hq2].
  set (z := Qfloor (q * 1024)).
  pose proof (Qfloor_le (q * 1024)) as Hlo. pose proof (Qlt_floor (q * 1024)) as Hhi.
  fold z in Hlo, Hhi. rewrite inject_Z_plus in Hhi. change (inject_Z 1) with 1 in Hhi.
  assert (- 2 ^ 30 <= z <= 2 ^ 30)%Z as Hz.
  { split.
    - assert (inject_Z (- 2 ^ 30 - 1) < inject_Z z) as H.
      { change (inject_Z (- 2 ^ 30 - 1)) with (- (1073741825 # 1)).
        change (inject_Z (2 ^ 20)) with (1048576 # 1) in Hq1. lra. }
      rewrite <- Zlt_Qlt in H. lia.
    - assert (inject_Z z <= inject_Z (2 ^ 30)) as H.
      { change (inject_Z (2 ^ 30)) with (1073741824 # 1).
        change (inject_Z (2 ^ 20)) with (1048576 # 1) in Hq2. lra. }
      by rewrite <- Zle_Qle in H. }
  assert (pow2 (-10) == 1 # 1024) as Hp by reflexivity.
  pose proof (round64_fixed z (-10) ltac:(lia) ltac:(lia) ltac:(lia)) as F1.
  pose proof (round64_fixed (z + 1) (-10) ltac:(lia) ltac:(lia) ltac:(lia)) as F2.
  assert (inject_Z z * pow2 (-10) <= q) as L1 by (rewrite Hp; lra).
  assert (q <= inject_Z (z + 1) * pow2 (-10)) as L2.
  { rewrite Hp, inject_Z_plus. change (inject_Z 1) with 1. lra. }
  pose proof (round64_mono _ _ L1) as M1. pose proof (round64_mono _ _ L2) as M2.
  apply (num_le_eq_l _ _ _ F1) in M1. apply (num_le_eq_r _ _ _ F2) in M2.
  destruct (round64 q) as [| | |r]; try done. exists r. split; [done|].
  simpl in M1, M2. rewrite Hp in M1, M2. rewrite inject_Z_plus in M2.
  change (inject_Z 1) with 1 in M2. apply Qabs_Qle_condition. split; lra.
Qed.

Lemma exact_close : close_rounding exact.
Proof.
  intros q _. exists q. split; [done|]. apply Qabs_Qle_condition. split; lra.
Qed.

(** *** [round64] rounds to the nearest double *)

Lemma round_even_nearest (x : Q) (k : Z) :
  Qabs (inject_Z (round_even x) - x) <= Qabs (inject_Z k - x).
Proof.
  pose proof (round_even_close x) as Hc.
  destruct (Z.eq_dec k (round_even x)) as [->|Hne]; [lra|].
  apply Qle_trans with (1 # 2); [done|].
  apply Qabs_Qle_condition in Hc as [H1 H2].
  destruct (Z.lt_ge_cases k (round_even x)) as [Hlt|Hge].
  - assert (inject_Z k + 1 <= inject_Z (round_even x)) as Hk.
    { change 1 with (inject_Z 1). rewrite <- inject_Z_plus, <- Zle_Qle. lia. }
    rewrite Qabs_Qminus. eapply Qle_trans; [|apply Qle_Qabs]. lra.
  - assert (inject_Z (round_even x) + 1 <= inject_Z k) as Hk.
    { change 1 with (inject_Z 1). rewrite <- inject_Z_plus, <- Zle_Qle. lia. }
    eapply Qle_trans; [|apply Qle_Qabs]. lra.
Qed.

Lemma Qabs_scale (a b s : Q) : 0 < s → Qabs (a * s - b * s) == Qabs (a - b) * s.
Proof.
  intros Hs. assert (a * s - b * s == (a - b) * s) as -> by ring.
  rewrite Qabs_Qmult, (Qabs_pos s); [reflexivity|lra].
Qed.

Lemma is_double_opp (d : Q) : is_double d → is_double (- d).
Proof.
  intros (m & e & Hm & He & Hd). exists (- m)%Z, e. split; [lia|]. split; [done|].
  rewrite Hd, inject_Z_opp. ring.
Qed.

Lemma is_double_proper (d d' : Q) : d == d' → is_double d → is_double d'.
Proof. intros H (m & e & Hm & He & Hd). exists m, e. by rewrite <- H. Qed.

Lemma round64_pos_nearest (q r : Q) :
  0 < q → round64_pos q = Fin r →
  is_double r ∧ ∀ d, is_double d → Qabs (r - q) <= Qabs (d - q).
Proof.
  intros Hq Hr. pose proof (round64_pos_exponent q Hq) as [[B0 B1] B2].
  destruct (ilog2_spec q Hq) as [L1 L2].
  unfold round64_pos in Hr. cbv zeta in *.
  set (e := Z.max (ilog2 q - 52) (-1074)) in *.
  set (x := q / pow2 e) in *. set (m := round_even x) in *.
  pose proof (pow2_pos e) as Pe.
  destruct (Qle_bool (pow2 1024) (inject_Z m * pow2 e)) eqn:E; [done|].
  apply Qle_bool_false in E. injection Hr as <-.
  assert (q == x * pow2 e) as Hqx by (unfold x; field; lra).
  assert (∀ k : Z, Qabs (inject_Z m * pow2 e - q) <= Qabs (inject_Z k * pow2 e - q)) as Hgrid.
  { intros k. rewrite Hqx, !Qabs_scale by done.
    apply Qmult_le_compat_r; [apply round_even_nearest|lra]. }
  split.
  - apply is_double_proper with (inject_Z m * pow2 e); [symmetry; apply Qred_correct|].
    destruct (Z.eq_dec m (2 ^ 53)%Z) as [Hm|Hm].
    + exists (2 ^ 52)%Z, (e + 1)%Z. split; [lia|]. split.
      * split; [unfold e; lia|].
        assert (pow2 (53 + e) < pow2 1024) as Hlt.
        { rewrite pow2_add. change (pow2 53) with (inject_Z (2 ^ 53)). by rewrite <- Hm. }
        apply pow2_lt_inv in Hlt. lia.
      * rewrite Hm. change (inject_Z (2 ^ 53)) with (pow2 53).
        change (inject_Z (2 ^ 52)) with (pow2 52). rewrite <- !pow2_add.
        by replace (52 + (e + 1))%Z with (53 + e)%Z by lia.
    + exists m, e. split; [lia|]. split; [|reflexivity].
      split; [unfold e; lia|].
      destruct (Z.eq_dec e (-1074)%Z) as [Hsub|Hsub]; [lia|].
      assert (2 ^ 52 <= m)%Z as Hm52 by (apply B2; unfold e in *; lia).
      assert (pow2 (52 + e) < pow2 1024) as Hlt.
      { eapply Qle_lt_trans; [|exact E]. rewrite pow2_add.
        change (pow2 52) with (inject_Z (2 ^ 52)).
        apply Qmult_le_compat_r; [|lra]. by rewrite <- Zle_Qle. }
      apply pow2_lt_inv in Hlt. lia.
  - intros d (m' & e' & Hm' & He' & Hd). rewrite Qred_correct.
    destruct (Z.le_gt_cases e e') as [Hle|Hgt].
    + assert (d == inject_Z (m' * 2 ^ (e' - e)) * pow2 e) as Hdk.
      { rewrite Hd, inject_Z_mult, <- (pow2_inject (e' - e)) by lia.
        rewrite <- Qmult_assoc, <- pow2_add. by replace (e' - e + e)%Z with e' by lia. }
      rewrite Hdk. apply Hgrid.
    + assert (e = ilog2 q - 52)%Z as He by (unfold e in *; lia).
      assert (pow2 (52 + e) <= q) as Hlow.
      { by replace (52 + e)%Z with (ilog2 q) by lia. }
      assert (d <= pow2 (52 + e)) as Hd52.
      { rewrite Hd. pose proof (pow2_pos e') as Pe'.
        apply Qle_trans with (inject_Z (2 ^ 53) * pow2 e').
        - apply Qmult_le_compat_r; [|lra]. rewrite <- Zle_Qle. lia.
        - change (inject_Z (2 ^ 53)) with (pow2 53). rewrite <- pow2_add.
          apply pow2_le. lia. }
      apply Qle_trans with (Qabs (inject_Z (2 ^ 52) * pow2 e - q)); [apply Hgrid|].
      change (inject_Z (2 ^ 52)) with (pow2 52). rewrite <- pow2_add.
      rewrite !(Qabs_Qminus _ q), !Qabs_pos by lra. lra.
Qed.

(** [round64] gives a double nearest to its argument. *)
Lemma round64_nearest (q r : Q) :
  round64 q = Fin r →
  is_double r ∧ ∀ d, is_double d → Qabs (r - q) <= Qabs (d - q).
Proof.
  intros Hr. destruct (round64_cases q) as [[Hq E]|[[Hq E]|[Hq E]]]; rewrite E in Hr.
  - injection Hr as <-. split.
    + exists 0%Z, 0%Z. split; [done|]. split; [lia|]. reflexivity.
    + intros d _. rewrite Hq. assert (0 - 0 == 0) as -> by ring. apply Qabs_nonneg.
  - by apply round64_pos_nearest.
  - destruct (round64_pos (- q)) as [| | |v] eqn:Ev; try done. injection Hr as <-.
    destruct (round64_pos_nearest (- q) v ltac:(lra) Ev) as [Hd Hn]. split.
    + by apply is_double_opp.
    + intros d Hdd. specialize (Hn (- d) (is_double_opp d Hdd)).
      assert (- v - q == - (v - - q)) as -> by ring.
      assert (d - q == - (- d - - q)) as -> by ring.
      by rewrite !Qabs_opp.
Qed.

(** [round64] overflows exactly from the middle between the largest
    double and [2 ^ 1024] on. *)
Lemma round64_overflow (q : Q) :
  round64 q = PInf ↔ pow2 1024 - pow2 970 <= q.
Proof.
  assert (pow2 1024 == pow2 53 * pow2 971) as E1024 by (by rewrite <- pow2_add).
  assert (pow2 970 == (1 # 2) * pow2 971) as E970.
  { replace 970%Z with (-1 + 971)%Z by lia. by rewrite pow2_add. }
  pose proof (pow2_pos 971) as P971.
  split.
  - intros Hr. destruct (round64_cases q) as [[Hq E]|[[Hq E]|[Hq E]]]; rewrite E in Hr.
    + done.
    + pose proof (round64_pos_exponent q Hq) as [[B0 B1] _].
      destruct (ilog2_spec q Hq) as [L1 L2].
      unfold round64_pos in Hr. cbv zeta in *.
      set (e := Z.max (ilog2 q - 52) (-1074)) in *.
      pose proof (pow2_pos e) as Pe.
      destruct (Qle_bool _ _) eqn:Ele; [|done]. apply Qle_bool_true in Ele.
      destruct (Z.le_gt_cases 1024 (ilog2 q)) as [Hbig|Hsmall].
      { assert (pow2 1024 <= pow2 (ilog2 q)) by (by apply pow2_le).
        pose proof (pow2_pos 970). lra. }
      assert (pow2 1024 <= pow2 (53 + e)) as Hle.
      { eapply Qle_trans; [exact Ele|]. rewrite pow2_add.
        change (pow2 53) with (inject_Z (2 ^ 53)).
        apply Qmult_le_compat_r; [|lra]. by rewrite <- Zle_Qle. }
      rewrite !pow2_Qpower in Hle. apply Qpower_le_compat_l_inv in Hle; [|done].
      assert (e = 971)%Z as He by (unfold e in *; lia). rewrite He in *.
      pose proof (round_even_close (q / pow2 971)) as Hc.
      apply Qabs_Qle_condition in Hc as [Hc1 Hc2].
      assert (inject_Z (2 ^ 53) <= inject_Z (round_even (q / pow2 971))) as Hm.
      { apply (Qmult_le_r _ _ (pow2 971)); [done|].
        change (inject_Z (2 ^ 53)) with (pow2 53). by rewrite <- E1024. }
      assert (q == q / pow2 971 * pow2 971) as Hqx by (field; lra).
      rewrite Hqx, E1024, E970. change (pow2 53) with (inject_Z (2 ^ 53)). nra.
    + pose proof (round64_pos_nn (- q) ltac:(lra)) as Hnn.
      destruct (round64_pos (- q)); done.
  - intros Hq. pose proof (pow2_pos 970) as P970.
    assert (pow2 1024 == 2 * pow2 1023) as E1023.
    { replace 1024%Z with (1 + 1023)%Z by lia. by rewrite pow2_add. }
    assert (pow2 1023 == pow2 52 * pow2 971) as E1023'.
    { by rewrite <- pow2_add. }
    assert (pow2 52 == inject_Z (2 ^ 52)) as E52 by reflexivity.
    pose proof (pow2_pos 1023) as P1023.
    assert (inject_Z (2 ^ 52) == 4503599627370496) as V52 by reflexivity.
    assert (pow2 1023 <= q) as H1023 by nra.
    assert (0 < q) as Hpos by lra.
    rewrite (round64_pos_case q Hpos).
    pose proof (round64_pos_exponent q Hpos) as [[B0 B1] _].
    destruct (ilog2_spec q Hpos) as [L1 L2].
    unfold round64_pos. cbv zeta in *.
    set (e := Z.max (ilog2 q - 52) (-1074)) in *.
    pose proof (pow2_pos e) as Pe.
    assert (Qle_bool (pow2 1024) (inject_Z (round_even (q / pow2 e)) * pow2 e) = true)
      as ->; [|done].
    apply Qle_bool_true.
    assert (1023 <= ilog2 q)%Z as Hlog.
    { assert (pow2 1023 < pow2 (ilog2 q + 1)) as H by lra. apply pow2_lt_inv in H. lia. }
    destruct (Z.eq_dec (ilog2 q) 1023%Z) as [Heq|Hne].
    + assert (e = 971)%Z as He by (unfold e; lia). rewrite He in *.
      assert (inject_Z (2 ^ 53) - (1 # 2) <= q / pow2 971) as Hx.
      { apply Qle_shift_div_l; [done|]. change (inject_Z (2 ^ 53)) with (pow2 53).
        rewrite E1024, E970 in Hq. lra. }
      assert (2 ^ 53 <= round_even (q / pow2 971))%Z as Hm.
      { pose proof (round_even_mono _ _ Hx) as Hmono.
        assert (round_even (inject_Z (2 ^ 53) - (1 # 2)) = 2 ^ 53)%Z as Hre by (by vm_compute).
        lia. }
      rewrite E1024. change (pow2 53) with (inject_Z (2 ^ 53)).
      apply Qmult_le_compat_r; [|lra]. by rewrite <- Zle_Qle.
    + pose proof (round64_pos_exponent q Hpos) as [_ B2]. cbv zeta in B2. fold e in B2.
      specialize (B2 ltac:(unfold e; lia)).
      apply Qle_trans with (pow2 (52 + e)); [apply pow2_le; unfold e; lia|].
      rewrite pow2_add. change (pow2 52) with (inject_Z (2 ^ 52)).
      apply Qmult_le_compat_r; [|lra]. by rewrite <- Zle_Qle.
Qed.

(** ** Outcomes and sets *)

Lemma bind_Ret {A B : Type} (m : outcome A) (k : A → outcome B) (b : B) :
  m ≫= k = Ret b → ∃ a, m = Ret a ∧ k a = Ret b.
Proof. destruct m; simpl; intros H; try discriminate. eauto. Qed.

Lemma foldM_app {A B : Type} (f : A → B → outcome A) (l1 l2 : list B) (a : A) :
  foldM f (l1 ++ l2) a = foldM f l1 a ≫= foldM f l2.
Proof.
  revert a. induction l1 as [|b l1 IH]; intros a; simpl; [done|].
  destruct (f a b); simpl; auto.
Qed.

(** An invariant of the turns of a monadic fold holds of its result. *)
Lemma foldM_inv {A B : Type} (f : A → B → outcome A) (P : A → Prop) (l : list B) :
  (∀ a b a', b ∈ l → P a → f a b = Ret a' → P a') →
  ∀ a a', P a → foldM f l a = Ret a' → P a'.
Proof.
  induction l as [|b l IH]; intros Hstep a a' Ha Hf; simpl in Hf.
  - injection Hf as <-. done.
  - apply bind_Ret in Hf as (a1 & H1 & H2).
    eapply IH; [| |exact H2].
    + intros ? ? ? Hin. apply Hstep. by right.
    + eapply Hstep; [|exact Ha|exact H1]. by left.
Qed.

Lemma elem_of_set_add (n m : nat) (s : list nat) :
  m ∈ set_add n s ↔ m = n ∨ m ∈ s.
Proof.
  unfold set_add. case_bool_decide as Hn.
  - split; [by right|]. intros [->|]; done.
  - rewrite elem_of_app, list_elem_of_singleton. tauto.
Qed.

Lemma elem_of_set_delete (n m : nat) (s : list nat) :
  m ∈ set_delete n s ↔ m ≠ n ∧ m ∈ s.
Proof.
  unfold set_delete. rewrite list_elem_of_In, filter_In, <- list_elem_of_In.
  rewrite negb_true_iff, Nat.eqb_neq. tauto.
Qed.

Lemma length_set_add (n : nat) (s : list nat) :
  (length (set_add n s) ≤ S (length s))%nat.
Proof.
  unfold set_add. case_bool_decide; [lia|]. rewrite length_app. simpl. lia.
Qed.

Lemma length_set_delete (n : nat) (s : list nat) :
  n ∈ s → (length (set_delete n s) < length s)%nat.
Proof.
  unfold set_delete. induction s as [|a s IH]; intros Hin.
  - by apply elem_of_nil in Hin.
  - simpl. destruct (Nat.eqb_spec a n) as [->|Hne]; simpl.
    + pose proof (List.filter_length_le (λ m, negb (m =? n)%nat) s). lia.
    + apply elem_of_cons in Hin as [?|Hin]; [congruence|].
      specialize (IH Hin). lia.
Qed.

Lemma joins_sym (u v : nat) (e : edge) : joins u v e = joins v u e.
Proof.
  unfold joins.
  destruct (from e =? u)%nat, (to e =? v)%nat, (to e =? u)%nat, (from e =? v)%nat; done.
Qed.

Lemma joins_ends (u v : nat) (e : edge) :
  joins u v e = true ↔ (from e = u ∧ to e = v) ∨ (to e = u ∧ from e = v).
Proof.
  unfold joins. rewrite orb_true_iff, !andb_true_iff, !Nat.eqb_eq. tauto.
Qed.

Lemma adjacent_sym (es : list edge) (u v : nat) : adjacent es u v → adjacent es v u.
Proof. intros (e & He & Hj). exists e. by rewrite joins_sym. Qed.

(** What the [filter] and [map] of [astar] compute: the other end of
    every edge that has [c] at one of its ends. *)
Lemma elem_of_neighbors (es : list edge) (c n : nat) :
  n ∈ neighbors es c ↔ adjacent es c n.
Proof.
  unfold neighbors, adjacent. rewrite list_elem_of_fmap. split.
  - intros (e & -> & He). exists e.
    apply list_elem_of_In, filter_In in He as [He Ht]. apply list_elem_of_In in He.
    split; [done|]. unfold touches in Ht. unfold joins, other_end.
    destruct (Nat.eqb_spec (from e) c) as [Hf|Hf]; simpl in *.
    + by rewrite Nat.eqb_refl.
    + by rewrite Ht, Nat.eqb_refl.
  - intros (e & He & Hj). exists e. split.
    + unfold other_end. apply joins_ends in Hj as [[<- <-]|[<- <-]].
      * by rewrite Nat.eqb_refl.
      * destruct (Nat.eqb_spec (from e) (to e)) as [Heq|]; congruence.
    + apply list_elem_of_In, filter_In. split; [by apply list_elem_of_In|].
      unfold touches. apply joins_ends in Hj as [[<- _]|[<- _]];
        rewrite Nat.eqb_refl; [done|by rewrite orb_true_r].
Qed.

Lemma find_edge_Some (es : list edge) (u v : nat) (e : edge) :
  find_edge es u v = Some e → e ∈ es ∧ joins u v e = true.
Proof.
  unfold find_edge. intros H. apply find_some in H as [H1 H2].
  by apply list_elem_of_In in H1.
Qed.

Lemma find_edge_adjacent (es : list edge) (u v : nat) :
  adjacent es u v → ∃ e, find_edge es u v = Some e.
Proof.
  intros (e & He & Hj). unfold find_edge.
  destruct (find (joins u v) es) eqn:E; [eauto|].
  apply list_elem_of_In in He. pose proof (find_none _ _ E _ He). congruence.
Qed.

Lemma find_edge_sym (es : list edge) (u v : nat) : find_edge es u v = find_edge es v u.
Proof.
  unfold find_edge. induction es as [|e es IH]; simpl; [done|].
  by rewrite joins_sym, IH.
Qed.

Lemma step_weight_sym (es : list edge) (u v : nat) : step_weight es u v = step_weight es v u.
Proof. unfold step_weight. by rewrite find_edge_sym. Qed.

Lemma step_weight_nn (g : graph) (u v : nat) :
  nonneg_weights g → nn (step_weight (edges g) u v).
Proof.
  intros Hnn. unfold step_weight. destruct (find_edge (edges g) u v) eqn:E.
  - apply find_edge_Some in E as [He _]. by apply Hnn.
  - unfold nn. simpl. lra.
Qed.

Lemma rcost_cons2 (rnd : Q → num) (es : list edge) (v u : nat) (rest : list nat) :
  rcost rnd es (v :: u :: rest)
  = fadd rnd (rcost rnd es (u :: rest)) (step_weight es u v).
Proof. done. Qed.

(** ** One turn of the [for] loop *)

Section PlannerFacts.

Variable rnd : Q → num.
Hypothesis Hrnd : rounding rnd.
Variable sqrt : Q → Q.
Variable g : graph.
Variables start goal : nat.

Lemma relax_not_out_of_fuel (cur : nat) (st : astar_state) (nb : nat) :
  relax rnd sqrt g goal cur st nb ≠ OutOfFuel.
Proof.
  unfold relax. destruct (find_edge (edges g) cur nb); [|done].
  destruct (_ || _); [|done].
  unfold heuristic_at. by destruct (nodes g !! nb), (nodes g !! goal).
Qed.

(** What a turn does, when the score of [current] is [gc]: [neighbor]
    is left alone when [gc] plus the hop is not below its score, and is
    improved to that sum otherwise. *)
Lemma relax_spec (cur : nat) (st : astar_state) (nb : nat) (st' : astar_state) (gc : num) :
  gScore st !! cur = Some gc →
  relax rnd sqrt g goal cur st nb = Ret st' →
  adjacent (edges g) cur nb ∧
  ((st' = st ∧
    ∃ y, gScore st !! nb = Some y ∧
         num_lt (fadd rnd gc (step_weight (edges g) cur nb)) y = false) ∨
   (∃ h, heuristic_at rnd sqrt (nodes g) nb goal = Ret h ∧
         st' = improved rnd st cur nb (fadd rnd gc (step_weight (edges g) cur nb)) h ∧
         (gScore st !! nb = None ∨
          ∃ y, gScore st !! nb = Some y ∧
               num_lt (fadd rnd gc (step_weight (edges g) cur nb)) y = true))).
Proof.
  intros Hgc. unfold relax, step_weight.
  destruct (find_edge (edges g) cur nb) as [e|] eqn:Ee; [|done].
  pose proof (find_edge_Some _ _ _ _ Ee) as [He Hj].
  rewrite Hgc. change (to_number (Some gc)) with gc. intros Hr. split; [by exists e|].
  destruct (gScore st !! nb) as [y|] eqn:Enb.
  - change (to_number (Some y)) with y in Hr.
    replace (bool_decide (is_Some (Some y))) with true in Hr
      by (symmetry; apply bool_decide_eq_true; eauto).
    cbn [negb orb] in Hr.
    destruct (num_lt (fadd rnd gc (weight e)) y) eqn:Elt.
    + right. apply bind_Ret in Hr as (h & Hh & Hr). injection Hr as <-.
      exists h. split; [done|]. split; [done|]. right. by exists y.
    + left. injection Hr as <-. split; [done|]. by exists y.
  - replace (bool_decide (is_Some (@None num))) with false in Hr
      by (symmetry; apply bool_decide_eq_false; by intros [? ?]).
    cbn [negb orb] in Hr.
    right. apply bind_Ret in Hr as (h & Hh & Hr). injection Hr as <-.
    exists h. split; [done|]. split; [done|]. by left.
Qed.

(** Without the goal or the neighbour in the node array the heuristic
    throws; otherwise a turn over a neighbour returns. *)
Lemma relax_returns (cur : nat) (st : astar_state) (nb : nat) :
  adjacent (edges g) cur nb →
  is_Some (nodes g !! nb) → is_Some (nodes g !! goal) →
  ∃ st', relax rnd sqrt g goal cur st nb = Ret st'.
Proof.
  intros Hadj [a Ha] [b Hb]. unfold relax.
  destruct (find_edge_adjacent _ _ _ Hadj) as [e ->].
  destruct (_ || _); [|eauto].
  unfold heuristic_at. rewrite Ha, Hb. simpl. eauto.
Qed.

(** *** Scores *)

(** An improvement never touches [start] nor [current]. *)
Lemma improved_neq (st : astar_state) (cur nb : nat) (gc : num) :
  nonneg_weights g →
  gScore st !! start = Some (Fin 0) → good rnd gc →
  gScore st !! cur = Some gc →
  (gScore st !! nb = None ∨
   ∃ y, gScore st !! nb = Some y ∧
        num_lt (fadd rnd gc (step_weight (edges g) cur nb)) y = true) →
  nb ≠ start ∧ nb ≠ cur.
Proof.
  intros Hnn Hst Hgc Hv Hnb.
  pose proof (step_weight_nn g cur nb Hnn) as Hw.
  split; intros ->; destruct Hnb as [Hn|(y & Hy & Hlt)]; try congruence.
  - rewrite Hst in Hy. injection Hy as <-.
    pose proof (fadd_nn rnd Hrnd _ _ (good_nn rnd _ Hgc) Hw) as Ht.
    by rewrite (num_le_lt_false _ _ Ht) in Hlt.
  - rewrite Hv in Hy. injection Hy as <-.
    by rewrite (num_le_lt_false _ _ (fadd_infl rnd Hrnd _ _ Hgc Hw)) in Hlt.
Qed.

Lemma scores_ok_relax (cur : nat) (st : astar_state) (nb : nat) (st' : astar_state) :
  nonneg_weights g →
  scores_ok rnd start st → is_Some (gScore st !! cur) →
  relax rnd sqrt g goal cur st nb = Ret st' →
  scores_ok rnd start st' ∧ gScore st' !! cur = gScore st !! cur.
Proof.
  intros Hnn (Hop & Hfin & Hst) [gc Hv] Hr.
  pose proof (Hfin _ _ Hv) as Hgc.
  destruct (relax_spec _ _ _ _ _ Hv Hr) as [Hadj [[-> _]|(h & _ & -> & Hnb)]];
    [done|].
  pose proof (step_weight_nn g cur nb Hnn) as Hw.
  destruct (improved_neq _ _ _ _ Hnn Hst Hgc Hv Hnb) as [Hns Hnc].
  split; [|simpl; by rewrite lookup_insert_ne].
  split; [|split]; simpl.
  - intros n Hn. apply elem_of_set_add in Hn as [->|Hn].
    + rewrite lookup_insert_eq. eauto.
    + destruct (decide (nb = n)) as [->|Hne].
      * rewrite lookup_insert_eq. eauto.
      * rewrite lookup_insert_ne by done. auto.
  - intros n v. destruct (decide (nb = n)) as [->|Hne].
    + rewrite lookup_insert_eq. intros [= <-].
      apply (fadd_good rnd Hrnd); [by apply (good_nn rnd)|done].
    + rewrite lookup_insert_ne by done. apply Hfin.
  - by rewrite lookup_insert_ne.
Qed.

(** A node that already has a score enters the open set again only
    with a strictly lower score. *)
Lemma relax_lowers_score (cur : nat) (st : astar_state) (nb : nat) (st' : astar_state)
    (y : num) :
  is_Some (gScore st !! cur) →
  relax rnd sqrt g goal cur st nb = Ret st' → st' ≠ st →
  gScore st !! nb = Some y →
  ∃ y', gScore st' !! nb = Some y' ∧ num_lt y' y = true ∧ nb ∈ openSet st'.
Proof.
  intros [gc Hv] Hr Hne Hy.
  destruct (relax_spec _ _ _ _ _ Hv Hr) as [Hadj [[-> _]|(h & _ & -> & Hnb)]];
    [done|].
  destruct Hnb as [Hn|(y0 & Hy0 & Hlt)]; [congruence|].
  rewrite Hy in Hy0. injection Hy0 as <-.
  eexists. simpl. rewrite lookup_insert_eq. split; [done|]. split; [done|].
  apply elem_of_set_add. by left.
Qed.

(** *** Walks *)

Lemma rcost_good (rp : list nat) : nonneg_weights g → good rnd (rcost rnd (edges g) rp).
Proof.
  intros Hnn. induction rp as [|v [|u rp] IH]; try apply (good_zero rnd Hrnd).
  rewrite rcost_cons2. apply (fadd_good rnd Hrnd); [by apply (good_nn rnd)|by apply step_weight_nn].
Qed.

Lemma rcost_suffix_le (s l : list nat) :
  nonneg_weights g → suffix s l →
  num_le (rcost rnd (edges g) s) (rcost rnd (edges g) l).
Proof.
  intros Hnn [k ->]. induction k as [|a k IH].
  - apply num_le_refl. apply nn_not_nan, (good_nn rnd), rcost_good, Hnn.
  - cbn [app]. destruct (k ++ s) as [|b r] eqn:E.
    + destruct s; [|by destruct k]. apply num_le_refl. done.
    + eapply num_le_trans; [exact IH|]. rewrite rcost_cons2.
      apply (fadd_infl rnd Hrnd); [by apply rcost_good|by apply step_weight_nn].
Qed.

Lemma adjacent_universe (u v : nat) : adjacent (edges g) u v → v ∈ universe (edges g) start.
Proof.
  intros (e & He & Hj). unfold universe. right.
  apply list_elem_of_In, in_flat_map. exists e.
  split; [by apply list_elem_of_In|].
  apply joins_ends in Hj as [[_ <-]|[_ <-]]; simpl; auto.
Qed.

Lemma walks_ok_relax (cur : nat) (st : astar_state) (nb : nat) (st' : astar_state) :
  nonneg_weights g →
  scores_ok rnd start st → is_Some (gScore st !! cur) →
  walks_ok rnd (edges g) start st →
  relax rnd sqrt g goal cur st nb = Ret st' →
  walks_ok rnd (edges g) start st'.
Proof.
  intros Hnn (Hop & Hfin & Hst) [gc Hv] Hw Hr.
  pose proof (Hfin _ _ Hv) as Hgc.
  destruct (relax_spec _ _ _ _ _ Hv Hr) as [Hadj [[-> _]|(h & _ & -> & Hnb)]];
    [done|].
  pose proof (step_weight_nn g cur nb Hnn) as Hsw.
  destruct (Hw _ _ Hv) as (rpc & Hnd & Hsub & Hcost & Hsuf).
  set (t := fadd rnd gc (step_weight (edges g) cur nb)) in *.
  assert (num_le gc t) as Hgt by (by apply (fadd_infl rnd Hrnd)).
  assert (nb ∉ cur :: rpc) as Hfresh.
  { intros Hin. apply list_elem_of_split in Hin as (l1 & l2 & Heq).
    destruct (Hsuf nb l2) as (y & Hy & Hle); [exists l1; by rewrite Heq|].
    destruct Hnb as [Hn|(y' & Hy' & Hlt)]; [congruence|].
    rewrite Hy in Hy'. injection Hy' as <-.
    assert (num_le (rcost rnd (edges g) (nb :: l2)) (rcost rnd (edges g) (cur :: rpc)))
      as Hs by (apply rcost_suffix_le; [done|]; exists l1; by rewrite Heq).
    rewrite Hcost in Hs.
    assert (num_le y t) as Hyt by (eauto using num_le_trans).
    by rewrite (num_le_lt_false _ _ Hyt) in Hlt. }
  (* scores only go down at [nb] *)
  assert (∀ m s y, gScore st !! m = Some y → num_le y (rcost rnd (edges g) (m :: s)) →
          ∃ y', gScore (improved rnd st cur nb t h) !! m = Some y' ∧
                num_le y' (rcost rnd (edges g) (m :: s))) as Hdown.
  { intros m s y Hy Hle. cbn [improved gScore]. destruct (decide (nb = m)) as [->|Hne].
    - rewrite lookup_insert_eq. eexists. split; [done|].
      destruct Hnb as [Hn|(y' & Hy' & Hlt)]; [congruence|].
      rewrite Hy in Hy'. injection Hy' as <-.
      eapply num_le_trans; [by apply num_lt_le|done].
    - rewrite lookup_insert_ne by done. eauto. }
  intros n v. cbn [improved gScore]. destruct (decide (nb = n)) as [->|Hne].
  - rewrite lookup_insert_eq. intros [= <-]. exists (cur :: rpc).
    split; [by constructor|]. split; [|split].
    + intros m Hm. apply elem_of_cons in Hm as [->|Hm]; [|by apply Hsub].
      by eapply adjacent_universe.
    + rewrite rcost_cons2. by rewrite Hcost.
    + intros m s Hs. apply suffix_cons_inv in Hs as [[= -> ->]|Hs].
      * eexists. rewrite lookup_insert_eq. split; [done|].
        rewrite rcost_cons2. rewrite Hcost. apply num_le_refl.
        apply nn_not_nan, (fadd_nn rnd Hrnd); [by apply (good_nn rnd)|done].
      * destruct (Hsuf _ _ Hs) as (y & Hy & Hle). by eapply Hdown.
  - rewrite lookup_insert_ne by done. intros Hq.
    destruct (Hw _ _ Hq) as (rp & Hnd' & Hsub' & Hcost' & Hsuf').
    exists rp. split; [done|]. split; [done|]. split; [done|].
    intros m s Hs. destruct (Hsuf' _ _ Hs) as (y & Hy & Hle). by eapply Hdown.
Qed.

(** *** The measure *)

Lemma elem_of_lists_upto (u l : list nat) (k : nat) :
  (∀ a, a ∈ l → a ∈ u) → (length l ≤ k)%nat → l ∈ lists_upto u k.
Proof.
  revert l. induction k as [|k IH]; intros l Hsub Hlen.
  - destruct l; [by left|simpl in Hlen; lia].
  - destruct l as [|a l]; [by left|]. simpl. right.
    apply list_elem_of_In, in_flat_map. exists l. split.
    + apply list_elem_of_In, IH; [|simpl in Hlen; lia].
      intros b Hb. apply Hsub. by right.
    + apply (in_map (λ b, b :: l)). apply list_elem_of_In, Hsub. by left.
Qed.

Lemma walk_cost_listed (st : astar_state) (n : nat) (v : num) :
  walks_ok rnd (edges g) start st → gScore st !! n = Some v →
  v ∈ walk_costs rnd (edges g) start.
Proof.
  intros Hw Hq. destruct (Hw _ _ Hq) as (rp & Hnd & Hsub & Hcost & _).
  unfold walk_costs. apply list_elem_of_fmap. exists (n :: rp). split; [done|].
  apply elem_of_lists_upto; [done|].
  apply NoDup_incl_length; [by apply NoDup_ListNoDup|].
  intros a Ha. apply list_elem_of_In, Hsub. by apply list_elem_of_In.
Qed.

Lemma filter_length_mono {A : Type} (P R : A → bool) (l : list A) :
  (∀ a, a ∈ l → P a = true → R a = true) →
  (length (List.filter P l) ≤ length (List.filter R l))%nat.
Proof.
  induction l as [|a l IH]; intros H; simpl; [lia|].
  assert (length (List.filter P l) ≤ length (List.filter R l))%nat as IH'.
  { apply IH. intros b Hb. apply H. by right. }
  destruct (P a) eqn:EP.
  - rewrite (H a) by (done || by left). simpl. lia.
  - destruct (R a); simpl; lia.
Qed.

Lemma filter_length_strict {A : Type} (P R : A → bool) (l : list A) (c : A) :
  (∀ a, a ∈ l → P a = true → R a = true) →
  c ∈ l → R c = true → P c = false →
  (length (List.filter P l) < length (List.filter R l))%nat.
Proof.
  induction l as [|a l IH]; intros H Hc HR HP; [by apply elem_of_nil in Hc|].
  assert (∀ b, b ∈ l → P b = true → R b = true) as H' by (intros b Hb; apply H; by right).
  pose proof (filter_length_mono P R l H') as Hm.
  simpl. apply elem_of_cons in Hc as [<-|Hc].
  - rewrite HR, HP. simpl. lia.
  - specialize (IH H' Hc HR HP). destruct (P a) eqn:EP.
    + rewrite (H a) by (done || by left). simpl. lia.
    + destruct (R a); simpl; lia.
Qed.

Lemma sum_list_map_le {A : Type} (f f' : A → nat) (u : list A) :
  (∀ a, a ∈ u → (f' a ≤ f a)%nat) →
  (sum_list (map f' u) ≤ sum_list (map f u))%nat.
Proof.
  induction u as [|a u IH]; intros H; simpl; [lia|].
  assert (f' a ≤ f a)%nat by (apply H; by left).
  assert (sum_list (map f' u) ≤ sum_list (map f u))%nat
    by (apply IH; intros b Hb; apply H; by right).
  lia.
Qed.

Lemma sum_list_map_lt {A : Type} (f f' : A → nat) (u : list A) (c : A) :
  (∀ a, a ∈ u → (f' a ≤ f a)%nat) → c ∈ u → (f' c < f c)%nat →
  (sum_list (map f' u) < sum_list (map f u))%nat.
Proof.
  induction u as [|a u IH]; intros H Hc Hlt; [by apply elem_of_nil in Hc|].
  assert (∀ b, b ∈ u → (f' b ≤ f b)%nat) as H' by (intros b Hb; apply H; by right).
  pose proof (sum_list_map_le f f' u H') as Hm.
  assert (f' a ≤ f a)%nat by (apply H; by left).
  simpl. apply elem_of_cons in Hc as [<-|Hc]; [lia|].
  specialize (IH H' Hc Hlt). lia.
Qed.

(** A turn that improves a node moves its score strictly down among the
    walk costs; the open set grows by one node at most. *)
Lemma measure_relax (cur : nat) (st : astar_state) (nb : nat) (st' : astar_state) :
  nonneg_weights g →
  scores_ok rnd start st → is_Some (gScore st !! cur) →
  walks_ok rnd (edges g) start st →
  relax rnd sqrt g goal cur st nb = Ret st' →
  (measure rnd (edges g) start st' ≤ measure rnd (edges g) start st)%nat.
Proof.
  intros Hnn Hsc Hcur Hw Hr.
  pose proof (walks_ok_relax _ _ _ _ Hnn Hsc Hcur Hw Hr) as Hw'.
  destruct Hsc as (Hop & Hfin & Hst). destruct Hcur as [gc Hv].
  destruct (relax_spec _ _ _ _ _ Hv Hr) as [Hadj [[-> _]|(h & _ & -> & Hnb)]];
    [done|].
  set (t := fadd rnd gc (step_weight (edges g) cur nb)) in *.
  assert (t ∈ walk_costs rnd (edges g) start) as Hc.
  { apply (walk_cost_listed _ nb t Hw'). simpl. by rewrite lookup_insert_eq. }
  unfold measure. cbn [improved gScore openSet].
  pose proof (length_set_add nb (openSet st)) as Hlen.
  set (V := walk_costs rnd (edges g) start) in *.
  enough (sum_list (map (λ n, below V (<[nb:=t]> (gScore st) !! n)) (universe (edges g) start))
          < sum_list (map (λ n, below V (gScore st !! n)) (universe (edges g) start)))%nat by lia.
  apply sum_list_map_lt with (c := nb).
  - intros a _. destruct (decide (nb = a)) as [->|Hne];
      [|by rewrite lookup_insert_ne].
    rewrite lookup_insert_eq. cbn [below].
    destruct Hnb as [->|(y & -> & Hlt)]; cbn [below].
    + pose proof (List.filter_length_le (λ c, num_lt c t) V). lia.
    + apply filter_length_mono. intros b _ Hb. by eapply num_lt_trans.
  - by eapply adjacent_universe.
  - rewrite lookup_insert_eq. cbn [below].
    destruct Hnb as [->|(y & -> & Hlt)]; cbn [below].
    + pose proof (List.filter_length_le (λ c, num_lt c t) V). lia.
    + apply filter_length_strict with (c := t); [|done|done|].
      * intros b _ Hb. by eapply num_lt_trans.
      * apply num_lt_irrefl.
Qed.

(** *** Chains of [cameFrom] links *)

Lemma chain_head (cf : gmap nat nat) (n : nat) (l : list nat) :
  chain cf n l → ∃ l', l = n :: l'.
Proof. destruct 1; eauto. Qed.

Lemma chain_insert_avoid (cf : gmap nat nat) (nb cur n : nat) (l : list nat) :
  chain cf n l → nb ∉ l → chain (<[nb:=cur]> cf) n l.
Proof.
  induction 1 as [n Hn|n p l Hn Hc IH]; intros Hnot.
  - apply chain_root. rewrite lookup_insert_ne; [done|].
    intros ->. apply Hnot. by left.
  - apply chain_link with p.
    + rewrite lookup_insert_ne; [done|]. intros ->. apply Hnot. by left.
    + apply IH. intros Hin. apply Hnot. by right.
Qed.

Lemma chain_splice (cf : gmap nat nat) (nb cur n : nat) (l1 l2 l' : list nat) :
  chain cf n (l1 ++ nb :: l2) → nb ∉ l1 →
  chain (<[nb:=cur]> cf) nb l' →
  chain (<[nb:=cur]> cf) n (l1 ++ l').
Proof.
  revert n. induction l1 as [|a l1 IH]; intros n Hc Hnot Hnew; simpl in *.
  - apply chain_head in Hc as (? & [= <- _]). done.
  - inversion Hc as [? Hn Heq|? p l Hn Hp]; subst.
    + by destruct l1.
    + apply chain_link with p.
      * rewrite lookup_insert_ne; [done|]. intros ->. apply Hnot. by left.
      * apply IH; [done| |done]. intros Hin. apply Hnot. by right.
Qed.

(** Scores do not increase along the links. *)
Lemma chain_scores_le (st : astar_state) (n : nat) (l : list nat) (gn : num) :
  nonneg_weights g →
  (∀ n v, gScore st !! n = Some v → good rnd v) →
  (∀ n p, cameFrom st !! n = Some p →
     adjacent (edges g) p n ∧
     ∃ gp gn, gScore st !! p = Some gp ∧ gScore st !! n = Some gn ∧
              num_le (fadd rnd gp (step_weight (edges g) p n)) gn) →
  chain (cameFrom st) n l → gScore st !! n = Some gn →
  ∀ m, m ∈ l → ∃ gm, gScore st !! m = Some gm ∧ num_le gm gn.
Proof.
  intros Hnn Hfin Hedge Hc. revert gn.
  induction Hc as [n Hn|n p l Hn Hc IH]; intros gn Hgn m Hm.
  - apply list_elem_of_singleton in Hm as ->. exists gn. split; [done|].
    apply num_le_refl, nn_not_nan, (good_nn rnd). eauto.
  - apply elem_of_cons in Hm as [->|Hm].
    { exists gn. split; [done|]. apply num_le_refl, nn_not_nan, (good_nn rnd). eauto. }
    destruct (Hedge _ _ Hn) as (_ & gp & gn' & Hgp & Hgn' & Hle).
    rewrite Hgn in Hgn'. injection Hgn' as <-.
    destruct (IH _ Hgp _ Hm) as (gm & Hgm & Hle').
    exists gm. split; [done|].
    eapply num_le_trans; [exact Hle'|]. eapply num_le_trans; [|exact Hle].
    apply (fadd_infl rnd Hrnd); [eauto|by apply step_weight_nn].
Qed.

Lemma chains_ok_relax (cur : nat) (st : astar_state) (nb : nat) (st' : astar_state) :
  nonneg_weights g →
  scores_ok rnd start st → is_Some (gScore st !! cur) →
  chains_ok rnd (edges g) start st →
  relax rnd sqrt g goal cur st nb = Ret st' →
  chains_ok rnd (edges g) start st'.
Proof.
  intros Hnn (Hop & Hfin & Hst) [gc Hv] (Hcs & Hedge & Hch) Hr.
  pose proof (Hfin _ _ Hv) as Hgc.
  destruct (relax_spec _ _ _ _ _ Hv Hr) as [Hadj [[-> _]|(h & _ & -> & Hnb)]];
    [done|].
  destruct (improved_neq _ _ _ _ Hnn Hst Hgc Hv Hnb) as [Hns Hnc].
  pose proof (step_weight_nn g cur nb Hnn) as Hsw.
  set (t := fadd rnd gc (step_weight (edges g) cur nb)) in *.
  assert (good rnd t) as Htg by (apply (fadd_good rnd Hrnd); [by apply (good_nn rnd)|done]).
  split; [|split]; cbn [improved cameFrom gScore].
  - by rewrite lookup_insert_ne.
  - intros n p. destruct (decide (nb = n)) as [->|Hne].
    + rewrite lookup_insert_eq. intros [= <-]. split; [done|].
      exists gc, t. rewrite lookup_insert_ne by done. rewrite lookup_insert_eq.
      split; [done|]. split; [done|]. apply num_le_refl, nn_not_nan, (good_nn rnd), Htg.
    + rewrite lookup_insert_ne by done. intros Hn.
      destruct (Hedge _ _ Hn) as (Ha & gp & gn & Hgp & Hgn & Hle).
      split; [done|]. rewrite (lookup_insert_ne _ nb n) by done.
      destruct (decide (nb = p)) as [->|Hnp].
      * exists t, gn. rewrite lookup_insert_eq. split; [done|]. split; [done|].
        destruct Hnb as [Hno|(y & Hy & Hlt)]; [congruence|].
        rewrite Hgp in Hy. injection Hy as <-.
        eapply num_le_trans; [|exact Hle].
        apply (fadd_mono rnd Hrnd); [by apply (good_nn rnd)|by apply step_weight_nn|].
        by apply num_lt_le.
      * exists gp, gn. by rewrite lookup_insert_ne.
  - destruct (Hch cur) as (lc & Hlc & Hlast); [eauto|].
    assert (nb ∉ lc) as Hfresh.
    { intros Hin.
      destruct (chain_scores_le _ _ _ _ Hnn Hfin Hedge Hlc Hv _ Hin) as (gm & Hgm & Hle).
      destruct Hnb as [Hno|(y & Hy & Hlt)]; [congruence|].
      rewrite Hgm in Hy. injection Hy as <-.
      assert (num_le gm t) as Hmt.
      { eapply num_le_trans; [exact Hle|]. by apply (fadd_infl rnd Hrnd). }
      by rewrite (num_le_lt_false _ _ Hmt) in Hlt. }
    assert (chain (<[nb:=cur]> (cameFrom st)) nb (nb :: lc)) as Hnew.
    { apply chain_link with cur; [by rewrite lookup_insert_eq|].
      by apply chain_insert_avoid. }
    assert (last (nb :: lc) = Some start) as Hnewlast.
    { destruct (chain_head _ _ _ Hlc) as [l' ->]. by rewrite last_cons_cons. }
    intros n Hn. destruct (decide (nb = n)) as [->|Hne]; [eauto|].
    rewrite lookup_insert_ne in Hn by done.
    destruct (Hch _ Hn) as (l & Hl & Hll).
    destruct (decide (nb ∈ l)) as [Hin|Hnin].
    + apply list_elem_of_split_l in Hin as (l1 & l2 & -> & Hl1).
      exists (l1 ++ nb :: lc). split; [by eapply chain_splice|].
      by rewrite last_app_cons.
    + exists l. split; [by apply chain_insert_avoid|done].
Qed.

(** ** One turn of the [while] loop *)

Lemma expand_closed (cur : nat) (st : astar_state) :
  expand rnd sqrt g goal cur st
  = foldM (relax rnd sqrt g goal cur) (neighbors (edges g) cur) (closed cur st).
Proof. done. Qed.

Lemma foldM_relax_not_out_of_fuel (cur : nat) (l : list nat) (st : astar_state) :
  foldM (relax rnd sqrt g goal cur) l st ≠ OutOfFuel.
Proof.
  revert st. induction l as [|nb l IH]; intros st; simpl; [done|].
  pose proof (relax_not_out_of_fuel cur st nb).
  destruct (relax rnd sqrt g goal cur st nb); simpl; [apply IH|done|done].
Qed.

Lemma adjacent_node (u v : nat) :
  endpoints_ok g → adjacent (edges g) u v → is_Some (nodes g !! v).
Proof.
  intros Hok (e & He & Hj). destruct (Hok _ He) as [Hf Ht].
  apply joins_ends in Hj as [[_ <-]|[_ <-]]; done.
Qed.

Lemma foldM_relax_returns (cur : nat) (l : list nat) (st : astar_state) :
  endpoints_ok g → is_Some (nodes g !! goal) →
  (∀ nb, nb ∈ l → adjacent (edges g) cur nb) →
  ∃ st', foldM (relax rnd sqrt g goal cur) l st = Ret st'.
Proof.
  intros Hok Hgoal. revert st. induction l as [|nb l IH]; intros st Hl; simpl; [eauto|].
  destruct (relax_returns cur st nb) as [st1 ->]; [apply Hl; by left| |done|].
  - eapply adjacent_node; [done|]. apply Hl. by left.
  - simpl. apply IH. intros ? ?. apply Hl. by right.
Qed.

Lemma expand_returns (cur : nat) (st : astar_state) :
  endpoints_ok g → is_Some (nodes g !! goal) →
  ∃ st', expand rnd sqrt g goal cur st = Ret st'.
Proof.
  intros Hok Hgoal. apply foldM_relax_returns; [done|done|].
  intros nb. apply elem_of_neighbors.
Qed.

Lemma search_ok_relax (cur : nat) (st : astar_state) (nb : nat) (st' : astar_state) :
  nonneg_weights g →
  search_ok rnd (edges g) start st → is_Some (gScore st !! cur) →
  relax rnd sqrt g goal cur st nb = Ret st' →
  search_ok rnd (edges g) start st' ∧ gScore st' !! cur = gScore st !! cur ∧
  (measure rnd (edges g) start st' ≤ measure rnd (edges g) start st)%nat.
Proof.
  intros Hnn (Hs & Hw & Hc) Hcur Hr.
  destruct (scores_ok_relax _ _ _ _ Hnn Hs Hcur Hr) as [Hs' Heq].
  split; [|split; [done|exact (measure_relax _ _ _ _ Hnn Hs Hcur Hw Hr)]].
  split; [done|].
  split; [exact (walks_ok_relax _ _ _ _ Hnn Hs Hcur Hw Hr)
         |exact (chains_ok_relax _ _ _ _ Hnn Hs Hcur Hc Hr)].
Qed.

Lemma search_ok_fold (cur : nat) (l : list nat) (st st' : astar_state) :
  nonneg_weights g →
  search_ok rnd (edges g) start st → is_Some (gScore st !! cur) →
  foldM (relax rnd sqrt g goal cur) l st = Ret st' →
  search_ok rnd (edges g) start st' ∧ gScore st' !! cur = gScore st !! cur ∧
  (measure rnd (edges g) start st' ≤ measure rnd (edges g) start st)%nat.
Proof.
  intros Hnn Hok Hcur Hf.
  apply (foldM_inv (relax rnd sqrt g goal cur)
           (λ s, search_ok rnd (edges g) start s ∧ gScore s !! cur = gScore st !! cur ∧
                 (measure rnd (edges g) start s ≤ measure rnd (edges g) start st)%nat) l)
    with (a := st); [|done|done].
  intros s nb s' _ (Hs & Heq & Hm) Hr.
  destruct (search_ok_relax cur s nb s' Hnn Hs) as (Hs' & Heq' & Hm'); [by rewrite Heq|done|].
  split; [done|]. split; [congruence|lia].
Qed.

Lemma search_ok_closed (cur : nat) (st : astar_state) :
  search_ok rnd (edges g) start st → search_ok rnd (edges g) start (closed cur st).
Proof.
  intros ((Hop & Hfin & Hst) & Hw & Hc). split; [|done].
  split; [|done]. intros n Hn. apply elem_of_set_delete in Hn as [_ Hn]. by apply Hop.
Qed.

Lemma measure_closed (cur : nat) (st : astar_state) :
  cur ∈ openSet st → (measure rnd (edges g) start (closed cur st) < measure rnd (edges g) start st)%nat.
Proof.
  intros Hin. unfold measure. cbn [closed gScore openSet].
  pose proof (length_set_delete cur (openSet st) Hin). lia.
Qed.

(** A turn keeps the invariant and decreases the measure. *)
Lemma search_ok_expand (cur : nat) (st st' : astar_state) :
  nonneg_weights g →
  search_ok rnd (edges g) start st → cur ∈ openSet st →
  expand rnd sqrt g goal cur st = Ret st' →
  search_ok rnd (edges g) start st' ∧ (measure rnd (edges g) start st' < measure rnd (edges g) start st)%nat.
Proof.
  intros Hnn Hok Hin He. rewrite expand_closed in He.
  pose proof (measure_closed cur st Hin) as Hm.
  assert (is_Some (gScore (closed cur st) !! cur)) as Hc.
  { destruct Hok as ((Hop & _) & _). by apply Hop. }
  destruct (search_ok_fold cur _ _ _ Hnn (search_ok_closed cur st Hok) Hc He)
    as (Hok' & _ & Hm').
  split; [done|lia].
Qed.

Lemma pick_current_elem (fs : gmap nat num) (a : nat) (rest : list nat) :
  pick_current fs a rest ∈ a :: rest.
Proof.
  unfold pick_current. revert a. induction rest as [|b rest IH]; intros a; simpl.
  - by left.
  - specialize (IH (pick_min fs a b)). unfold pick_min in *.
    destruct (num_lt _ _).
    + apply elem_of_cons in IH as [->|IH]; [by left|by do 2 right].
    + by right.
Qed.

(** ** [reconstructPath] *)

Lemma reconstructPath_chain (cf : gmap nat nat) (n : nat) (l : list nat) :
  chain cf n l → ∀ k acc, (length l ≤ S k)%nat →
  reconstructPath k cf n (n :: acc) = Ret (reverse l ++ acc).
Proof.
  induction 1 as [n Hn|n p l Hn Hc IH]; intros k acc Hk.
  - destruct k; simpl; by rewrite Hn.
  - destruct k as [|k]; [simpl in Hk; destruct Hc; simpl in Hk; lia|].
    simpl. rewrite Hn. rewrite IH by (simpl in Hk; lia).
    by rewrite reverse_cons, <- app_assoc.
Qed.

Lemma reconstructPath_more (cf : gmap nat nat) (k : nat) (n : nat) (acc p : list nat) :
  reconstructPath k cf n acc = Ret p → reconstructPath (S k) cf n acc = Ret p.
Proof.
  revert n acc. induction k as [|k IH]; intros n acc; simpl.
  - destruct (cf !! n); [done|done].
  - destruct (cf !! n) as [q|] eqn:E; [|done]. intros H. apply IH in H.
    simpl in H. done.
Qed.

Lemma reconstructPath_not_throw (cf : gmap nat nat) (k : nat) (n : nat) (acc : list nat) :
  reconstructPath k cf n acc ≠ Throw.
Proof.
  revert n acc. induction k as [|k IH]; intros n acc; simpl;
    destruct (cf !! n); done.
Qed.

(** ** The [while] loop *)

Lemma astar_loop_more (k : nat) (st : astar_state) (r : outcome (option (list nat))) :
  astar_loop rnd sqrt k g goal st = r → r ≠ OutOfFuel →
  astar_loop rnd sqrt (S k) g goal st = r.
Proof.
  revert st r. induction k as [|k IH]; intros st r Hr Hne; [simpl in Hr; congruence|].
  change (astar_loop rnd sqrt (S k) g goal st) with
    (match openSet st with
     | [] => Ret None
     | a :: rest =>
         let current := pick_current (fScore st) a rest in
         if (current =? goal)%nat then
           p ← reconstructPath k (cameFrom st) current [current]; Ret (Some p)
         else st2 ← expand rnd sqrt g goal current st; astar_loop rnd sqrt k g goal st2
     end) in Hr.
  change (astar_loop rnd sqrt (S (S k)) g goal st) with
    (match openSet st with
     | [] => Ret None
     | a :: rest =>
         let current := pick_current (fScore st) a rest in
         if (current =? goal)%nat then
           p ← reconstructPath (S k) (cameFrom st) current [current]; Ret (Some p)
         else st2 ← expand rnd sqrt g goal current st; astar_loop rnd sqrt (S k) g goal st2
     end).
  destruct (openSet st) as [|a rest]; [done|]. cbv zeta in *.
  destruct (pick_current (fScore st) a rest =? goal)%nat.
  - destruct (reconstructPath k (cameFrom st) _ _) as [p| |] eqn:E.
    + by rewrite (reconstructPath_more _ _ _ _ _ E).
    + by apply reconstructPath_not_throw in E.
    + simpl in Hr. congruence.
  - destruct (expand rnd sqrt g goal _ st) as [st2| |]; simpl in *; [|done|done].
    by apply IH.
Qed.

Lemma astar_loop_ge (k k' : nat) (st : astar_state) (r : outcome (option (list nat))) :
  (k ≤ k')%nat → astar_loop rnd sqrt k g goal st = r → r ≠ OutOfFuel →
  astar_loop rnd sqrt k' g goal st = r.
Proof.
  induction 1 as [|k' _ IH]; [done|]. intros Hr Hne. apply astar_loop_more; auto.
Qed.

Lemma search_ok_init (h0 : num) : search_ok rnd (edges g) start (astar_init h0 start).
Proof.
  split; [|split].
  - split; [|split]; simpl.
    + intros n Hn. apply list_elem_of_singleton in Hn as ->.
      rewrite lookup_singleton_eq. eauto.
    + intros n v Hn. apply lookup_singleton_Some in Hn as [_ <-].
      apply (good_zero rnd Hrnd).
    + apply lookup_singleton_eq.
  - intros n q Hn. simpl in Hn. apply lookup_singleton_Some in Hn as [<- <-].
    exists []. split; [apply NoDup_singleton|]. split; [|split].
    + intros m Hm. apply list_elem_of_singleton in Hm as ->. by left.
    + done.
    + intros m s Hs. apply suffix_cons_inv in Hs as [[= -> ->]|Hs].
      * exists (Fin 0). simpl. rewrite lookup_singleton_eq. split; [done|lra].
      * apply suffix_nil_inv in Hs. done.
  - split; [|split]; simpl.
    + apply lookup_empty.
    + intros n p Hn. by rewrite lookup_empty in Hn.
    + intros n [v Hn]. apply lookup_singleton_Some in Hn as [<- _].
      exists [start]. split; [|done]. apply chain_root, lookup_empty.
Qed.

(** On non-negative weights the loop comes to an end from every state
    that satisfies the invariant; it throws only when a node is missing
    from the node array. *)
Lemma astar_loop_terminates (m : nat) (st : astar_state) :
  nonneg_weights g →
  (measure rnd (edges g) start st < m)%nat → search_ok rnd (edges g) start st →
  ∃ fuel r, astar_loop rnd sqrt fuel g goal st = r ∧ r ≠ OutOfFuel ∧
            (endpoints_ok g → is_Some (nodes g !! goal) → r ≠ Throw).
Proof.
  intros Hnn. revert st. induction m as [|m IH]; intros st Hm Hok; [lia|].
  destruct (openSet st) as [|a rest] eqn:Eopen.
  { exists 1%nat, (Ret None). simpl. by rewrite Eopen. }
  pose proof (pick_current_elem (fScore st) a rest) as Hin. rewrite <- Eopen in Hin.
  destruct (Nat.eqb_spec (pick_current (fScore st) a rest) goal) as [Heq|Hneq].
  - destruct Hok as ((Hop & _) & _ & (_ & _ & Hch)).
    destruct (Hch goal) as (l & Hl & _); [apply Hop; by rewrite <- Heq|].
    exists (S (length l)), (Ret (Some (reverse l))). split; [|done].
    simpl. rewrite Eopen, Heq, Nat.eqb_refl.
    rewrite (reconstructPath_chain _ _ _ Hl) by lia. simpl. by rewrite app_nil_r.
  - destruct (expand rnd sqrt g goal (pick_current (fScore st) a rest) st) as [st2| |] eqn:Ex.
    + destruct (search_ok_expand _ _ _ Hnn Hok Hin Ex) as [Hok2 Hm2].
      destruct (IH st2) as (fuel & r & Hr & Hne & Hth); [lia|done|].
      exists (S fuel), r. split; [|done]. simpl. rewrite Eopen.
      destruct (Nat.eqb_spec (pick_current (fScore st) a rest) goal); [done|].
      by rewrite Ex.
    + exists 1%nat, Throw. split; [|split; [done|]].
      * simpl. rewrite Eopen.
        destruct (Nat.eqb_spec (pick_current (fScore st) a rest) goal); [done|].
        by rewrite Ex.
      * intros He Hg. destruct (expand_returns (pick_current (fScore st) a rest) st He Hg).
        congruence.
    + rewrite expand_closed in Ex. by apply foldM_relax_not_out_of_fuel in Ex.
Qed.

(** A property kept by every turn holds of the state in which the loop
    returns: the open set is then empty, or the goal has been picked. *)
Lemma astar_loop_inv (P : astar_state → Prop) :
  (∀ st a rest st', P st → openSet st = a :: rest →
     pick_current (fScore st) a rest ≠ goal →
     expand rnd sqrt g goal (pick_current (fScore st) a rest) st = Ret st' → P st') →
  ∀ fuel st r, P st → astar_loop rnd sqrt fuel g goal st = Ret r →
  ∃ st', P st' ∧
    match r with
    | None => openSet st' = []
    | Some p => ∃ a rest k, openSet st' = a :: rest ∧
                  pick_current (fScore st') a rest = goal ∧
                  reconstructPath k (cameFrom st') goal [goal] = Ret p
    end.
Proof.
  intros Hstep. induction fuel as [|k IH]; intros st r HP Hr; [done|].
  simpl in Hr. destruct (openSet st) as [|a rest] eqn:Eopen.
  { injection Hr as <-. eauto. }
  destruct (Nat.eqb_spec (pick_current (fScore st) a rest) goal) as [Heq|Hneq].
  - apply bind_Ret in Hr as (p & Hp & [= <-]). rewrite Heq in Hp.
    exists st. split; [done|]. exists a, rest, k. by rewrite Eopen.
  - apply bind_Ret in Hr as (st2 & Hex & Hr).
    eapply IH; [|exact Hr]. by eapply Hstep.
Qed.


(** *** What a turn of the [for] loop does on any graph *)

Lemma relax_grow (cur : nat) (st : astar_state) (nb : nat) (st' : astar_state) :
  relax rnd sqrt g goal cur st nb = Ret st' →
  is_Some (gScore st' !! nb) ∧
  (∀ n, is_Some (gScore st !! n) → is_Some (gScore st' !! n)) ∧
  (∀ n, n ∈ openSet st → n ∈ openSet st') ∧
  (∀ n, is_Some (gScore st' !! n) → is_Some (gScore st !! n) ∨ n ∈ openSet st') ∧
  (∀ n p, cameFrom st' !! n = Some p →
     cameFrom st !! n = Some p ∨ (n = nb ∧ p = cur ∧ adjacent (edges g) cur nb)).
Proof.
  unfold relax. destruct (find_edge (edges g) cur nb) as [e|] eqn:Ee; [|done].
  apply find_edge_Some in Ee as [He Hj].
  destruct (negb _ || _) eqn:Ec.
  - intros Hr. apply bind_Ret in Hr as (h & _ & [= <-]). simpl.
    split; [rewrite lookup_insert_eq; eauto|].
    split; [|split; [|split]].
    + intros n Hn. destruct (decide (nb = n)) as [->|Hne].
      * rewrite lookup_insert_eq. eauto.
      * by rewrite lookup_insert_ne.
    + intros n Hn. apply elem_of_set_add. by right.
    + intros n. destruct (decide (nb = n)) as [->|Hne].
      * intros _. right. apply elem_of_set_add. by left.
      * rewrite lookup_insert_ne by done. by left.
    + intros n p. destruct (decide (nb = n)) as [->|Hne].
      * rewrite lookup_insert_eq. intros [= <-]. right.
        split; [done|]. split; [done|]. by exists e.
      * rewrite lookup_insert_ne by done. by left.
  - intros [= <-]. apply orb_false_iff in Ec as [Ec _].
    apply negb_false_iff, bool_decide_eq_true in Ec. naive_solver.
Qed.

Lemma links_ok_expand (cur : nat) (st st' : astar_state) :
  links_ok (edges g) st → expand rnd sqrt g goal cur st = Ret st' → links_ok (edges g) st'.
Proof.
  intros Hl He. rewrite expand_closed in He.
  apply (foldM_inv (relax rnd sqrt g goal cur) (links_ok (edges g)) (neighbors (edges g) cur))
    with (a := closed cur st); [|done|done].
  intros s nb s' _ Hs Hr n p Hn.
  destruct (relax_grow _ _ _ _ Hr) as (_ & _ & _ & _ & Hcf).
  destruct (Hcf _ _ Hn) as [Hold|(-> & -> & Ha)]; [by apply Hs|done].
Qed.

Lemma fold_scored (cur : nat) (l : list nat) (st st' : astar_state) :
  foldM (relax rnd sqrt g goal cur) l st = Ret st' →
  (∀ n, is_Some (gScore st !! n) → is_Some (gScore st' !! n)) ∧
  (∀ nb, nb ∈ l → is_Some (gScore st' !! nb)).
Proof.
  revert st. induction l as [|a l IH]; intros st Hf; simpl in Hf.
  - injection Hf as <-. split; [done|]. intros nb Hnb. by apply elem_of_nil in Hnb.
  - apply bind_Ret in Hf as (s1 & Hr & Hf).
    destruct (relax_grow _ _ _ _ Hr) as (Ha & Hmono & _).
    destruct (IH _ Hf) as [Hmono' Hl]. split; [auto|].
    intros nb Hnb. apply elem_of_cons in Hnb as [->|Hnb]; auto.
Qed.

Lemma closed_but_relax (cur : nat) (st : astar_state) (nb : nat) (st' : astar_state) :
  closed_but (edges g) start goal cur st →
  relax rnd sqrt g goal cur st nb = Ret st' →
  closed_but (edges g) start goal cur st'.
Proof.
  intros (Hst & Hcl & Hg) Hr.
  destruct (relax_grow _ _ _ _ Hr) as (_ & Hmono & Hop & Hnew & _).
  split; [auto|]. split.
  - intros n Hne Hn Hnot m Hm.
    destruct (Hnew _ Hn) as [Hold|Hin]; [|done].
    apply Hmono. eapply Hcl; eauto.
  - intros Hgoal. destruct (Hnew _ Hgoal) as [Hold|Hin]; auto.
Qed.

Lemma closed_ok_expand (cur : nat) (st st' : astar_state) :
  closed_ok (edges g) start goal st → cur ≠ goal →
  expand rnd sqrt g goal cur st = Ret st' →
  closed_ok (edges g) start goal st'.
Proof.
  intros (Hst & Hcl & Hg) Hne He. rewrite expand_closed in He.
  assert (closed_but (edges g) start goal cur (closed cur st)) as Hmid.
  { split; [done|]. split; simpl.
    - intros n Hn Hsc Hnot. apply Hcl; [done|].
      intros Hin. apply Hnot, elem_of_set_delete. done.
    - intros Hgoal. apply elem_of_set_delete. split; [done|auto]. }
  assert (closed_but (edges g) start goal cur st') as (Hst' & Hcl' & Hg').
  { apply (foldM_inv (relax rnd sqrt g goal cur) (closed_but (edges g) start goal cur)
             (neighbors (edges g) cur)) with (a := closed cur st); [|done|done].
    intros s nb s' _ Hs Hr. by eapply closed_but_relax. }
  destruct (fold_scored _ _ _ _ He) as [_ Hnbs].
  split; [done|]. split; [|done].
  intros n Hn Hnot m Hm. destruct (decide (n = cur)) as [->|Hnc].
  - by apply Hnbs, elem_of_neighbors.
  - eapply Hcl'; eauto.
Qed.

Lemma closed_ok_init (h0 : num) : closed_ok (edges g) start goal (astar_init h0 start).
Proof.
  split; [|split]; simpl.
  - rewrite lookup_singleton_eq. eauto.
  - intros n [v Hn] Hnot. apply lookup_singleton_Some in Hn as [<- _].
    exfalso. apply Hnot. by left.
  - intros [v Hn]. apply lookup_singleton_Some in Hn as [<- _]. by left.
Qed.

(** With the open set empty, everything joined to [start] is scored. *)
Lemma closed_ok_reach (st : astar_state) (p : list nat) (s : nat) :
  closed_ok (edges g) start goal st → openSet st = [] →
  hops_ok (edges g) p → head p = Some s → is_Some (gScore st !! s) →
  ∀ m, m ∈ p → is_Some (gScore st !! m).
Proof.
  intros (_ & Hcl & _) Hopen. revert s.
  induction p as [|a p IH]; intros s Hh Hhd Hs m Hm; [by apply elem_of_nil in Hm|].
  injection Hhd as ->. apply elem_of_cons in Hm as [->|Hm]; [done|].
  destruct p as [|b p]; [by apply elem_of_nil in Hm|].
  destruct Hh as [Hab Hh]. apply (IH b); [done|done| |done].
  eapply Hcl; [done| |done]. rewrite Hopen. apply not_elem_of_nil.
Qed.

(** ** The returned path *)

Lemma hops_ok_snoc (q : list nat) (p n : nat) :
  hops_ok (edges g) (q ++ [p]) → adjacent (edges g) p n → hops_ok (edges g) (q ++ [p; n]).
Proof.
  intros Hq Ha. induction q as [|a q IH]; simpl in *; [done|].
  destruct (q ++ [p]) as [|b r] eqn:E; [by destruct q|].
  destruct Hq as [Hab Hq]. specialize (IH Hq).
  destruct (q ++ [p; n]) as [|b' r'] eqn:E'; [by destruct q|].
  split; [|done].
  destruct q as [|c q]; simpl in *; [by injection E as <- <-; injection E' as <- <-|].
  injection E as <- _. by injection E' as <- _.
Qed.

Lemma reconstructPath_hops (cf : gmap nat nat) (k : nat) (n : nat) (acc p : list nat) :
  (∀ n q, cf !! n = Some q → adjacent (edges g) q n) →
  hops_ok (edges g) (n :: acc) →
  reconstructPath k cf n (n :: acc) = Ret p →
  hops_ok (edges g) p ∧ last p = last (n :: acc).
Proof.
  intros Hl. revert n acc. induction k as [|k IH]; intros n acc Hh; simpl.
  - destruct (cf !! n); [done|]. by intros [= <-].
  - destruct (cf !! n) as [q|] eqn:E; [|by intros [= <-]].
    intros Hr. apply IH in Hr as [H1 H2]; [done|].
    split; [by apply Hl|done].
Qed.

Lemma reconstructPath_chain_eq (cf : gmap nat nat) (n : nat) (l : list nat) :
  chain cf n l → ∀ k acc p,
  reconstructPath k cf n (n :: acc) = Ret p → p = reverse l ++ acc.
Proof.
  induction 1 as [n Hn|n q l Hn Hc IH]; intros k acc p.
  - destruct k; simpl; rewrite Hn; by intros [= <-].
  - destruct k as [|k]; simpl; rewrite Hn; [done|].
    intros Hr. apply IH in Hr as ->. by rewrite reverse_cons, <- app_assoc.
Qed.


Lemma astar_inv_init (h0 : num) : astar_inv rnd (edges g) start goal (astar_init h0 start).
Proof. split; [apply search_ok_init|apply closed_ok_init]. Qed.

Lemma astar_inv_expand (st : astar_state) (a : nat) (rest : list nat) (st' : astar_state) :
  nonneg_weights g →
  astar_inv rnd (edges g) start goal st → openSet st = a :: rest →
  pick_current (fScore st) a rest ≠ goal →
  expand rnd sqrt g goal (pick_current (fScore st) a rest) st = Ret st' →
  astar_inv rnd (edges g) start goal st'.
Proof.
  intros Hnn [Hs Hc] Hopen Hne He. split.
  - eapply search_ok_expand; [done|done| |done].
    rewrite Hopen. apply pick_current_elem.
  - by eapply closed_ok_expand.
Qed.

(** The result of the loop on non-negative weights: [null] only when
    no path leads from [start] to [goal], and otherwise the links from
    the goal back to [start], whose cost is at most the goal's score. *)
Lemma astar_loop_result (fuel : nat) (h0 : num) (r : option (list nat)) :
  nonneg_weights g →
  astar_loop rnd sqrt fuel g goal (astar_init h0 start) = Ret r →
  match r with
  | None => ¬ connected g start goal
  | Some p => is_path g start goal p
  end.
Proof.
  intros Hnn Hr.
  destruct (astar_loop_inv (astar_inv rnd (edges g) start goal)) with (3 := Hr)
    as (st & [Hs Hc] & Hres).
  { intros. by eapply astar_inv_expand. }
  { apply astar_inv_init. }
  destruct r as [p|].
  - destruct Hres as (a & rest & k & Hopen & Hpick & Hrec).
    destruct Hs as (Hsc & _ & Hch). pose proof Hsc as (Hop & _).
    destruct Hch as (Hcs & Hedge & Hch).
    destruct (Hch goal) as (l & Hl & Hlast).
    { apply Hop. rewrite Hopen, <- Hpick. apply pick_current_elem. }
    pose proof (reconstructPath_chain_eq _ _ _ Hl _ _ _ Hrec) as Hp.
    rewrite app_nil_r in Hp. subst p.
    destruct (reconstructPath_hops (cameFrom st) k goal [] _
                (λ n q H, proj1 (Hedge n q H)) I Hrec) as [Hh Hl'].
    split; [by rewrite head_reverse|]. split; [done|done].
  - intros (p & Hhd & Hlst & Hh).
    destruct Hc as (Hst & Hcl & Hg).
    assert (is_Some (gScore st !! goal)) as Hsg.
    { apply (closed_ok_reach st p start); try done.
      by apply last_Some_elem_of. }
    apply Hg in Hsg. rewrite Hres in Hsg. by apply elem_of_nil in Hsg.
Qed.

(** ** Cost of the returned path *)










Lemma hops_ok_app_l (l l' : list nat) : hops_ok (edges g) (l ++ l') → hops_ok (edges g) l.
Proof.
  induction l as [|c t IH]; simpl; [done|].
  destruct t as [|d t]; simpl in *; [done|].
  intros [H1 H2]. split; [done|]. by apply IH.
Qed.




(** ** [astar] *)

Lemma astar_loop_eq (fuel : nat) (h0 : num) :
  heuristic_at rnd sqrt (nodes g) start goal = Ret h0 →
  astar rnd sqrt fuel g start goal = astar_loop rnd sqrt fuel g goal (astar_init h0 start).
Proof. intros H. unfold astar. by rewrite H. Qed.

Lemma astar_throws_without_node (fuel : nat) :
  nodes g !! start = None ∨ nodes g !! goal = None →
  astar rnd sqrt fuel g start goal = Throw.
Proof.
  intros H. unfold astar, heuristic_at.
  destruct (nodes g !! start), (nodes g !! goal); try done; by destruct H.
Qed.

Lemma astar_result (fuel : nat) (r : option (list nat)) :
  nonneg_weights g →
  astar rnd sqrt fuel g start goal = Ret r →
  match r with
  | None => ¬ connected g start goal
  | Some p => is_path g start goal p
  end.
Proof.
  intros Hnn Hr. unfold astar in Hr. apply bind_Ret in Hr as (h0 & _ & Hr).
  by eapply astar_loop_result.
Qed.

Lemma astar_hops (fuel : nat) (p : list nat) :
  astar rnd sqrt fuel g start goal = Ret (Some p) → hops_ok (edges g) p ∧ last p = Some goal.
Proof.
  intros Hr. unfold astar in Hr. apply bind_Ret in Hr as (h0 & _ & Hr).
  destruct (astar_loop_inv (links_ok (edges g))) with (3 := Hr)
    as (st & Hl & (a & rest & k & _ & _ & Hrec)).
  { intros. by eapply links_ok_expand. }
  { intros n q Hn. simpl in Hn. by rewrite lookup_empty in Hn. }
  by apply (reconstructPath_hops (cameFrom st) k goal [] p Hl I) in Hrec.
Qed.

End PlannerFacts.

(** ** The single-goal planner *)

Lemma hops_ok_lookup (es : list edge) (p : list nat) (i u v : nat) :
  hops_ok es p → p !! i = Some u → p !! S i = Some v →
  ∃ e, e ∈ es ∧ ((from e = u ∧ to e = v) ∨ (from e = v ∧ to e = u)).
Proof.
  revert i. induction p as [|a p IH]; intros i Hh Hu Hv; [done|].
  destruct p as [|b p]; [done|]. destruct Hh as [Hab Hh].
  destruct i as [|i].
  - simpl in Hu, Hv. injection Hu as ->. injection Hv as ->.
    destruct Hab as (e & He & Hj). exists e. split; [done|].
    apply joins_ends in Hj. tauto.
  - by apply (IH i).
Qed.

Lemma reaches_loop (rnd : Q → num) (sqrt : Q → Q) (g : graph) (goal : nat)
    (st st' : astar_state) :
  reaches rnd sqrt g goal st st' → openSet st' = [] →
  ∃ fuel, astar_loop rnd sqrt fuel g goal st = Ret None.
Proof.
  induction 1 as [st|st a rest st1 st2 Hopen Hne Hex _ IH]; intros Hempty.
  - exists 1%nat. simpl. by rewrite Hempty.
  - destruct (IH Hempty) as [fuel Hf]. exists (S fuel). simpl. rewrite Hopen.
    destruct (Nat.eqb_spec (pick_current (fScore st) a rest) goal); [done|].
    by rewrite Hex.
Qed.

(** C5.  When the open set becomes empty after some turns of the loop,
    none of which picked the goal, [astar] returns [null]: with enough
    fuel its outcome is the value [Ret None], neither a throw nor a
    search still running, and the caller [calculatePath] turns it into
    the empty path. *)
Theorem astar_frontier_empties (rnd : Q → num) (sqrt : Q → Q) (g : graph)
    (start goal : nat) (h0 : num) (st : astar_state) :
  heuristic_at rnd sqrt (nodes g) start goal = Ret h0 →
  reaches rnd sqrt g goal (astar_init h0 start) st →
  openSet st = [] →
  ∃ fuel, ∀ fuel', (fuel ≤ fuel')%nat →
    astar rnd sqrt fuel' g start goal = Ret None ∧
    calculatePath_single rnd sqrt fuel' g start goal = Ret [].
Proof.
  intros Hh Hreach Hempty.
  destruct (reaches_loop _ _ _ _ _ _ Hreach Hempty) as [fuel Hf].
  exists fuel. intros fuel' Hle.
  assert (astar rnd sqrt fuel' g start goal = Ret None) as Ha.
  { rewrite (astar_loop_eq _ _ _ _ _ _ _ Hh). by eapply astar_loop_ge. }
  split; [done|]. unfold calculatePath_single. by rewrite Ha.
Qed.

(** C9.  For a node [start] of the node array, [astar(graph, start,
    start)] returns the path made of [start] alone, which has no edge. *)
Theorem astar_start_is_goal (rnd : Q → num) (sqrt : Q → Q) (g : graph)
    (start fuel : nat) :
  is_Some (nodes g !! start) →
  astar rnd sqrt (S fuel) g start start = Ret (Some [start]).
Proof.
  intros [a Ha]. unfold astar, heuristic_at. rewrite Ha. simpl.
  rewrite Nat.eqb_refl. destruct fuel; simpl; by rewrite lookup_empty.
Qed.

Lemma astar_outcome (rnd : Q → num) (sqrt : Q → Q) (g : graph) (start goal : nat) :
  rounding rnd → nonneg_weights g →
  ∃ fuel r, r ≠ OutOfFuel ∧
    (∀ fuel', (fuel ≤ fuel')%nat → astar rnd sqrt fuel' g start goal = r) ∧
    (endpoints_ok g → is_Some (nodes g !! start) → is_Some (nodes g !! goal) →
     ∃ v, r = Ret v).
Proof.
  intros Hrnd Hnn.
  destruct (heuristic_at rnd sqrt (nodes g) start goal) as [h0| |] eqn:Hh.
  - destruct (astar_loop_terminates rnd Hrnd sqrt g start goal
                (S (measure rnd (edges g) start (astar_init h0 start)))
                (astar_init h0 start) Hnn)
      as (fuel & r & Hr & Hne & Hth); [lia|by apply search_ok_init|].
    exists fuel, r. split; [done|]. split.
    + intros fuel' Hle. rewrite (astar_loop_eq _ _ _ _ _ _ _ Hh). by eapply astar_loop_ge.
    + intros He _ Hg. destruct r as [v| |]; [eauto| |done].
      by destruct (Hth He Hg).
  - exists 0%nat, Throw. split; [done|]. split.
    + intros fuel' _. unfold astar. by rewrite Hh.
    + intros _ [a Ha] [b Hb]. unfold heuristic_at in Hh. by rewrite Ha, Hb in Hh.
  - unfold heuristic_at in Hh. by destruct (nodes g !! start), (nodes g !! goal).
Qed.

(** C10.  On non-negative edge weights [astar] comes to an end for
    every start and goal, in the arithmetic of doubles as in any other
    that obeys the laws of [rounding]: from some amount of fuel on its
    outcome no longer depends on the fuel and is not [OutOfFuel]; it is
    a returned value when the start, the goal and the ends of every
    edge are in the node array. *)
Theorem astar_terminates (rnd : Q → num) (sqrt : Q → Q) (g : graph) (start goal : nat) :
  rounding rnd → nonneg_weights g →
  ∃ fuel r, r ≠ OutOfFuel ∧
    (∀ fuel', (fuel ≤ fuel')%nat → astar rnd sqrt fuel' g start goal = r) ∧
    (endpoints_ok g → is_Some (nodes g !! start) → is_Some (nodes g !! goal) →
     ∃ v, r = Ret v).
Proof. apply astar_outcome. Qed.


Lemma other_end_neighbor (es : list edge) (cur : nat) (e : edge) :
  e ∈ es → from e = cur ∨ to e = cur → other_end cur e ∈ neighbors es cur.
Proof.
  intros He Hends. apply elem_of_neighbors. exists e. split; [done|].
  unfold joins, other_end. destruct (Nat.eqb_spec (from e) cur) as [Hf|Hf].
  - by rewrite Nat.eqb_refl.
  - destruct Hends as [?|Ht]; [done|].
    rewrite <- Ht at 1. by rewrite !Nat.eqb_refl, orb_true_r.
Qed.

Lemma edge_connects (g : graph) (e : edge) :
  e ∈ edges g → connected g (from e) (to e) ∧ connected g (to e) (from e).
Proof.
  intros He. split.
  - exists [from e; to e]. split; [done|]. split; [done|]. split; [|done].
    exists e. split; [done|]. apply joins_ends. by left.
  - exists [to e; from e]. split; [done|]. split; [done|]. split; [|done].
    exists e. split; [done|]. apply joins_ends. by right.
Qed.

(** C2, as amended.  Edges are undirected for [astar].  A turn of the
    loop follows every edge that has the current node at either end:
    the node at its other end is among the neighbours and has a score
    when the turn is over.  An edge stored from one node to another is
    so crossed in both directions: the search from either end to the
    other returns a path.  And every hop of a returned path is joined
    by an edge stored from the first node of the hop to the second or
    from the second to the first. *)
Theorem astar_hops_are_edges (rnd : Q → num) (sqrt : Q → Q) (g : graph) :
  (∀ goal cur st st' e,
     e ∈ edges g → from e = cur ∨ to e = cur →
     expand rnd sqrt g goal cur st = Ret st' →
     other_end cur e ∈ neighbors (edges g) cur ∧
     is_Some (gScore st' !! other_end cur e)) ∧
  (rounding rnd → nonneg_weights g → endpoints_ok g →
   ∀ e, e ∈ edges g →
     ∃ fuel p q, ∀ fuel', (fuel ≤ fuel')%nat →
       astar rnd sqrt fuel' g (from e) (to e) = Ret (Some p) ∧
       astar rnd sqrt fuel' g (to e) (from e) = Ret (Some q)) ∧
  (∀ start goal fuel p i u v,
     astar rnd sqrt fuel g start goal = Ret (Some p) →
     p !! i = Some u → p !! S i = Some v →
     ∃ e, e ∈ edges g ∧ ((from e = u ∧ to e = v) ∨ (from e = v ∧ to e = u))).
Proof.
  split; [|split].
  - intros goal cur st st' e He Hends Hex.
    pose proof (other_end_neighbor _ _ _ He Hends) as Hnb. split; [done|].
    rewrite expand_closed in Hex. by apply (fold_scored _ _ _ _ _ _ _ _ Hex).
  - intros Hrnd Hnn Hok e He. destruct (Hok e He) as [Hf Ht].
    destruct (edge_connects g e He) as [Hc1 Hc2].
    destruct (astar_outcome rnd sqrt g (from e) (to e) Hrnd Hnn) as (f1 & r1 & _ & Hr1 & Hv1).
    destruct (astar_outcome rnd sqrt g (to e) (from e) Hrnd Hnn) as (f2 & r2 & _ & Hr2 & Hv2).
    destruct (Hv1 Hok Hf Ht) as [v1 ->]. destruct (Hv2 Hok Ht Hf) as [v2 ->].
    pose proof (astar_result rnd Hrnd sqrt g _ _ f1 v1 Hnn (Hr1 f1 (Nat.le_refl _))) as R1.
    pose proof (astar_result rnd Hrnd sqrt g _ _ f2 v2 Hnn (Hr2 f2 (Nat.le_refl _))) as R2.
    destruct v1 as [p|]; [|done]. destruct v2 as [q|]; [|done].
    exists (f1 `max` f2), p, q. intros fuel' Hle. split; [apply Hr1|apply Hr2]; lia.
  - intros start goal fuel p i u v Hr Hu Hv.
    apply astar_hops in Hr as [Hh _]. by eapply hops_ok_lookup.
Qed.



(** ** The multi-goal planner *)

Lemma elem_of_set_of_list (l : list nat) (x : nat) : x ∈ set_of_list l ↔ x ∈ l.
Proof.
  unfold set_of_list.
  enough (∀ acc, x ∈ fold_left (λ s n, set_add n s) l acc ↔ x ∈ acc ∨ x ∈ l) as H.
  { rewrite H. split; [intros [Hn|?]; [by apply elem_of_nil in Hn|done]|by right]. }
  induction l as [|a l IH]; intros acc; simpl.
  - split; [by left|]. intros [?|Hn]; [done|by apply elem_of_nil in Hn].
  - rewrite IH, elem_of_set_add, elem_of_cons. tauto.
Qed.


Lemma best_of_try (rnd : Q → num) (sqrt : Q → Q) (fuel : nat) (g : graph) (cur : nat)
    (seen : list nat) (b : best) (x : nat) (b' : best) :
  best_of rnd sqrt fuel g cur seen b →
  try_goal rnd sqrt fuel g cur b x = Ret b' →
  best_of rnd sqrt fuel g cur (seen ++ [x]) b'.
Proof.
  intros Hb Ht. unfold try_goal in Ht.
  apply bind_Ret in Ht as (path & Ha & Ht). destruct path as [p'|].
  - apply bind_Ret in Ht as (d' & Hd & Ht).
    destruct (num_lt d' (bestDist b)) eqn:Elt; injection Ht as <-.
    + unfold best_of. simpl. exists seen, [], p', d'.
      split; [done|]. split; [done|]. split; [done|]. split; [done|]. split; [done|].
      assert (num_lt d' PInf = true) as Hfin by (by destruct d', (bestDist b)).
      split; [done|].
      split; [|intros ? ? ? Hn; by apply elem_of_nil in Hn].
      intros x0 p0 d0 Hx0 Ha0 Hd0 Hle. unfold best_of in Hb.
      destruct (bestGoal b) as [bg|].
      * destruct Hb as (l1 & l2 & p & d & -> & Hap & _ & Hdp & Hbd & _ & Hl1 & Hl2).
        rewrite Hbd in Elt.
        apply elem_of_app in Hx0 as [Hx0|Hx0].
        { apply (Hl1 _ _ _ Hx0 Ha0 Hd0). eapply num_le_trans; [exact Hle|].
          by apply num_lt_le. }
        apply elem_of_cons in Hx0 as [->|Hx0].
        { rewrite Hap in Ha0. injection Ha0 as <-.
          rewrite Hdp in Hd0. injection Hd0 as <-.
          by rewrite (num_le_lt_false _ _ Hle) in Elt. }
        specialize (Hl2 _ _ _ Hx0 Ha0 Hd0).
        by rewrite (num_le_lt_trans _ _ _ Hle Elt) in Hl2.
      * destruct Hb as (_ & _ & Hnone). specialize (Hnone _ _ _ Hx0 Ha0 Hd0).
        by rewrite (num_le_lt_trans _ _ _ Hle Hfin) in Hnone.
    + unfold best_of in *. destruct (bestGoal b) as [bg|].
      * destruct Hb as (l1 & l2 & p & d & -> & Hap & Hbp & Hdp & Hbd & Hdf & Hl1 & Hl2).
        rewrite Hbd in Elt.
        exists l1, (l2 ++ [x]), p, d.
        split; [by rewrite <- app_assoc|]. split; [done|]. split; [done|].
        split; [done|]. split; [done|]. split; [done|]. split; [done|].
        intros x0 p0 d0 Hx0 Ha0 Hd0. apply elem_of_app in Hx0 as [Hx0|Hx0]; [eauto|].
        apply list_elem_of_singleton in Hx0 as ->.
        rewrite Ha in Ha0. injection Ha0 as <-.
        rewrite Hd in Hd0. by injection Hd0 as <-.
      * destruct Hb as (Hinf & Hbp & Hnone). rewrite Hinf in Elt.
        split; [done|]. split; [done|].
        intros x0 p0 d0 Hx0 Ha0 Hd0. apply elem_of_app in Hx0 as [Hx0|Hx0]; [eauto|].
        apply list_elem_of_singleton in Hx0 as ->.
        rewrite Ha in Ha0. injection Ha0 as <-.
        rewrite Hd in Hd0. by injection Hd0 as <-.
  - injection Ht as <-. unfold best_of in *. destruct (bestGoal b) as [bg|].
    + destruct Hb as (l1 & l2 & p & d & -> & Hap & Hbp & Hdp & Hbd & Hdf & Hl1 & Hl2).
      exists l1, (l2 ++ [x]), p, d.
      split; [by rewrite <- app_assoc|]. split; [done|]. split; [done|].
      split; [done|]. split; [done|]. split; [done|]. split; [done|].
      intros x0 p0 d0 Hx0 Ha0 Hd0. apply elem_of_app in Hx0 as [Hx0|Hx0]; [eauto|].
      apply list_elem_of_singleton in Hx0 as ->. by rewrite Ha in Ha0.
    + destruct Hb as (Hinf & Hbp & Hnone). split; [done|]. split; [done|].
      intros x0 p0 d0 Hx0 Ha0 Hd0. apply elem_of_app in Hx0 as [Hx0|Hx0]; [eauto|].
      apply list_elem_of_singleton in Hx0 as ->. by rewrite Ha in Ha0.
Qed.

Lemma best_of_fold (rnd : Q → num) (sqrt : Q → Q) (fuel : nat) (g : graph) (cur : nat)
    (l seen : list nat) (b0 b : best) :
  best_of rnd sqrt fuel g cur seen b0 →
  foldM (try_goal rnd sqrt fuel g cur) l b0 = Ret b →
  best_of rnd sqrt fuel g cur (seen ++ l) b.
Proof.
  revert seen b0. induction l as [|x l IH]; intros seen b0 Hb Hf; simpl in Hf.
  - injection Hf as <-. by rewrite app_nil_r.
  - apply bind_Ret in Hf as (b1 & Ht & Hf).
    replace (seen ++ x :: l) with ((seen ++ [x]) ++ l) by (by rewrite <- app_assoc).
    eapply IH; [|done]. by eapply best_of_try.
Qed.

Lemma select_best_spec (rnd : Q → num) (sqrt : Q → Q) (fuel : nat) (g : graph) (cur : nat)
    (remaining : list nat) (b : best) :
  select_best rnd sqrt fuel g cur remaining = Ret b →
  best_of rnd sqrt fuel g cur remaining b.
Proof.
  intros Hs. unfold select_best in Hs.
  apply (best_of_fold rnd sqrt fuel g cur remaining [] _ b) in Hs; [done|].
  split; [done|]. split; [done|]. intros x p d Hx. by apply elem_of_nil in Hx.
Qed.

Lemma multi_loop_S (rnd : Q → num) (sqrt : Q → Q) (t fuel : nat) (g : graph) (cur : nat)
    (rem fp : list nat) :
  rem ≠ [] →
  multi_loop rnd sqrt (S t) fuel g cur rem fp
  = select_best rnd sqrt fuel g cur rem ≫= λ b,
      if falsy (bestGoal b) then Ret (fp, rem)
      else match bestGoal b, bestPath b with
           | Some goal, Some p =>
               multi_loop rnd sqrt t fuel g goal (set_delete goal rem) (fp ++ drop 1 p)
           | _, _ => Throw
           end.
Proof. by destruct rem. Qed.


(** ** [calculatePathDistance] returns *)

Lemma distance_loop_cons2 (rnd : Q → num) (sqrt : Q → Q) (ns : list node) (a b : nat)
    (rest : list nat) (acc : num) :
  distance_loop rnd sqrt ns (a :: b :: rest) acc
  = heuristic_at rnd sqrt ns a b ≫= λ h,
      distance_loop rnd sqrt ns (b :: rest) (fadd rnd acc h).
Proof. done. Qed.

Lemma distance_loop_returns (rnd : Q → num) (sqrt : Q → Q) (ns : list node)
    (p : list nat) (acc : num) :
  (∀ n, n ∈ p → is_Some (ns !! n)) →
  ∃ d, distance_loop rnd sqrt ns p acc = Ret d.
Proof.
  revert acc. induction p as [|a p IH]; intros acc Hp; [by exists acc|].
  destruct p as [|b p]; [by exists acc|]. rewrite distance_loop_cons2.
  unfold heuristic_at.
  destruct (Hp a) as [na ->]; [by left|]. destruct (Hp b) as [nb ->]; [by right; left|].
  simpl. apply IH. intros n Hn. apply Hp. by right.
Qed.

Lemma hops_nodes (g : graph) (p : list nat) (s : nat) :
  endpoints_ok g → hops_ok (edges g) p → head p = Some s →
  is_Some (nodes g !! s) →
  ∀ n, n ∈ p → is_Some (nodes g !! n).
Proof.
  intros He. revert s.
  induction p as [|a p IH]; intros s Hh Hhd Hs n Hn; [by apply elem_of_nil in Hn|].
  injection Hhd as ->. apply elem_of_cons in Hn as [->|Hn]; [done|].
  destruct p as [|b p]; [by apply elem_of_nil in Hn|].
  destruct Hh as [Hab Hh]. apply (IH b); [done|done| |done].
  by eapply adjacent_node.
Qed.

(** ** The multi-goal planner returns *)

(** One amount of fuel serves a whole list of searches. *)
Lemma astar_fuel_for (rnd : Q → num) (sqrt : Q → Q) (g : graph) (l : list (nat * nat)) :
  rounding rnd → nonneg_weights g → endpoints_ok g →
  (∀ s t, (s, t) ∈ l → is_Some (nodes g !! s) ∧ is_Some (nodes g !! t)) →
  ∃ fuel, ∀ s t, (s, t) ∈ l →
    ∃ r, ∀ fuel', (fuel ≤ fuel')%nat → astar rnd sqrt fuel' g s t = Ret r.
Proof.
  intros Hrnd Hnn He. induction l as [|[s t] l IH]; intros Hl.
  - exists 0%nat. intros s t Hin. by apply elem_of_nil in Hin.
  - destruct IH as [f1 H1]; [intros ? ? ?; apply Hl; by right|].
    destruct (astar_outcome rnd sqrt g s t Hrnd Hnn) as (f2 & r0 & _ & Hr & Hv).
    destruct (Hl s t) as [Hs Ht]; [by left|]. destruct (Hv He Hs Ht) as [r ->].
    exists (max f1 f2). intros s' t' Hin. apply elem_of_cons in Hin as [[= -> ->]|Hin].
    + exists r. intros fuel' Hle. apply Hr. lia.
    + destruct (H1 _ _ Hin) as [r' Hr']. exists r'. intros fuel' Hle. apply Hr'. lia.
Qed.

Lemma try_goals_stable (rnd : Q → num) (sqrt : Q → Q) (g : graph) (F cur : nat)
    (l : list nat) :
  rounding rnd → nonneg_weights g → endpoints_ok g → is_Some (nodes g !! cur) →
  (∀ x, x ∈ l → ∃ r, ∀ fuel', (F ≤ fuel')%nat → astar rnd sqrt fuel' g cur x = Ret r) →
  ∀ b0, ∃ b, ∀ fuel', (F ≤ fuel')%nat →
    foldM (try_goal rnd sqrt fuel' g cur) l b0 = Ret b.
Proof.
  intros Hrnd Hnn He Hc. induction l as [|x l IH]; intros Hl b0.
  - by exists b0.
  - destruct (Hl x) as [r Hr]; [by left|].
    assert (∃ b1, ∀ fuel', (F ≤ fuel')%nat → try_goal rnd sqrt fuel' g cur b0 x = Ret b1)
      as [b1 Hb1].
    { destruct r as [p|].
      - pose proof (astar_result rnd Hrnd sqrt g cur x F (Some p) Hnn (Hr F (Nat.le_refl _)))
          as (Hhd & _ & Hh).
        destruct (distance_loop_returns rnd sqrt (nodes g) p (Fin 0)) as (d & Hd).
        { by eapply hops_nodes. }
        exists (if num_lt d (bestDist b0)
                then {| bestGoal := Some x; bestPath := Some p; bestDist := d |}
                else b0).
        intros fuel' Hle. unfold try_goal. rewrite (Hr _ Hle). simpl.
        unfold calculatePathDistance. rewrite Hd. simpl.
        by destruct (num_lt d (bestDist b0)).
      - exists b0. intros fuel' Hle. unfold try_goal. by rewrite (Hr _ Hle). }
    destruct (IH (λ y Hy, Hl y (proj2 (elem_of_cons _ _ _) (or_intror Hy))) b1) as [b Hb].
    exists b. intros fuel' Hle. simpl. rewrite (Hb1 _ Hle). simpl. by apply Hb.
Qed.



Lemma multi_loop_inv (rnd : Q → num) (sqrt : Q → Q) (fuel : nat) (g : graph) (turns : nat) :
  rounding rnd → nonneg_weights g →
  ∀ cur rem fp fp' rem',
    last fp = Some cur →
    multi_loop rnd sqrt turns fuel g cur rem fp = Ret (fp', rem') →
    (∀ x, x ∈ rem' → x ∈ rem) ∧
    (∀ x, x ∈ rem → x ∈ rem' ∨ x ∈ fp') ∧
    (∀ x, x ∈ fp → x ∈ fp').
Proof.
  intros Hrnd Hnn. induction turns as [|t IH]; intros cur rem fp fp' rem' Hlast Hm.
  - destruct rem; simpl in Hm; [|done]. injection Hm as <- <-. auto.
  - destruct rem as [|a r] eqn:Erem; [simpl in Hm; injection Hm as <- <-; auto|].
    rewrite <- Erem in *. assert (rem ≠ []) as Hne by (by rewrite Erem).
    simpl in Hm. rewrite Erem in Hm at 1.
    apply bind_Ret in Hm as (b & Hs & Hm).
    destruct (falsy (bestGoal b)) eqn:Ef; [injection Hm as <- <-; auto|].
    destruct (bestGoal b) as [bg|] eqn:Ebg; [|done]. simpl in Ef.
    apply Nat.eqb_neq in Ef.
    pose proof (select_best_spec _ _ _ _ _ _ _ Hs) as Hb. unfold best_of in Hb.
    rewrite Ebg in Hb. destruct Hb as (l1 & l2 & p & d & Hrem & Hap & Hbp & _).
    rewrite Hbp in Hm.
    destruct (astar_result _ Hrnd _ _ _ _ _ _ Hnn Hap) as (Hhd & Hlst & _).
    assert (last (fp ++ drop 1 p) = Some bg) as Hlast'.
    { destruct p as [|c [|c' p]]; [done| |].
      - simpl in *. rewrite app_nil_r. congruence.
      - simpl. rewrite last_app. rewrite last_cons_cons in Hlst. simpl.
        by rewrite Hlst. }
    destruct (IH _ _ _ _ _ Hlast' Hm) as (H1 & H2 & H3).
    split; [|split].
    + intros x Hx. apply H1 in Hx. by apply elem_of_set_delete in Hx as [_ ?].
    + intros x Hx. destruct (decide (x = bg)) as [->|Hxb].
      * right. apply H3. by apply last_Some_elem_of.
      * apply H2. by apply elem_of_set_delete.
    + intros x Hx. apply H3, elem_of_app. by left.
Qed.

(** The bound on the turns of the multi-goal loop plays no part once it
    is at least the number of remaining goals, as every turn that goes
    on removes one of them. *)
Lemma multi_loop_turns (rnd : Q → num) (sqrt : Q → Q) (fuel : nat) (g : graph) (t1 t2 : nat) :
  ∀ cur rem fp, (length rem ≤ t1)%nat → (length rem ≤ t2)%nat →
  multi_loop rnd sqrt t1 fuel g cur rem fp = multi_loop rnd sqrt t2 fuel g cur rem fp.
Proof.
  revert t2. induction t1 as [|t1 IH]; intros t2 cur rem fp H1 H2.
  - destruct rem; [|simpl in H1; lia]. by destruct t2.
  - destruct rem as [|a r] eqn:E; [by destruct t2|]. rewrite <- E in *.
    assert (rem ≠ []) as Hne by (by rewrite E).
    destruct t2 as [|t2]; [rewrite E in H2; simpl in H2; lia|].
    rewrite !multi_loop_S by done.
    destruct (select_best rnd sqrt fuel g cur rem) as [b| |] eqn:Hs; simpl; [|done|done].
    destruct (falsy (bestGoal b)); [done|].
    destruct (bestGoal b) as [bg|] eqn:Ebg; [|done].
    destruct (bestPath b) as [p|]; [|done].
    pose proof (select_best_spec _ _ _ _ _ _ _ Hs) as Hb. unfold best_of in Hb.
    rewrite Ebg in Hb. destruct Hb as (l1 & l2 & _ & _ & Hrem & _).
    assert (bg ∈ rem) as Hin by (rewrite Hrem, elem_of_app; right; by left).
    pose proof (length_set_delete bg rem Hin).
    apply IH; lia.
Qed.

(** With fuel enough for every search between nodes of [S], the
    multi-goal loop returns, and returns the same whatever more fuel it
    is given. *)
Lemma multi_loop_total (rnd : Q → num) (sqrt : Q → Q) (g : graph) (F : nat) (S : list nat) :
  rounding rnd → nonneg_weights g → endpoints_ok g →
  (∀ n, n ∈ S → is_Some (nodes g !! n)) →
  (∀ s t, s ∈ S → t ∈ S →
     ∃ r, ∀ fuel', (F ≤ fuel')%nat → astar rnd sqrt fuel' g s t = Ret r) →
  ∀ turns cur rem fp,
    cur ∈ S → (∀ x, x ∈ rem → x ∈ S) → (length rem ≤ turns)%nat →
  ∃ res, ∀ fuel', (F ≤ fuel')%nat →
    multi_loop rnd sqrt turns fuel' g cur rem fp = Ret res.
Proof.
  intros Hrnd Hnn He HS Hst. induction turns as [|t IH]; intros cur rem fp Hc Hrem Hlen.
  - destruct rem; [|simpl in Hlen; lia]. by exists (fp, []).
  - destruct rem as [|a r] eqn:E; [by exists (fp, [])|]. rewrite <- E in *.
    assert (rem ≠ []) as Hne by (by rewrite E).
    destruct (try_goals_stable rnd sqrt g F cur rem Hrnd Hnn He (HS _ Hc))
      with (b0 := {| bestGoal := None; bestPath := None; bestDist := PInf |})
      as [b Hb]; [intros x Hx; apply Hst; auto|].
    fold (select_best rnd sqrt) in Hb.
    destruct (falsy (bestGoal b)) eqn:Ef.
    { exists (fp, rem). intros fuel' Hle. rewrite multi_loop_S by done.
      change (foldM (try_goal rnd sqrt fuel' g cur) rem _)
        with (select_best rnd sqrt fuel' g cur rem) in Hb.
      unfold select_best. rewrite (Hb _ Hle). simpl. by rewrite Ef. }
    destruct (bestGoal b) as [bg|] eqn:Ebg; [|done].
    assert (select_best rnd sqrt F g cur rem = Ret b) as HsF by (apply Hb; lia).
    pose proof (select_best_spec _ _ _ _ _ _ _ HsF) as Hbo. unfold best_of in Hbo.
    rewrite Ebg in Hbo. destruct Hbo as (l1 & l2 & p & d & Hl & _ & Hbp & _).
    assert (bg ∈ rem) as Hin by (rewrite Hl, elem_of_app; right; by left).
    pose proof (length_set_delete bg rem Hin) as Hlt.
    destruct (IH bg (set_delete bg rem) (fp ++ drop 1 p)) as [res Hres].
    { by apply Hrem. }
    { intros x Hx. apply elem_of_set_delete in Hx as [_ Hx]. by apply Hrem. }
    { lia. }
    exists res. intros fuel' Hle. rewrite multi_loop_S by done.
    unfold select_best. rewrite (Hb _ Hle). simpl. rewrite Ebg, Ef, Hbp. by apply Hres.
Qed.

(** C3, as amended.  On non-negative weights, with the start, the goals
    and the ends of every edge in the node array, the multi-goal branch
    of [calculatePath] returns, and returns the accumulated path and
    nothing else.  When its loop stops, every goal asked for either lies
    on that path or is still in the [remaining] set, which holds only
    goals asked for and is dropped. *)
Theorem multi_goals_accounted (rnd : Q → num) (sqrt : Q → Q) (g : graph) (startNode : nat)
    (multiGoals : list nat) :
  rounding rnd → nonneg_weights g → endpoints_ok g →
  is_Some (nodes g !! startNode) →
  (∀ x, x ∈ multiGoals → is_Some (nodes g !! x)) →
  ∃ fuel fullPath remaining,
    (∀ fuel', (fuel ≤ fuel')%nat →
       multi_final rnd sqrt fuel' g startNode multiGoals = Ret (fullPath, remaining) ∧
       calculatePath_multi rnd sqrt fuel' g startNode multiGoals = Ret fullPath) ∧
    (∀ x, x ∈ remaining → x ∈ multiGoals) ∧
    (∀ x, x ∈ multiGoals → x ∈ remaining ∨ x ∈ fullPath).
Proof.
  intros Hrnd Hnn He Hs Hg.
  set (S := startNode :: multiGoals).
  assert (∀ n, n ∈ S → is_Some (nodes g !! n)) as HS.
  { intros n Hn. apply elem_of_cons in Hn as [->|Hn]; auto. }
  destruct (astar_fuel_for rnd sqrt g (list_prod S S) Hrnd Hnn He) as [F HF].
  { intros s t Hin. apply list_elem_of_In, in_prod_iff in Hin as [H1 H2].
    split; apply HS; by apply list_elem_of_In. }
  destruct (multi_loop_total rnd sqrt g F S Hrnd Hnn He HS) with
    (turns := length (set_of_list multiGoals)) (cur := startNode)
    (rem := set_of_list multiGoals) (fp := [startNode]) as [[fp rem] Hres].
  { intros s t H1 H2. apply HF, list_elem_of_In, in_prod_iff.
    split; by apply list_elem_of_In. }
  { by left. }
  { intros x Hx. right. by apply elem_of_set_of_list. }
  { done. }
  exists F, fp, rem. split.
  - intros fuel' Hle. unfold calculatePath_multi, multi_final.
    by rewrite (Hres _ Hle).
  - destruct (multi_loop_inv rnd sqrt F g _ Hrnd Hnn startNode _ [startNode] _ _ eq_refl
                (Hres F (Nat.le_refl _))) as (H1 & H2 & _).
    split.
    + intros x Hx. by apply elem_of_set_of_list, H1.
    + intros x Hx. by apply H2, elem_of_set_of_list.
Qed.

(** ** The distance and the time shown *)

Lemma distance_loop_legs (rnd : Q → num) (sqrt : Q → Q) (ns : list node) (p : list nat)
    (acc : num) :
  (∀ n, n ∈ p → is_Some (ns !! n)) →
  distance_loop rnd sqrt ns p acc = Ret (fold_left (fadd rnd) (legs rnd sqrt ns p) acc).
Proof.
  revert acc. induction p as [|a p IH]; intros acc Hp; [done|].
  destruct p as [|b p]; [done|].
  destruct (Hp a) as [na Hna]; [by left|].
  destruct (Hp b) as [nb Hnb]; [by right; left|].
  rewrite distance_loop_cons2. unfold heuristic_at. rewrite Hna, Hnb.
  change (distance_loop rnd sqrt ns (b :: p) (fadd rnd acc (heuristic rnd sqrt na nb))
          = Ret (fold_left (fadd rnd) (legs rnd sqrt ns (a :: b :: p)) acc)).
  rewrite IH by (intros n Hn; apply Hp; by right).
  cbn [legs]. by rewrite Hna, Hnb.
Qed.

Lemma legs_snoc2 (rnd : Q → num) (sqrt : Q → Q) (ns : list node) (q : list nat) (y z : nat) :
  legs rnd sqrt ns (q ++ [y; z]) = legs rnd sqrt ns (q ++ [y]) ++ legs rnd sqrt ns [y; z].
Proof.
  induction q as [|a q IH]; [done|].
  destruct q as [|b q]; [done|].
  change (legs rnd sqrt ns (a :: b :: (q ++ [y; z]))
          = legs rnd sqrt ns (a :: b :: (q ++ [y])) ++ legs rnd sqrt ns [y; z]).
  cbn [legs]. cbn [legs] in IH. simpl in IH. simpl. by rewrite IH.
Qed.

Lemma straight_line_snoc2 (rnd : Q → num) (sqrt : Q → Q) (ns : list node) (q : list nat)
    (y z : nat) (ny nz : node) :
  ns !! y = Some ny → ns !! z = Some nz →
  straight_line rnd sqrt ns (q ++ [y; z])
  = fadd rnd (straight_line rnd sqrt ns (q ++ [y])) (heuristic rnd sqrt ny nz).
Proof.
  intros Hy Hz. unfold straight_line. rewrite legs_snoc2, fold_left_app.
  cbn [legs]. by rewrite Hy, Hz.
Qed.

Lemma path_cost_snoc2 (rnd : Q → num) (g : graph) (q : list nat) (y z : nat) :
  path_cost rnd g (q ++ [y; z])
  = fadd rnd (path_cost rnd g (q ++ [y])) (step_weight (edges g) y z).
Proof.
  unfold path_cost. rewrite !reverse_app.
  change (reverse [y; z]) with [z; y]. change (reverse [y]) with [y]. done.
Qed.

Lemma hops_ok_last2 (es : list edge) (q : list nat) (y z : nat) :
  hops_ok es (q ++ [y; z]) → hops_ok es (q ++ [y]) ∧ adjacent es y z.
Proof.
  induction q as [|a q IH]; [simpl; tauto|].
  destruct q as [|b q].
  - simpl. tauto.
  - change (adjacent es a b ∧ hops_ok es ((b :: q) ++ [y; z])
            → (adjacent es a b ∧ hops_ok es ((b :: q) ++ [y])) ∧ adjacent es y z).
    tauto.
Qed.

Lemma straight_line_path_cost (rnd : Q → num) (sqrt : Q → Q) (g : graph) (p : list nat) :
  rounding rnd → euclidean_weights rnd sqrt g →
  (∀ n, n ∈ p → is_Some (nodes g !! n)) →
  hops_ok (edges g) p →
  num_eq (straight_line rnd sqrt (nodes g) p) (path_cost rnd g p).
Proof.
  intros Hrnd He. induction p as [|z q IH] using rev_ind; intros Hp Hh; [done|].
  destruct q as [|y q _] using rev_ind; [done|].
  rewrite <- app_assoc in *. simpl in *.
  apply hops_ok_last2 in Hh as [Hh Hyz].
  destruct (Hp y) as [ny Hny]; [rewrite elem_of_app; right; by left|].
  destruct (Hp z) as [nz Hnz]; [rewrite elem_of_app; right; right; by left|].
  rewrite (straight_line_snoc2 _ _ _ _ _ _ ny nz), path_cost_snoc2 by done.
  apply fadd_proper; [done| |].
  - apply IH; [|done]. intros n Hn. apply Hp. rewrite elem_of_app in *.
    destruct Hn as [Hn|Hn]; [by left|]. right. apply list_elem_of_singleton in Hn as ->.
    by left.
  - apply num_eq_sym.
    destruct (find_edge_adjacent _ _ _ Hyz) as [e Hf].
    unfold step_weight. rewrite Hf. apply find_edge_Some in Hf as [Hin Hj].
    apply joins_ends in Hj as [[Hf Ht]|[Ht Hf]].
    + rewrite <- Hf in Hny. rewrite <- Ht in Hnz. by destruct (He e ny nz Hin Hny Hnz).
    + rewrite <- Hf in Hnz. rewrite <- Ht in Hny. by destruct (He e nz ny Hin Hnz Hny).
Qed.

Lemma Qmake_tenths (n : Z) : n # 10 == inject_Z n * (1 # 10).
Proof. unfold Qeq, inject_Z. simpl. lia. Qed.

Lemma round_tenths_close (q : Q) : Qabs (round_tenths q - q) <= 1 # 20.
Proof.
  unfold round_tenths.
  pose proof (Qfloor_le (q * 10 + (1 # 2))) as Hlo.
  pose proof (Qlt_floor (q * 10 + (1 # 2))) as Hhi.
  rewrite inject_Z_plus in Hhi. change (inject_Z 1) with 1 in Hhi.
  rewrite Qmake_tenths. apply Qabs_Qle_condition. split; lra.
Qed.

Lemma toFixed1_fin_close (q : Q) : Qabs (toFixed1_fin q - q) <= 1 # 20.
Proof.
  unfold toFixed1_fin. destruct (Qltb q 0); [|apply round_tenths_close].
  pose proof (round_tenths_close (- q)) as H.
  apply Qabs_Qle_condition in H as [H1 H2]. apply Qabs_Qle_condition. split; lra.
Qed.

(** [toFixed(1)] of a finite number is a decimal at most a twentieth
    away from it. *)
Lemma toFixed1_close (v : num) (q : Q) :
  v = Fin q → ∃ s, toFixed1 v = Fin s ∧ Qabs (s - q) <= 1 # 20.
Proof.
  intros ->. unfold toFixed1. destruct (Qle_bool _ _).
  - exists q. split; [done|]. apply Qabs_Qle_condition. split; lra.
  - exists (toFixed1_fin q). split; [done|]. apply toFixed1_fin_close.
Qed.

(** C7, as amended.  For a non-empty path over nodes of the node array,
    [calculatePathDistance] returns the straight-line distances between
    the consecutive nodes of the path, added up from the first on and
    rounded to a double after every addition; no edge is read.  The
    distance shown is [toFixed(1)] of that sum, and the time shown is
    [toFixed(1)] of the double of the distance shown divided by 50, the
    quotient rounded to a double first; each [toFixed(1)] of a finite
    number is at most a twentieth away from it.  The sum is the cost of
    the path, its weights added up in the same order, when every edge
    weighs the straight-line distance between its ends. *)
Theorem shown_distance_and_time (rnd : Q → num) (sqrt : Q → Q) (g : graph) (path : list nat) :
  path ≠ [] →
  (∀ n, n ∈ path → is_Some (nodes g !! n)) →
  ∃ d,
    calculatePathDistance rnd sqrt g path = Ret d ∧
    d = straight_line rnd sqrt (nodes g) path ∧
    pathDistance rnd sqrt g path = Ret (toFixed1 d) ∧
    (∀ q, d = Fin q → ∃ s, toFixed1 d = Fin s ∧ Qabs (s - q) <= 1 # 20) ∧
    estimatedTime rnd sqrt g path
    = Ret (toFixed1 (fdiv rnd (of_string rnd (toFixed1 d)) 50)) ∧
    (∀ q, fdiv rnd (of_string rnd (toFixed1 d)) 50 = Fin q →
       ∃ s, toFixed1 (fdiv rnd (of_string rnd (toFixed1 d)) 50) = Fin s ∧
            Qabs (s - q) <= 1 # 20) ∧
    (rounding rnd → euclidean_weights rnd sqrt g → hops_ok (edges g) path →
     num_eq d (path_cost rnd g path)).
Proof.
  intros Hne Hp.
  pose proof (distance_loop_legs rnd sqrt (nodes g) path (Fin 0) Hp) as Hd.
  exists (straight_line rnd sqrt (nodes g) path).
  split; [done|]. split; [done|].
  split; [unfold pathDistance, calculatePathDistance; destruct path; [done|]; by rewrite Hd|].
  split; [apply toFixed1_close|].
  split; [unfold estimatedTime, calculatePathDistance; destruct path; [done|]; by rewrite Hd|].
  split; [apply toFixed1_close|].
  intros Hrnd He Hh. by apply straight_line_path_cost.
Qed.

(** ** The edges of [generateSampleGraph] *)

Lemma elem_of_connect_nearby (rnd : Q → num) (sqrt : Q → Q) (ns : list node) (e : edge) :
  e ∈ connect_nearby rnd sqrt ns →
  ∃ a b, (from e < to e)%nat ∧
         ns !! from e = Some a ∧ ns !! to e = Some b ∧
         weight e = heuristic rnd sqrt a b ∧ num_lt (weight e) (Fin 100) = true.
Proof.
  unfold connect_nearby. intros He.
  apply list_elem_of_In, in_flat_map in He as (i & Hi & He).
  destruct (ns !! i) as [a|] eqn:Ea; [|done].
  unfold connect_from in He. apply in_flat_map in He as (j & Hj & He).
  destruct (ns !! j) as [b|] eqn:Eb; [|done]. cbv zeta in He.
  destruct (num_lt _ (Fin 100)) eqn:Elt; [|done].
  destruct He as [<-|[]]. simpl. exists a, b.
  apply in_seq in Hj. split; [lia|]. split; [done|]. split; [done|].
  split; [done|]. exact Elt.
Qed.

Lemma connect_nearby_endpoints (rnd : Q → num) (sqrt : Q → Q) (ns : list node) :
  endpoints_ok {| nodes := ns; edges := connect_nearby rnd sqrt ns |}.
Proof.
  intros e He. apply elem_of_connect_nearby in He as (a & b & _ & Ha & Hb & _).
  simpl. rewrite Ha, Hb. eauto.
Qed.

Lemma fsub_swap (rnd : Q → num) (a b : num) :
  rounding rnd → odd_rounding rnd → num_eq (fsub rnd b a) (fneg (fsub rnd a b)).
Proof.
  intros Hrnd Hodd. destruct a as [| | |p], b as [| | |q]; cbn [fsub fneg]; try done.
  apply num_eq_trans with (rnd (- (p - q))); [|apply Hodd].
  apply rnd_proper; [done|]. lra.
Qed.

Lemma fmul_fneg (rnd : Q → num) (a : num) :
  rounding rnd → num_eq (fmul rnd (fneg a) (fneg a)) (fmul rnd a a).
Proof.
  intros Hrnd. destruct a as [| | |p]; cbn [fmul fneg]; try done.
  apply rnd_proper; [done|]. lra.
Qed.

Lemma fsqrt_proper (sqrt : Q → Q) (a a' : num) :
  Proper (Qeq ==> Qeq) sqrt → num_eq a a' → num_eq (fsqrt sqrt a) (fsqrt sqrt a').
Proof.
  intros Hp. destruct a as [| | |p], a' as [| | |q]; cbn [fsqrt]; try done.
  simpl. intros H. rewrite (Qltb_proper p q 0 0 H) by reflexivity.
  destruct (Qltb q 0); [done|]. simpl. by apply Hp.
Qed.

Lemma heuristic_sym (rnd : Q → num) (sqrt : Q → Q) (a b : node) :
  rounding rnd → odd_rounding rnd → Proper (Qeq ==> Qeq) sqrt →
  num_eq (heuristic rnd sqrt a b) (heuristic rnd sqrt b a).
Proof.
  intros Hrnd Hodd Hp. unfold heuristic. cbv zeta. apply fsqrt_proper; [done|].
  apply fadd_proper; [done| |].
  - apply num_eq_sym.
    apply num_eq_trans with (fmul rnd (fneg (fsub rnd (x a) (x b))) (fneg (fsub rnd (x a) (x b))));
      [|by apply fmul_fneg].
    apply fmul_proper; try done; by apply fsub_swap.
  - apply num_eq_sym.
    apply num_eq_trans with (fmul rnd (fneg (fsub rnd (y a) (y b))) (fneg (fsub rnd (y a) (y b))));
      [|by apply fmul_fneg].
    apply fmul_proper; try done; by apply fsub_swap.
Qed.


Lemma fsqrt_nn (sqrt : Q → Q) (a : num) :
  (∀ q, 0 <= sqrt q) → fsqrt sqrt a ≠ NaN → nn (fsqrt sqrt a).
Proof.
  intros Hs. destruct a as [| | |p]; cbn [fsqrt]; try done.
  destruct (Qltb p 0); [done|]. intros _. apply Hs.
Qed.

Lemma connect_nearby_nonneg (rnd : Q → num) (sqrt : Q → Q) (ns : list node) :
  (∀ q, 0 <= sqrt q) →
  nonneg_weights {| nodes := ns; edges := connect_nearby rnd sqrt ns |}.
Proof.
  intros Hs e He. apply elem_of_connect_nearby in He as (a & b & _ & _ & _ & Hw & Hlt).
  rewrite Hw in *. unfold heuristic in *. cbv zeta in *.
  apply fsqrt_nn; [done|]. intros Hn. by rewrite Hn in Hlt.
Qed.

Lemma exact_sqrt_proper : Proper (Qeq ==> Qeq) exact_sqrt.
Proof. intros p q Hpq. unfold exact_sqrt. by rewrite (Qred_complete _ _ Hpq). Qed.

Lemma exact_sqrt_nonneg (q : Q) : 0 <= exact_sqrt q.
Proof.
  unfold exact_sqrt, Qle. simpl. pose proof (Z.sqrt_nonneg (Qnum (Qred q))). lia.
Qed.

(** ** Attributes the planner does not read *)

Lemma find_edge_with_flags (f : edge → option bool) (es : list edge) (c n : nat) :
  find_edge (map (λ e, {| from := from e; to := to e; weight := weight e;
                          traversable := f e |}) es) c n
  = (λ e, {| from := from e; to := to e; weight := weight e; traversable := f e |})
      <$> find_edge es c n.
Proof.
  unfold find_edge. induction es as [|e es IH]; simpl; [done|].
  unfold joins at 1. simpl. fold (joins c n e). by destruct (joins c n e).
Qed.

Lemma neighbors_with_flags (f : edge → option bool) (es : list edge) (c : nat) :
  neighbors (map (λ e, {| from := from e; to := to e; weight := weight e;
                          traversable := f e |}) es) c
  = neighbors es c.
Proof.
  unfold neighbors. induction es as [|e es IH]; simpl; [done|].
  unfold touches at 1. simpl. fold (touches c e).
  destruct (touches c e); simpl; [|done]. by rewrite IH.
Qed.

Lemma foldM_ext {A B : Type} (f f' : A → B → outcome A) (l : list B) (a : A) :
  (∀ a b, f a b = f' a b) → foldM f l a = foldM f' l a.
Proof.
  intros H. revert a. induction l as [|b l IH]; intros a; simpl; [done|].
  rewrite H. destruct (f' a b); simpl; auto.
Qed.

Lemma relax_with_flags (rnd : Q → num) (sqrt : Q → Q) (f : edge → option bool) (g : graph)
    (goal cur : nat) (st : astar_state) (nb : nat) :
  relax rnd sqrt (with_flags f g) goal cur st nb = relax rnd sqrt g goal cur st nb.
Proof.
  unfold relax, with_flags. simpl. rewrite find_edge_with_flags.
  by destruct (find_edge (edges g) cur nb).
Qed.

Lemma astar_loop_with_flags (rnd : Q → num) (sqrt : Q → Q) (f : edge → option bool) (g : graph)
    (goal fuel : nat) (st : astar_state) :
  astar_loop rnd sqrt fuel (with_flags f g) goal st = astar_loop rnd sqrt fuel g goal st.
Proof.
  revert st. induction fuel as [|k IH]; intros st; simpl; [done|].
  destruct (openSet st) as [|a rest]; [done|].
  destruct (_ =? goal)%nat; [done|].
  unfold expand. simpl. rewrite neighbors_with_flags.
  rewrite (foldM_ext _ _ _ _ (relax_with_flags rnd sqrt f g goal _)).
  destruct (foldM _ _ _); simpl; auto.
Qed.

Lemma astar_with_flags (rnd : Q → num) (sqrt : Q → Q) (f : edge → option bool) (g : graph)
    (start goal fuel : nat) :
  astar rnd sqrt fuel (with_flags f g) start goal = astar rnd sqrt fuel g start goal.
Proof.
  unfold astar. simpl. destruct (heuristic_at rnd sqrt (nodes g) start goal); simpl; [|done|done].
  apply astar_loop_with_flags.
Qed.

(** ** The cost model and the planner *)

(** C8, as amended.  In the cost model of the specification a positive
    penalty raises the effective cost of the penalized edge by exactly
    its amount, a second one raises it again, and no other edge of the
    store changes.  The planner reads none of this: it adds the stored
    [weight] of an edge, and its outcome is the same whatever the
    [traversable] attributes of the edges are. *)
Theorem penalty_and_flags (rnd : Q → num) (sqrt : Q → Q) (s : CostModel.edge_store) (k : nat * nat)
    (e : CostModel.store_edge) (a1 a2 : Q) (g : graph) (f : edge → option bool)
    (start goal fuel : nat) :
  s !! k = Some e → 0 < a1 → 0 < a2 →
  ∃ s1 s2 e1 e2,
    CostModel.apply_penalty s k a1 = Some s1 ∧
    CostModel.apply_penalty s1 k a2 = Some s2 ∧
    s1 !! k = Some e1 ∧ s2 !! k = Some e2 ∧
    CostModel.effective_cost e1 == CostModel.effective_cost e + a1 ∧
    CostModel.effective_cost e < CostModel.effective_cost e1 ∧
    CostModel.effective_cost e1 < CostModel.effective_cost e2 ∧
    (∀ k', k' ≠ k → s1 !! k' = s !! k' ∧ s2 !! k' = s !! k') ∧
    astar rnd sqrt fuel (with_flags f g) start goal = astar rnd sqrt fuel g start goal.
Proof.
  intros Hk H1 H2.
  exists (<[k := CostModel.add_penalty a1 e]> s),
         (<[k := CostModel.add_penalty a2 (CostModel.add_penalty a1 e)]>
            (<[k := CostModel.add_penalty a1 e]> s)),
         (CostModel.add_penalty a1 e),
         (CostModel.add_penalty a2 (CostModel.add_penalty a1 e)).
  unfold CostModel.apply_penalty. rewrite Hk, !lookup_insert_eq.
  do 4 (split; [done|]).
  unfold CostModel.effective_cost. simpl.
  set (c := CostModel.base_cost e / CostModel.reliability e).
  split; [lra|]. split; [lra|]. split; [lra|]. split.
  - intros k' Hne. by rewrite !lookup_insert_ne.
  - apply astar_with_flags.
Qed.

(** * The rest of the planner *)

(** ** Walks of the undirected graph *)

Lemma hops_ok_join (g : graph) (fp p : list nat) (c : nat) :
  hops_ok (edges g) fp → last fp = Some c →
  hops_ok (edges g) p → head p = Some c →
  hops_ok (edges g) (fp ++ drop 1 p).
Proof.
  intros Hfp Hl Hp Hh. destruct p as [|c' p]; [done|]. injection Hh as ->.
  simpl. induction fp as [|a fp IH]; [done|].
  destruct fp as [|b fp].
  - injection Hl as ->. done.
  - destruct Hfp as [Hab Hfp]. rewrite last_cons_cons in Hl.
    split; [done|]. by apply IH.
Qed.

Lemma hops_ok_reverse (g : graph) (p : list nat) :
  hops_ok (edges g) p → hops_ok (edges g) (reverse p).
Proof.
  induction p as [|a p IH]; [done|]. destruct p as [|b p]; [done|].
  intros [Hab Hp]. specialize (IH Hp). rewrite reverse_cons in IH.
  rewrite !reverse_cons, <- app_assoc. simpl.
  apply hops_ok_snoc; [done|]. by apply adjacent_sym.
Qed.

Lemma connected_refl (g : graph) (s : nat) : connected g s s.
Proof. by exists [s]. Qed.

Lemma connected_sym (g : graph) (s t : nat) : connected g s t → connected g t s.
Proof.
  intros (p & Hh & Hl & Hp). exists (reverse p). split; [|split].
  - by rewrite head_reverse.
  - by rewrite last_reverse.
  - by apply hops_ok_reverse.
Qed.

Lemma connected_trans (g : graph) (s t u : nat) :
  connected g s t → connected g t u → connected g s u.
Proof.
  intros (p & Hh & Hl & Hp) (q & Hh' & Hl' & Hq).
  exists (p ++ drop 1 q). split; [|split].
  - destruct p; [done|]. done.
  - destruct q as [|t' [|b q]]; [done| |].
    + simpl in *. rewrite app_nil_r. congruence.
    + simpl. rewrite last_app. rewrite last_cons_cons in Hl'. by rewrite Hl'.
  - by eapply hops_ok_join.
Qed.

Lemma walk_connects (g : graph) (p : list nat) (s x : nat) :
  head p = Some s → hops_ok (edges g) p → x ∈ p → connected g s x.
Proof.
  intros Hh Hp Hx. apply list_elem_of_split in Hx as (l1 & l2 & ->).
  exists (l1 ++ [x]). split; [|split].
  - destruct l1; simpl in *; done.
  - by rewrite last_snoc.
  - apply (hops_ok_app_l g _ l2). by rewrite <- app_assoc.
Qed.


(** ** More on [reconstructPath] *)

Lemma reconstructPath_returns_chain (cf : gmap nat nat) (k : nat) (n : nat)
    (acc p : list nat) :
  reconstructPath k cf n (n :: acc) = Ret p →
  ∃ l, chain cf n l ∧ p = reverse l ++ acc ∧ (length l ≤ S k)%nat.
Proof.
  revert n acc. induction k as [|k IH]; intros n acc; simpl.
  - destruct (cf !! n) eqn:E; [done|]. intros [= <-].
    exists [n]. split; [by apply chain_root|]. split; [done|simpl; lia].
  - destruct (cf !! n) as [q|] eqn:E.
    + intros Hr. apply IH in Hr as (l & Hl & -> & Hlen).
      exists (n :: l). split; [by apply chain_link with q|].
      split; [by rewrite reverse_cons, <- app_assoc|simpl; lia].
    + intros [= <-]. exists [n]. split; [by apply chain_root|].
      split; [done|simpl; lia].
Qed.

Lemma chain_unique (cf : gmap nat nat) (n : nat) (l1 l2 : list nat) :
  chain cf n l1 → chain cf n l2 → l1 = l2.
Proof.
  intros H1. revert l2. induction H1 as [n Hn|n p l Hn Hc IH]; intros l2 H2.
  - inversion H2; subst; [done|congruence].
  - inversion H2 as [? Hn'|? p' l' Hn' Hc']; subst; [congruence|].
    rewrite Hn in Hn'. injection Hn' as <-. f_equal. by apply IH.
Qed.

Lemma chain_suffix (cf : gmap nat nat) (n m : nat) (l1 l2 : list nat) :
  chain cf n (l1 ++ m :: l2) → chain cf m (m :: l2).
Proof.
  revert n. induction l1 as [|a l1 IH]; intros n Hc; simpl in Hc.
  - by destruct (chain_head _ _ _ Hc) as (? & [= <- _]).
  - inversion Hc as [? Hn Heq|? p l Hn Hp]; subst; [by destruct l1|]. by eapply IH.
Qed.

(** The links followed from a node until they stop never pass a node
    twice. *)
Lemma chain_NoDup (cf : gmap nat nat) (n : nat) (l : list nat) :
  chain cf n l → NoDup l.
Proof.
  induction 1 as [n Hn|n p l Hn Hc IH]; [apply NoDup_singleton|].
  constructor; [|done]. intros Hin.
  apply list_elem_of_split in Hin as (l1 & l2 & ->).
  pose proof (chain_suffix _ _ _ _ _ Hc) as Hs.
  pose proof (chain_unique _ _ _ _ Hs (chain_link _ _ _ _ Hn Hc)) as Heq.
  apply (f_equal length) in Heq. simpl in Heq. rewrite length_app in Heq.
  simpl in Heq. lia.
Qed.

Lemma chain_lookup (cf : gmap nat nat) (n : nat) (l : list nat) :
  chain cf n l →
  head l = Some n ∧
  (∃ h, last l = Some h ∧ cf !! h = None) ∧
  ∀ i a b, l !! i = Some a → l !! S i = Some b → cf !! a = Some b.
Proof.
  induction 1 as [n Hn|n p l Hn Hc (Hh & (h & Hl & Hnone) & Hlk)].
  - split; [done|]. split; [by exists n|]. intros [|i] a b Ha Hb; done.
  - split; [done|]. split.
    + exists h. split; [|done]. destruct l; [done|]. by rewrite last_cons_cons.
    + intros [|i] a b Ha Hb.
      * simpl in Ha, Hb. injection Ha as <-. rewrite <- head_lookup, Hh in Hb. congruence.
      * by apply (Hlk i).
Qed.

Lemma lookup_chain (cf : gmap nat nat) (l : list nat) (n : nat) :
  head l = Some n →
  (∃ h, last l = Some h ∧ cf !! h = None) →
  (∀ i a b, l !! i = Some a → l !! S i = Some b → cf !! a = Some b) →
  chain cf n l.
Proof.
  revert n. induction l as [|a l IH]; intros n Hh (h & Hl & Hnone) Hlk; [done|].
  injection Hh as ->. destruct l as [|b l].
  - injection Hl as ->. by apply chain_root.
  - apply chain_link with b; [by apply (Hlk 0%nat)|].
    apply IH; [done|by exists h|]. intros i a' b' Ha Hb. by apply (Hlk (S i)).
Qed.

(** X1.  [reconstructPath], started at [current] with [k] turns of its
    loop allowed, returns [p] exactly when [p] ends at [current], starts
    at a node without [cameFrom] link, follows the links (each node is
    the link of the one after it) and has at most [k + 1] nodes. *)
Theorem reconstructPath_spec (cf : gmap nat nat) (k : nat) (current : nat) (p : list nat) :
  reconstructPath k cf current [current] = Ret p ↔
  last p = Some current ∧
  (∃ h, head p = Some h ∧ cf !! h = None) ∧
  (∀ i a b, p !! i = Some a → p !! S i = Some b → cf !! b = Some a) ∧
  (length p ≤ S k)%nat.
Proof.
  split.
  - intros Hr. apply reconstructPath_returns_chain in Hr as (l & Hl & -> & Hlen).
    rewrite app_nil_r. destruct (chain_lookup _ _ _ Hl) as (Hh & (h & Hla & Hnone) & Hlk).
    split; [by rewrite last_reverse|]. split; [exists h; by rewrite head_reverse|].
    split; [|by rewrite length_reverse].
    intros i a b Ha Hb.
    assert (S i < length l)%nat as Hi.
    { apply lookup_lt_Some in Hb. by rewrite length_reverse in Hb. }
    rewrite reverse_lookup in Ha by lia. rewrite reverse_lookup in Hb by lia.
    apply (Hlk (length l - S (S i))%nat); [done|].
    by replace (S (length l - S (S i))) with (length l - S i)%nat by lia.
  - intros (Hla & (h & Hh & Hnone) & Hlk & Hlen).
    assert (chain cf current (reverse p)) as Hc.
    { apply lookup_chain.
      - by rewrite head_reverse.
      - exists h. by rewrite last_reverse.
      - intros i a b Ha Hb.
        assert (S i < length p)%nat as Hi.
        { apply lookup_lt_Some in Hb. by rewrite length_reverse in Hb. }
        rewrite reverse_lookup in Ha by lia. rewrite reverse_lookup in Hb by lia.
        apply (Hlk (length p - S (S i))%nat); [done|].
        by replace (S (length p - S (S i))) with (length p - S i)%nat by lia. }
    pose proof (reconstructPath_chain _ _ _ Hc k []) as Hr.
    rewrite length_reverse, reverse_involutive, app_nil_r in Hr. by apply Hr.
Qed.

Lemma link_iter_snoc (cf : gmap nat nat) (j : nat) (a b c : nat) :
  link_iter cf j a = Some b → cf !! b = Some c → link_iter cf (S j) a = Some c.
Proof.
  revert a. induction j as [|j IH]; intros a; simpl.
  - intros [= ->] ->. done.
  - destruct (cf !! a) as [q|]; [|done]. intros H1 H2. by apply (IH q).
Qed.

(** X2.  On links that lead from [current] back to [current] the loop
    of [reconstructPath] never ends: no number of turns is enough,
    whatever path it is started with. *)
Theorem reconstructPath_cycle (cf : gmap nat nat) (j : nat) (current : nat) :
  link_iter cf (S j) current = Some current →
  ∀ k path, reconstructPath k cf current path = OutOfFuel.
Proof.
  intros Hc k. revert current Hc. induction k as [|k IH]; intros n Hc path; simpl in *.
  - by destruct (cf !! n).
  - destruct (cf !! n) as [q|] eqn:E; [|done]. apply IH.
    by apply link_iter_snoc with n.
Qed.

(** ** More on [astar] *)

Lemma astar_returns_chain (rnd : Q → num) (sqrt : Q → Q) (g : graph) (start goal fuel : nat)
    (p : list nat) :
  rounding rnd → nonneg_weights g →
  astar rnd sqrt fuel g start goal = Ret (Some p) →
  ∃ st, astar_inv rnd (edges g) start goal st ∧ goal ∈ openSet st ∧
        chain (cameFrom st) goal (reverse p).
Proof.
  intros Hrnd Hnn Hr. unfold astar in Hr.
  destruct (heuristic_at rnd sqrt (nodes g) start goal) as [h0| |]; try done. simpl in Hr.
  destruct (astar_loop_inv rnd sqrt g goal (astar_inv rnd (edges g) start goal)) with (3 := Hr)
    as (st & Hinv & (a & rest & k & Hopen & Hpick & Hrec)).
  { intros. by eapply (astar_inv_expand rnd Hrnd). }
  { by apply astar_inv_init. }
  exists st. split; [done|].
  assert (goal ∈ openSet st) as Hin by (rewrite Hopen, <- Hpick; apply pick_current_elem).
  split; [done|].
  apply reconstructPath_returns_chain in Hrec as (l & Hl & -> & _).
  by rewrite app_nil_r, reverse_involutive.
Qed.

(** X3.  On non-negative weights a path returned by [astar] passes no
    node twice. *)
Theorem astar_path_NoDup (rnd : Q → num) (sqrt : Q → Q) (g : graph) (start goal fuel : nat)
    (p : list nat) :
  rounding rnd → nonneg_weights g →
  astar rnd sqrt fuel g start goal = Ret (Some p) → NoDup p.
Proof.
  intros Hrnd Hnn Hr. destruct (astar_returns_chain _ _ _ _ _ _ _ Hrnd Hnn Hr) as (st & _ & _ & Hc).
  apply chain_NoDup in Hc. by rewrite reverse_Permutation in Hc.
Qed.

Lemma astar_loop_not_throw (rnd : Q → num) (sqrt : Q → Q) (g : graph) (goal fuel : nat)
    (st : astar_state) :
  endpoints_ok g → is_Some (nodes g !! goal) →
  astar_loop rnd sqrt fuel g goal st ≠ Throw.
Proof.
  intros He Hg. revert st. induction fuel as [|k IH]; intros st; simpl; [done|].
  destruct (openSet st) as [|a rest]; [done|].
  destruct (_ =? goal)%nat.
  - pose proof (reconstructPath_not_throw (cameFrom st) k
                  (pick_current (fScore st) a rest) [pick_current (fScore st) a rest]).
    by destruct (reconstructPath _ _ _ _).
  - destruct (expand_returns rnd sqrt g goal (pick_current (fScore st) a rest) st He Hg)
      as [st' ->]. simpl. apply IH.
Qed.

(** X4.  When the ends of every edge are in the node array, [astar]
    throws exactly when the start or the goal is not an index of the
    node array, whatever the fuel. *)
Theorem astar_throws_iff (rnd : Q → num) (sqrt : Q → Q) (g : graph) (start goal fuel : nat) :
  endpoints_ok g →
  astar rnd sqrt fuel g start goal = Throw ↔
  nodes g !! start = None ∨ nodes g !! goal = None.
Proof.
  intros He. split; [|apply astar_throws_without_node].
  intros Ht. destruct (nodes g !! start) as [a|] eqn:Ea; [|by left].
  destruct (nodes g !! goal) as [b|] eqn:Eb; [|by right].
  exfalso. unfold astar, heuristic_at in Ht. rewrite Ea, Eb in Ht. simpl in Ht.
  revert Ht. apply astar_loop_not_throw; [done|]. rewrite Eb. eauto.
Qed.


(** X6.  The single-goal branch of [calculatePath] ([path || []])
    sets the empty path exactly when the goal cannot be reached from
    the start, and otherwise a path from the start to the goal. *)
Theorem single_path_shown (rnd : Q → num) (sqrt : Q → Q) (fuel : nat) (g : graph) (startNode goalNode : nat)
    (path : list nat) :
  rounding rnd → nonneg_weights g →
  calculatePath_single rnd sqrt fuel g startNode goalNode = Ret path →
  (path = [] ↔ ¬ connected g startNode goalNode) ∧
  (path ≠ [] → is_path g startNode goalNode path).
Proof.
  intros Hrnd Hnn Hc. unfold calculatePath_single in Hc.
  apply bind_Ret in Hc as (r & Ha & [= <-]).
  pose proof (astar_result _ Hrnd _ _ _ _ _ _ Hnn Ha) as Hres. destruct r as [p|]; simpl.
  - destruct Hres as (Hh & Hl & Hp). split; [split|done].
    + intros ->. done.
    + intros Hnc. destruct Hnc. by exists p.
  - split; [done|]. done.
Qed.

(** X5.  On non-negative weights the search from [start] to [goal]
    returns [null] exactly when the search from [goal] to [start]
    does. *)
Theorem astar_both_ways (rnd : Q → num) (sqrt : Q → Q) (g : graph) (start goal fuel fuel' : nat)
    (r r' : option (list nat)) :
  rounding rnd → nonneg_weights g →
  astar rnd sqrt fuel g start goal = Ret r →
  astar rnd sqrt fuel' g goal start = Ret r' →
  (r = None ↔ r' = None).
Proof.
  intros Hrnd Hnn H1 H2.
  pose proof (astar_result _ Hrnd _ _ _ _ _ _ Hnn H1) as R1.
  pose proof (astar_result _ Hrnd _ _ _ _ _ _ Hnn H2) as R2.
  destruct r as [p|], r' as [p'|]; try done.
  - split; [done|]. intros _. destruct R2. apply connected_sym. by exists p.
  - split; [|done]. intros _. destruct R1. apply connected_sym. by exists p'.
Qed.

(** ** More on [calculatePathDistance] *)

Lemma distance_loop_returns_iff (rnd : Q → num) (sqrt : Q → Q) (ns : list node) (p : list nat) (acc : num) :
  (∃ d, distance_loop rnd sqrt ns p acc = Ret d) ↔
  (length p ≤ 1)%nat ∨ ∀ n, n ∈ p → is_Some (ns !! n).
Proof.
  revert acc. induction p as [|a p IH]; intros acc.
  - split; [left; simpl; lia|]. intros _. by exists acc.
  - destruct p as [|b p].
    + split; [left; simpl; lia|]. intros _. by exists acc.
    + rewrite distance_loop_cons2. unfold heuristic_at. split.
      * intros [d Hd]. right.
        destruct (ns !! a) as [na|] eqn:Ea; [|done].
        destruct (ns !! b) as [nb|] eqn:Eb; [|done]. simpl in Hd.
        assert (∃ d, distance_loop rnd sqrt ns (b :: p) (fadd rnd acc (heuristic rnd sqrt na nb)) = Ret d)
          as Hex by eauto.
        apply IH in Hex as [Hlen|Hall].
        -- destruct p; [|simpl in Hlen; lia].
           intros n Hn. apply elem_of_cons in Hn as [->|Hn]; [eauto|].
           apply list_elem_of_singleton in Hn as ->. eauto.
        -- intros n Hn. apply elem_of_cons in Hn as [->|Hn]; [eauto|auto].
      * intros [Hlen|Hall]; [simpl in Hlen; lia|].
        destruct (Hall a) as [na ->]; [by left|].
        destruct (Hall b) as [nb ->]; [by right; left|]. simpl.
        apply IH. right. intros n Hn. apply Hall. by right.
Qed.

Lemma distance_loop_not_out_of_fuel (rnd : Q → num) (sqrt : Q → Q) (ns : list node) (p : list nat)
    (acc : num) :
  distance_loop rnd sqrt ns p acc ≠ OutOfFuel.
Proof.
  revert acc. induction p as [|a p IH]; intros acc; [done|].
  destruct p as [|b p]; [done|]. rewrite distance_loop_cons2. unfold heuristic_at.
  destruct (ns !! a), (ns !! b); simpl; try done. apply IH.
Qed.

(** X7.  [calculatePathDistance] throws exactly when the path has at
    least two nodes and one of them is not an index of the node array;
    it returns a number exactly when the path has at most one node, in
    which case no node is looked up, or all its nodes are indexes of
    the node array. *)
Theorem calculatePathDistance_throws_iff (rnd : Q → num) (sqrt : Q → Q) (g : graph) (path : list nat) :
  (calculatePathDistance rnd sqrt g path = Throw ↔
   (2 ≤ length path)%nat ∧ ∃ n, n ∈ path ∧ nodes g !! n = None) ∧
  ((∃ d, calculatePathDistance rnd sqrt g path = Ret d) ↔
   (length path ≤ 1)%nat ∨ ∀ n, n ∈ path → is_Some (nodes g !! n)).
Proof.
  unfold calculatePathDistance.
  pose proof (distance_loop_returns_iff rnd sqrt (nodes g) path (Fin 0)) as Hiff.
  pose proof (distance_loop_not_out_of_fuel rnd sqrt (nodes g) path (Fin 0)) as Hoof.
  split; [|done]. split.
  - intros Ht. destruct (decide (length path ≤ 1)%nat) as [Hlen|Hlen].
    { destruct Hiff as [_ Hr]. destruct (Hr (or_introl Hlen)) as [d Hd]. congruence. }
    split; [lia|].
    destruct (decide (Exists (λ n, nodes g !! n = None) path)) as [Hex|Hnex].
    { apply Exists_exists in Hex as (n & Hn & Hnone). eauto. }
    destruct Hiff as [_ Hr]. destruct Hr as [d Hd]; [|congruence].
    right. intros n Hn. destruct (nodes g !! n) eqn:E; [eauto|].
    destruct Hnex. apply Exists_exists. eauto.
  - intros (Hlen & n & Hn & Hnone).
    destruct (distance_loop rnd sqrt (nodes g) path (Fin 0)) as [d| |] eqn:E; [|done|done].
    destruct Hiff as [Hr _]. destruct Hr as [Hl|Hall]; [eauto|lia|].
    destruct (Hall n Hn) as [? ?]. congruence.
Qed.


Lemma distance_loop_app (rnd : Q → num) (sqrt : Q → Q) (ns : list node) (p : list nat)
    (c : nat) (q : list nat) (acc : num) :
  distance_loop rnd sqrt ns (p ++ c :: q) acc
  = distance_loop rnd sqrt ns (p ++ [c]) acc ≫= distance_loop rnd sqrt ns (c :: q).
Proof.
  revert acc. induction p as [|a p IH]; intros acc; [done|].
  assert (∃ b r, p ++ c :: q = b :: r ∧ ∃ r', p ++ [c] = b :: r') as (b & r & E & r' & E').
  { destruct p as [|b p]; simpl; eauto. }
  simpl. rewrite E, E'. rewrite <- E, <- E'.
  change (heuristic_at rnd sqrt ns a b
            ≫= (λ h, distance_loop rnd sqrt ns (p ++ c :: q) (fadd rnd acc h))
          = (heuristic_at rnd sqrt ns a b
               ≫= λ h, distance_loop rnd sqrt ns (p ++ [c]) (fadd rnd acc h))
            ≫= distance_loop rnd sqrt ns (c :: q)).
  destruct (heuristic_at rnd sqrt ns a b); simpl; [apply IH|done|done].
Qed.

(** X8.  The distance of two paths joined where the first ends and
    the second starts, as the multi-goal loop joins them with
    [slice(1)], is what the loop of [calculatePathDistance] over the
    second path returns when it starts from the distance of the first
    instead of 0: the straight-line distances of the hops of the second
    path are added to the distance of the first one after the other,
    every sum rounded. *)
Theorem distance_of_joined_paths (rnd : Q → num) (sqrt : Q → Q) (g : graph) (p q : list nat)
    (c : nat) (d1 : num) :
  last p = Some c → head q = Some c →
  calculatePathDistance rnd sqrt g p = Ret d1 →
  calculatePathDistance rnd sqrt g (p ++ drop 1 q)
  = distance_loop rnd sqrt (nodes g) q d1 ∧
  ((∀ n, n ∈ q → is_Some (nodes g !! n)) →
   calculatePathDistance rnd sqrt g (p ++ drop 1 q)
   = Ret (fold_left (fadd rnd) (legs rnd sqrt (nodes g) q) d1)).
Proof.
  unfold calculatePathDistance. intros Hl Hh H1.
  apply last_Some in Hl as [p' ->]. destruct q as [|c' q']; [done|].
  injection Hh as ->. simpl drop. rewrite <- app_assoc. simpl app.
  rewrite distance_loop_app, H1. split; [done|].
  intros Hq. by apply distance_loop_legs.
Qed.

Lemma distance_loop_is_sum (rnd : Q → num) (sqrt : Q → Q) (ns : list node) (p : list nat)
    (acc d : num) :
  distance_loop rnd sqrt ns p acc = Ret d →
  d = fold_left (fadd rnd) (legs rnd sqrt ns p) acc.
Proof.
  revert acc. induction p as [|a p IH]; intros acc Hd; [by injection Hd|].
  destruct p as [|b p]; [by injection Hd|].
  rewrite distance_loop_cons2 in Hd. unfold heuristic_at in Hd.
  destruct (ns !! a) as [na|] eqn:Ea; [|done].
  destruct (ns !! b) as [nb|] eqn:Eb; [|done].
  change (distance_loop rnd sqrt ns (b :: p) (fadd rnd acc (heuristic rnd sqrt na nb)) = Ret d)
    in Hd.
  apply IH in Hd.
  change (legs rnd sqrt ns (a :: b :: p))
    with (match ns !! a, ns !! b with
          | Some na, Some nb => heuristic rnd sqrt na nb
          | _, _ => NaN
          end :: legs rnd sqrt ns (b :: p)).
  rewrite Ea, Eb. exact Hd.
Qed.

Lemma legs_reverse (rnd : Q → num) (sqrt : Q → Q) (ns : list node) (p : list nat) :
  rounding rnd → odd_rounding rnd → Proper (Qeq ==> Qeq) sqrt →
  Forall2 num_eq (legs rnd sqrt ns (reverse p)) (reverse (legs rnd sqrt ns p)).
Proof.
  intros Hrnd Hodd Hp. induction p as [|a p IH]; [constructor|].
  destruct p as [|b p]; [constructor|].
  assert (legs rnd sqrt ns (reverse (a :: b :: p))
          = legs rnd sqrt ns (reverse (b :: p)) ++ legs rnd sqrt ns [b; a]) as ->.
  { rewrite (reverse_cons (b :: p)), (reverse_cons p), <- app_assoc. apply legs_snoc2. }
  assert (reverse (legs rnd sqrt ns (a :: b :: p))
          = reverse (legs rnd sqrt ns (b :: p))
            ++ [match ns !! a, ns !! b with
                | Some na, Some nb => heuristic rnd sqrt na nb
                | _, _ => NaN
                end]) as ->.
  { change (legs rnd sqrt ns (a :: b :: p))
      with (match ns !! a, ns !! b with
            | Some na, Some nb => heuristic rnd sqrt na nb
            | _, _ => NaN
            end :: legs rnd sqrt ns (b :: p)).
    apply reverse_cons. }
  apply Forall2_app; [exact IH|].
  cbn [legs]. constructor; [|constructor].
  destruct (ns !! a) as [na|], (ns !! b) as [nb|]; try done.
  by apply heuristic_sym.
Qed.

(** X9.  [calculatePathDistance] returns for the reverse of a path
    whenever it returns for the path.  The straight-line distances of
    the hops are the same numbers in the opposite order, and each of
    the two distances is the sum of its hops added up from its own
    first hop on, every sum rounded. *)
Theorem distance_of_reversed_path (rnd : Q → num) (sqrt : Q → Q) (g : graph)
    (path : list nat) (d : num) :
  rounding rnd → odd_rounding rnd → Proper (Qeq ==> Qeq) sqrt →
  calculatePathDistance rnd sqrt g path = Ret d →
  ∃ d', calculatePathDistance rnd sqrt g (reverse path) = Ret d' ∧
        Forall2 num_eq (legs rnd sqrt (nodes g) (reverse path))
                       (reverse (legs rnd sqrt (nodes g) path)) ∧
        d = fold_left (fadd rnd) (legs rnd sqrt (nodes g) path) (Fin 0) ∧
        d' = fold_left (fadd rnd) (legs rnd sqrt (nodes g) (reverse path)) (Fin 0).
Proof.
  intros Hrnd Hodd Hp Hd. unfold calculatePathDistance in *.
  assert (∃ d', distance_loop rnd sqrt (nodes g) (reverse path) (Fin 0) = Ret d') as [d' Hd'].
  { apply distance_loop_returns_iff.
    assert (∃ d, distance_loop rnd sqrt (nodes g) path (Fin 0) = Ret d) as Hex by eauto.
    apply distance_loop_returns_iff in Hex as [Hlen|Hall].
    - left. by rewrite length_reverse.
    - right. intros n Hn. apply Hall. by rewrite elem_of_reverse in Hn. }
  exists d'. split; [done|]. split; [by apply legs_reverse|].
  split; by apply distance_loop_is_sum.
Qed.

(** ** The accumulated path of the multi-goal planner *)

Lemma last_join (fp p : list nat) (c t : nat) :
  last fp = Some c → head p = Some c → last p = Some t →
  last (fp ++ drop 1 p) = Some t.
Proof.
  intros Hl Hh Ht. destruct p as [|c' [|b p]]; [done| |].
  - simpl in *. rewrite app_nil_r. congruence.
  - simpl. rewrite last_app. rewrite last_cons_cons in Ht. by rewrite Ht.
Qed.

(** A [for] loop over the goals that returned has searched a path to
    every goal and measured every path found. *)
Lemma try_goals_ran (rnd : Q → num) (sqrt : Q → Q) (fuel : nat) (g : graph) (cur : nat)
    (l : list nat) (b0 b : best) :
  foldM (try_goal rnd sqrt fuel g cur) l b0 = Ret b →
  ∀ x, x ∈ l → ∃ r, astar rnd sqrt fuel g cur x = Ret r ∧
    ∀ p, r = Some p → ∃ d, calculatePathDistance rnd sqrt g p = Ret d.
Proof.
  revert b0. induction l as [|a l IH]; intros b0 Hf x Hx; [by apply elem_of_nil in Hx|].
  simpl in Hf. apply bind_Ret in Hf as (b1 & Ht & Hf).
  apply elem_of_cons in Hx as [->|Hx]; [|by eapply IH].
  unfold try_goal in Ht. apply bind_Ret in Ht as (r & Ha & Ht).
  exists r. split; [done|]. intros p ->.
  apply bind_Ret in Ht as (d & Hd & _). eauto.
Qed.

Lemma multi_loop_walk (rnd : Q → num) (sqrt : Q → Q) (fuel : nat) (g : graph) (turns : nat) :
  rounding rnd → nonneg_weights g →
  ∀ cur rem fp fp' rem' s,
    head fp = Some s → last fp = Some cur → hops_ok (edges g) fp →
    multi_loop rnd sqrt turns fuel g cur rem fp = Ret (fp', rem') →
    head fp' = Some s ∧ hops_ok (edges g) fp' ∧
    ∃ cur', last fp' = Some cur' ∧
      (0%nat ∉ rem → ∀ x, x ∈ rem' →
         ∃ r, astar rnd sqrt fuel g cur' x = Ret r ∧
           ∀ p, r = Some p →
             ∃ d, calculatePathDistance rnd sqrt g p = Ret d ∧ num_lt d PInf = false).
Proof.
  intros Hrnd Hnn. induction turns as [|t IH]; intros cur rem fp fp' rem' s Hh Hl Hp Hm.
  - destruct rem; simpl in Hm; [|done]. injection Hm as <- <-.
    do 2 (split; [done|]). exists cur. split; [done|]. intros _ x Hx.
    by apply elem_of_nil in Hx.
  - destruct rem as [|a r] eqn:Erem.
    { simpl in Hm. injection Hm as <- <-. do 2 (split; [done|]). exists cur.
      split; [done|]. intros _ x Hx. by apply elem_of_nil in Hx. }
    rewrite <- Erem in *. assert (rem ≠ []) as Hne by (by rewrite Erem).
    rewrite multi_loop_S in Hm by done.
    apply bind_Ret in Hm as (b & Hs & Hm).
    pose proof (select_best_spec _ _ _ _ _ _ _ Hs) as Hb. unfold best_of in Hb.
    destruct (bestGoal b) as [bg|] eqn:Ebg.
    + destruct Hb as (l1 & l2 & p & d & Hrem & Hap & Hbp & _).
      assert (bg ∈ rem) as Hin by (rewrite Hrem, elem_of_app; right; by left).
      destruct (falsy (Some bg)) eqn:Ef.
      * injection Hm as <- <-. do 2 (split; [done|]). exists cur. split; [done|].
        intros H0. simpl in Ef. apply Nat.eqb_eq in Ef as ->. done.
      * rewrite Hbp in Hm.
        destruct (astar_result _ Hrnd _ _ _ _ _ _ Hnn Hap) as (Hhd & Hlst & Hhops).
        destruct (IH bg (set_delete bg rem) (fp ++ drop 1 p) fp' rem' s)
          as (H1 & H2 & cur' & H3 & H4); [| | |done|].
        { destruct fp; [done|]. done. }
        { by eapply last_join. }
        { by eapply hops_ok_join. }
        do 2 (split; [done|]). exists cur'. split; [done|]. intros H0. apply H4.
        intros Hd. apply elem_of_set_delete in Hd as [_ Hd]. done.
    + simpl in Hm. injection Hm as <- <-. do 2 (split; [done|]). exists cur.
      split; [done|]. intros _ x Hx. destruct Hb as (_ & _ & Hb).
      destruct (try_goals_ran _ _ _ _ _ _ _ _ Hs x Hx) as (r0 & Hr0 & Hd0).
      exists r0. split; [done|]. intros p ->. destruct (Hd0 p eq_refl) as [d Hd].
      exists d. split; [done|]. by apply (Hb x p d).
Qed.

(** X10.  On non-negative weights the path that the multi-goal branch
    hands to [setCurrentPath] starts at the start node, and every hop
    of it is joined by an edge. *)
Theorem multi_path_is_walk (rnd : Q → num) (sqrt : Q → Q) (fuel : nat) (g : graph)
    (startNode : nat) (multiGoals fullPath : list nat) :
  rounding rnd → nonneg_weights g →
  calculatePath_multi rnd sqrt fuel g startNode multiGoals = Ret fullPath →
  head fullPath = Some startNode ∧ hops_ok (edges g) fullPath.
Proof.
  intros Hrnd Hnn Hc. unfold calculatePath_multi in Hc.
  apply bind_Ret in Hc as ([fp rem] & Hm & [= <-]). unfold multi_final in Hm.
  destruct (multi_loop_walk rnd sqrt fuel g _ Hrnd Hnn _ _ [startNode] fp rem startNode
              eq_refl eq_refl I Hm) as (H1 & H2 & _).
  done.
Qed.

(** X11.  On non-negative weights, when node 0 is not among the goals
    and every path found to a goal has a distance below infinity: a
    goal lies on the accumulated path exactly when it can be reached
    from the start, and is left in [remaining] exactly when it
    cannot. *)
Theorem multi_visits_reachable (rnd : Q → num) (sqrt : Q → Q) (fuel : nat) (g : graph)
    (startNode : nat) (multiGoals fullPath remaining : list nat) :
  rounding rnd → nonneg_weights g → 0%nat ∉ multiGoals →
  (∀ s x p d, x ∈ multiGoals → astar rnd sqrt fuel g s x = Ret (Some p) →
     calculatePathDistance rnd sqrt g p = Ret d → num_lt d PInf = true) →
  multi_final rnd sqrt fuel g startNode multiGoals = Ret (fullPath, remaining) →
  ∀ x, x ∈ multiGoals →
    (x ∈ fullPath ↔ connected g startNode x) ∧
    (x ∈ remaining ↔ ¬ connected g startNode x).
Proof.
  intros Hrnd Hnn H0 Hfin Hm x Hx. unfold multi_final in Hm.
  destruct (multi_loop_walk rnd sqrt fuel g _ Hrnd Hnn _ _ [startNode] fullPath remaining
              startNode eq_refl eq_refl I Hm) as (Hh & Hp & cur' & Hl & Hun).
  destruct (multi_loop_inv rnd sqrt fuel g _ Hrnd Hnn startNode _ [startNode] _ _ eq_refl Hm)
    as (Hsub & Hacc & _).
  assert (∀ y, y ∈ fullPath → connected g startNode y) as Hfp.
  { intros y Hy. by eapply walk_connects. }
  assert (∀ y, y ∈ remaining → ¬ connected g startNode y) as Hrem.
  { intros y Hy Hc.
    destruct (Hun (λ H, H0 (proj1 (elem_of_set_of_list _ _) H)) y Hy) as (r & Hr & Hd).
    assert (¬ connected g cur' y) as Hnc.
    { destruct r as [p|]; [|exact (astar_result _ Hrnd _ _ _ _ _ _ Hnn Hr)].
      destruct (Hd p eq_refl) as (d & Hdp & Hinf).
      rewrite (Hfin cur' y p d) in Hinf; [done| |done|done].
      by apply elem_of_set_of_list, Hsub. }
    apply Hnc. apply connected_trans with startNode; [|done].
    apply connected_sym, Hfp. by apply last_Some_elem_of. }
  destruct (Hacc x) as [Hr|Hf]; [by apply elem_of_set_of_list| |].
  - split; split.
    + intros Hf. by destruct (Hrem x Hr (Hfp x Hf)).
    + intros Hc. by destruct (Hrem x Hr).
    + intros _. by apply Hrem.
    + done.
  - split; split.
    + intros _. by apply Hfp.
    + done.
    + intros Hr. by apply Hrem.
    + intros Hc. by destruct (Hc (Hfp x Hf)).
Qed.

(** X14.  A goal listed a second time changes nothing ([new Set]). *)
Theorem multi_repeated_goal (rnd : Q → num) (sqrt : Q → Q) (fuel : nat) (g : graph)
    (startNode : nat) (l1 l2 : list nat) (x : nat) :
  x ∈ l1 →
  calculatePath_multi rnd sqrt fuel g startNode (l1 ++ x :: l2)
  = calculatePath_multi rnd sqrt fuel g startNode (l1 ++ l2).
Proof.
  intros Hx. unfold calculatePath_multi, multi_final.
  assert (set_of_list (l1 ++ x :: l2) = set_of_list (l1 ++ l2)) as ->; [|done].
  unfold set_of_list. rewrite !fold_left_app. simpl. f_equal.
  unfold set_add at 1. rewrite bool_decide_true; [done|].
  by apply elem_of_set_of_list.
Qed.

(** X13.  For one goal other than node 0 the multi-goal branch sets
    the start node alone when [astar] returns [null], and otherwise
    measures the path that [astar] returns and sets it when its
    distance is below infinity, and the start node alone when it is
    not. *)
Theorem multi_one_goal (rnd : Q → num) (sqrt : Q → Q) (fuel : nat) (g : graph)
    (startNode goal : nat) (r : option (list nat)) :
  rounding rnd → nonneg_weights g → endpoints_ok g → goal ≠ 0%nat →
  astar rnd sqrt fuel g startNode goal = Ret r →
  match r with
  | None => calculatePath_multi rnd sqrt fuel g startNode [goal] = Ret [startNode]
  | Some p =>
      ∃ d, calculatePathDistance rnd sqrt g p = Ret d ∧
           calculatePath_multi rnd sqrt fuel g startNode [goal]
           = Ret (if num_lt d PInf then p else [startNode])
  end.
Proof.
  intros Hrnd Hnn He Hg Ha. unfold calculatePath_multi, multi_final.
  change (set_of_list [goal]) with [goal]. simpl. unfold select_best. simpl.
  unfold try_goal. rewrite Ha. simpl. destruct r as [p|]; [|done].
  pose proof (astar_result _ Hrnd _ _ _ _ _ _ Hnn Ha) as (Hh & Hl & Hp).
  assert (is_Some (nodes g !! startNode)) as Hs.
  { destruct (nodes g !! startNode) eqn:E; [eauto|].
    rewrite (astar_throws_without_node rnd sqrt g startNode goal fuel) in Ha; [done|auto]. }
  exists (straight_line rnd sqrt (nodes g) p). unfold calculatePathDistance.
  rewrite distance_loop_legs by (by eapply hops_nodes).
  split; [done|]. simpl. fold (straight_line rnd sqrt (nodes g) p).
  destruct (num_lt (straight_line rnd sqrt (nodes g) p) PInf); simpl; [|done].
  destruct (Nat.eqb_spec goal 0) as [|_]; [done|]. simpl.
  rewrite Nat.eqb_refl. simpl. destruct p as [|a p]; [done|].
  injection Hh as ->. done.
Qed.

Lemma multi_loop_keeps_zero (rnd : Q → num) (sqrt : Q → Q) (fuel : nat) (g : graph)
    (turns : nat) :
  ∀ cur rem fp fp' rem',
    multi_loop rnd sqrt turns fuel g cur rem fp = Ret (fp', rem') →
    0%nat ∈ rem → 0%nat ∈ rem'.
Proof.
  induction turns as [|t IH]; intros cur rem fp fp' rem' Hm H0.
  - destruct rem; [by apply elem_of_nil in H0|done].
  - destruct rem as [|a r] eqn:Erem; [by apply elem_of_nil in H0|].
    rewrite <- Erem in *. assert (rem ≠ []) as Hne by (by rewrite Erem).
    rewrite multi_loop_S in Hm by done.
    apply bind_Ret in Hm as (b & Hs & Hm).
    destruct (falsy (bestGoal b)) eqn:Ef; [by injection Hm as <- <-|].
    destruct (bestGoal b) as [bg|] eqn:Ebg; [|done].
    destruct (bestPath b) as [p|]; [|done]. simpl in Ef. apply Nat.eqb_neq in Ef.
    apply (IH _ _ _ _ _ Hm). apply elem_of_set_delete. split; [congruence|done].
Qed.

(** X12.  Goal 0 is never taken off the [remaining] set: when node 0
    is among the goals it is still in [remaining] when the loop
    stops. *)
Theorem multi_goal_zero_stays (rnd : Q → num) (sqrt : Q → Q) (fuel : nat) (g : graph)
    (startNode : nat) (multiGoals fullPath remaining : list nat) :
  multi_final rnd sqrt fuel g startNode multiGoals = Ret (fullPath, remaining) →
  0%nat ∈ multiGoals → 0%nat ∈ remaining.
Proof.
  unfold multi_final. intros Hm H0. eapply multi_loop_keeps_zero; [done|].
  by apply elem_of_set_of_list.
Qed.

(** ** The edges of [generateSampleGraph], continued *)

Lemma connect_nearby_intro (rnd : Q → num) (sqrt : Q → Q) (ns : list node) (i j : nat)
    (a b : node) :
  (i < j)%nat → ns !! i = Some a → ns !! j = Some b →
  num_lt (heuristic rnd sqrt a b) (Fin 100) = true →
  {| from := i; to := j; weight := heuristic rnd sqrt a b; traversable := None |}
    ∈ connect_nearby rnd sqrt ns.
Proof.
  intros Hij Ha Hb Hd. unfold connect_nearby.
  apply list_elem_of_In, in_flat_map. exists i. split.
  { apply in_seq. apply lookup_lt_Some in Ha. lia. }
  rewrite Ha. unfold connect_from. apply in_flat_map. exists j. split.
  { apply in_seq. apply lookup_lt_Some in Hb. lia. }
  rewrite Hb. cbv zeta. fold (heuristic rnd sqrt a b).
  rewrite Hd. by left.
Qed.

Lemma connect_nearby_untagged (rnd : Q → num) (sqrt : Q → Q) (ns : list node) (e : edge) :
  e ∈ connect_nearby rnd sqrt ns → traversable e = None.
Proof.
  unfold connect_nearby. intros He.
  apply list_elem_of_In, in_flat_map in He as (i & Hi & He).
  destruct (ns !! i) as [a|]; [|done].
  unfold connect_from in He. apply in_flat_map in He as (j & Hj & He).
  destruct (ns !! j) as [b|]; [|done]. cbv zeta in He.
  destruct (num_lt _ (Fin 100)); [|done]. by destruct He as [<-|[]].
Qed.

(** X15.  The edges stored by the second loop of
    [generateSampleGraph] are exactly the records without [traversable]
    attribute that go from an index to a later index of the node array,
    weigh the distance between the two nodes, and weigh less than
    100. *)
Theorem connect_nearby_spec (rnd : Q → num) (sqrt : Q → Q) (ns : list node) (e : edge) :
  e ∈ connect_nearby rnd sqrt ns ↔
  ∃ a b, (from e < to e)%nat ∧ ns !! from e = Some a ∧ ns !! to e = Some b ∧
         weight e = heuristic rnd sqrt a b ∧ num_lt (weight e) (Fin 100) = true ∧
         traversable e = None.
Proof.
  split.
  - intros He. destruct (elem_of_connect_nearby _ _ _ _ He) as (a & b & H1 & H2 & H3 & H4 & H5).
    exists a, b. do 5 (split; [done|]). by eapply connect_nearby_untagged.
  - intros (a & b & Hlt & Ha & Hb & Hw & Hd & Ht).
    destruct e as [i j w t]. simpl in *. subst w t.
    by apply connect_nearby_intro.
Qed.

Lemma joins_ordered (u v : nat) (e1 e2 : edge) :
  (from e1 < to e1)%nat → (from e2 < to e2)%nat →
  joins u v e1 = true → joins u v e2 = true →
  from e1 = from e2 ∧ to e1 = to e2.
Proof.
  unfold joins. intros H1 H2 J1 J2.
  apply orb_true_iff in J1. apply orb_true_iff in J2.
  rewrite !andb_true_iff, !Nat.eqb_eq in J1, J2. lia.
Qed.

Lemma connect_nearby_same_ends (rnd : Q → num) (sqrt : Q → Q) (ns : list node) (u v : nat)
    (e1 e2 : edge) :
  e1 ∈ connect_nearby rnd sqrt ns → e2 ∈ connect_nearby rnd sqrt ns →
  joins u v e1 = true → joins u v e2 = true → e1 = e2.
Proof.
  intros H1 H2 J1 J2.
  pose proof (connect_nearby_untagged _ _ _ _ H1) as T1.
  pose proof (connect_nearby_untagged _ _ _ _ H2) as T2.
  apply elem_of_connect_nearby in H1 as (a & b & L1 & A1 & B1 & W1 & _).
  apply elem_of_connect_nearby in H2 as (a' & b' & L2 & A2 & B2 & W2 & _).
  destruct (joins_ordered u v e1 e2 L1 L2 J1 J2) as [Hf Ht].
  destruct e1, e2. simpl in *. subst. rewrite A1 in A2. rewrite B1 in B2.
  injection A2 as <-. injection B2 as <-. done.
Qed.

Lemma NoDup_flat_map {A B : Type} (f : A → list B) (l : list A) :
  NoDup l → (∀ a, a ∈ l → NoDup (f a)) →
  (∀ a1 a2 b, a1 ∈ l → a2 ∈ l → b ∈ f a1 → b ∈ f a2 → a1 = a2) →
  NoDup (flat_map f l).
Proof.
  induction l as [|a l IH]; intros Hl Hf Hinj; simpl; [constructor|].
  apply NoDup_cons in Hl as [Ha Hl]. apply NoDup_app. split; [|split].
  - apply Hf. by left.
  - intros b Hb Hb'. apply list_elem_of_In, in_flat_map in Hb' as (a' & Ha' & Hb').
    apply list_elem_of_In in Ha', Hb'.
    assert (a = a') as <-; [|done].
    apply (Hinj a a' b); [by left|by right|done|done].
  - apply IH; [done| |].
    + intros a' Ha'. apply Hf. by right.
    + intros a1 a2 b H1 H2. apply Hinj; by right.
Qed.

Lemma connect_from_NoDup (rnd : Q → num) (sqrt : Q → Q) (ns : list node) (i : nat)
    (a : node) :
  NoDup (connect_from rnd sqrt ns i a).
Proof.
  unfold connect_from. apply NoDup_flat_map.
  - apply NoDup_seq.
  - intros j _. destruct (ns !! j) as [b|]; [|constructor]. cbv zeta.
    destruct (num_lt _ _); [|constructor]. apply NoDup_singleton.
  - intros j1 j2 e _ _ H1 H2.
    destruct (ns !! j1) as [b1|]; [|by apply elem_of_nil in H1].
    destruct (ns !! j2) as [b2|]; [|by apply elem_of_nil in H2].
    cbv zeta in H1, H2.
    destruct (num_lt _ _) in H1; [|by apply elem_of_nil in H1].
    destruct (num_lt _ _) in H2; [|by apply elem_of_nil in H2].
    apply list_elem_of_singleton in H1, H2. rewrite H1 in H2. by injection H2.
Qed.

Lemma connect_from_from (rnd : Q → num) (sqrt : Q → Q) (ns : list node) (i : nat)
    (a : node) (e : edge) :
  e ∈ connect_from rnd sqrt ns i a → from e = i.
Proof.
  unfold connect_from. intros He. apply list_elem_of_In, in_flat_map in He as (j & _ & He).
  destruct (ns !! j) as [b|]; [|done]. cbv zeta in He.
  destruct (num_lt _ _); [|done]. by destruct He as [<-|[]].
Qed.

Lemma connect_nearby_NoDup (rnd : Q → num) (sqrt : Q → Q) (ns : list node) :
  NoDup (connect_nearby rnd sqrt ns).
Proof.
  unfold connect_nearby. apply NoDup_flat_map.
  - apply NoDup_seq.
  - intros i _. destruct (ns !! i) as [a|]; [|constructor]. apply connect_from_NoDup.
  - intros i1 i2 e _ _ H1 H2.
    destruct (ns !! i1) as [a1|]; [|by apply elem_of_nil in H1].
    destruct (ns !! i2) as [a2|]; [|by apply elem_of_nil in H2].
    apply connect_from_from in H1, H2. congruence.
Qed.

(** X16.  The second loop of [generateSampleGraph] joins no pair of
    nodes twice: two entries of the edge array that join the same two
    nodes, in either direction, are one entry. *)
Theorem connect_nearby_joins_once (rnd : Q → num) (sqrt : Q → Q) (ns : list node)
    (u v i j : nat) (e1 e2 : edge) :
  connect_nearby rnd sqrt ns !! i = Some e1 →
  connect_nearby rnd sqrt ns !! j = Some e2 →
  joins u v e1 = true → joins u v e2 = true → i = j ∧ e1 = e2.
Proof.
  intros H1 H2 J1 J2.
  assert (e1 = e2) as <-.
  { eapply connect_nearby_same_ends; eauto; by eapply list_elem_of_lookup_2. }
  split; [|done]. eapply NoDup_lookup; [apply connect_nearby_NoDup|done|done].
Qed.


(** ** The sample graph *)

Lemma floor_sqrt_nonneg (q : Q) : 0 <= floor_sqrt q.
Proof.
  unfold floor_sqrt, Qle. simpl.
  pose proof (Z.sqrt_nonneg (Qnum q * Z.pos (Qden q))). lia.
Qed.

Lemma floor_sqrt_le (q c : Q) : 0 <= c → q <= c * c → floor_sqrt q <= c.
Proof.
  destruct q as [n d], c as [a b]. unfold floor_sqrt, Qle. simpl. intros Ha Hq.
  set (s := Z.sqrt (n * Z.pos d)).
  assert (0 <= a)%Z as Ha' by lia.
  assert (0 <= s)%Z as Hs by apply Z.sqrt_nonneg.
  destruct (Z.lt_ge_cases (n * Z.pos d) 0) as [Hneg|Hpos].
  { unfold s. rewrite Z.sqrt_neg by done. nia. }
  assert (s * s <= n * Z.pos d)%Z as Hss by (apply Z.sqrt_spec; lia).
  rewrite Pos2Z.inj_mul in Hq.
  assert ((s * Z.pos b) * (s * Z.pos b) <= (a * Z.pos d) * (a * Z.pos d))%Z as Hsq.
  { nia. }
  apply Z.square_le_simpl_nonneg in Hsq; nia.
Qed.

Lemma sample_nodes_lookup (rnd : Q → num) (sqrt sin : Q → Q) (PI : Q) (i : nat) :
  (i < 40)%nat →
  nodes (generateSampleGraph rnd sqrt sin PI) !! i = Some (sample_node rnd sin PI i).
Proof.
  intros Hi. unfold generateSampleGraph. cbv zeta. cbn [nodes].
  rewrite list_lookup_fmap, lookup_seq_lt by done. done.
Qed.

Lemma close_within (rnd : Q → num) (q : Q) :
  close_rounding rnd → - (1000000 # 1) <= q → q <= 1000000 # 1 →
  ∃ r, rnd q = Fin r ∧ q - (1 # 1024) <= r ∧ r <= q + (1 # 1024).
Proof.
  intros Hc H1 H2. destruct (Hc q) as (r & Hr & Hd).
  { apply Qabs_Qle_condition. change (inject_Z (2 ^ 20)) with (1048576 # 1). split; lra. }
  exists r. split; [done|]. apply Qabs_Qle_condition in Hd. lra.
Qed.

Lemma Qmult_within (u v a b : Q) :
  - a <= u → u <= a → - b <= v → v <= b → - (a * b) <= u * v ∧ u * v <= a * b.
Proof. intros. split; nra. Qed.

(** The coordinates of the sample nodes, up to the rounding: [x] is
    within 1 of [50 + 15 i], and [y] within 1/100 of 200 plus 100 times
    the sine of an angle within 1/40 of [pi i / 10]. *)
Lemma sample_node_close (rnd : Q → num) (sin : Q → Q) (PI : Q) (i : nat) :
  close_rounding rnd → (∀ a, Qabs (sin a) <= 1) → -4 <= PI → PI <= 4 → (i < 40)%nat →
  ∃ xq yq a,
    x (sample_node rnd sin PI i) = Fin xq ∧
    y (sample_node rnd sin PI i) = Fin yq ∧
    50 + 15 * inject_Z (Z.of_nat i) - 1 <= xq ∧ xq <= 50 + 15 * inject_Z (Z.of_nat i) + 1 ∧
    PI * inject_Z (Z.of_nat i) / 10 - (1 # 40) <= a ∧
    a <= PI * inject_Z (Z.of_nat i) / 10 + (1 # 40) ∧
    200 + 100 * sin a - (1 # 100) <= yq ∧ yq <= 200 + 100 * sin a + (1 # 100).
Proof.
  intros Hc Hsin Hlo Hhi Hi. unfold sample_node. cbv zeta. cbn [x y].
  set (z := inject_Z (Z.of_nat i)).
  assert (0 <= z ∧ z <= 39) as [Hz0 Hz1].
  { unfold z. split.
    - change 0 with (inject_Z 0). rewrite <- Zle_Qle. lia.
    - change 39 with (inject_Z 39). rewrite <- Zle_Qle. lia. }
  assert (z / 40 == z * (1 # 40)) as Hz40 by (by field).
  cbn [fdiv].
  destruct (close_within rnd (z / 40) Hc) as (t & -> & Ht1 & Ht2); [lra|lra|].
  cbn [fmul].
  destruct (close_within rnd (t * 600) Hc) as (m & -> & Hm1 & Hm2); [lra|lra|].
  cbn [fadd].
  destruct (close_within rnd (50 + m) Hc) as (xq & -> & Hx1 & Hx2); [lra|lra|].
  destruct (close_within rnd (2 * PI) Hc) as (c1 & -> & Hc11 & Hc12); [lra|lra|].
  cbn [fmul].
  destruct (Qmult_within (c1 - 2 * PI) t (1 # 1024) 2) as [P1 P2]; try lra.
  destruct (Qmult_within PI (t - z / 40) 4 (1 # 1024)) as [P3 P4]; try lra.
  assert (c1 * t == (c1 - 2 * PI) * t + 2 * (PI * (t - z / 40)) + PI * z / 20) as Hprod.
  { field. }
  assert (- (160 # 1) <= PI * z ∧ PI * z <= 160) as [P5 P6].
  { destruct (Qmult_within PI z 4 40); try lra. }
  assert (PI * z / 20 == PI * z * (1 # 20)) as H20 by (by field).
  assert (PI * z / 10 == PI * z * (1 # 10)) as H10 by (by field).
  destruct (close_within rnd (c1 * t) Hc) as (c2 & -> & Hc21 & Hc22); [lra|lra|].
  cbn [fmul].
  destruct (close_within rnd (c2 * 2) Hc) as (a & -> & Ha1 & Ha2); [lra|lra|].
  cbn [fsin fmul].
  pose proof (Hsin a) as Hs. apply Qabs_Qle_condition in Hs as [Hs1 Hs2].
  destruct (close_within rnd (100 * sin a) Hc) as (h & -> & Hh1 & Hh2); [lra|lra|].
  cbn [fadd].
  destruct (close_within rnd (200 + h) Hc) as (yq & -> & Hy1 & Hy2); [lra|lra|].
  exists xq, yq, a. split; [done|]. split; [done|]. fold z.
  repeat split; lra.
Qed.

Lemma sample_neighbours_close (rnd : Q → num) (sqrt sin : Q → Q) (PI : Q) (i : nat) :
  rounding rnd → close_rounding rnd →
  (∀ q, q <= 3600 → sqrt q <= 60) →
  (∀ a, Qabs (sin a) <= 1) →
  (∀ a b, Qabs (sin a - sin b) <= Qabs (a - b) + (1 # 1024)) →
  -4 <= PI → PI <= 4 → (S i < 40)%nat →
  num_lt (heuristic rnd sqrt (sample_node rnd sin PI i) (sample_node rnd sin PI (S i)))
         (Fin 100) = true.
Proof.
  intros Hrnd Hc Hsq Hsin Hlip Hlo Hhi Hi.
  destruct (sample_node_close rnd sin PI i Hc Hsin Hlo Hhi ltac:(lia))
    as (x1 & y1 & a1 & Ex1 & Ey1 & X11 & X12 & A11 & A12 & Y11 & Y12).
  destruct (sample_node_close rnd sin PI (S i) Hc Hsin Hlo Hhi Hi)
    as (x2 & y2 & a2 & Ex2 & Ey2 & X21 & X22 & A21 & A22 & Y21 & Y22).
  rewrite Nat2Z.inj_succ in *. unfold Z.succ in *. rewrite inject_Z_plus in *.
  change (inject_Z 1) with 1 in *. set (z := inject_Z (Z.of_nat i)) in *.
  assert (PI * z / 10 == PI * z * (1 # 10)) as H10 by (by field).
  assert (PI * (z + 1) / 10 == PI * z * (1 # 10) + PI * (1 # 10)) as H10' by (by field).
  pose proof (Hlip a1 a2) as Hd.
  assert (Qabs (a1 - a2) <= 46 # 100) as Ha by (apply Qabs_Qle_condition; split; lra).
  assert (Qabs (sin a1 - sin a2) <= 1 # 2) as Hs by lra.
  apply Qabs_Qle_condition in Hs as [Hs1 Hs2].
  unfold heuristic. cbv zeta. rewrite Ex1, Ex2, Ey1, Ey2. cbn [fsub].
  destruct (close_within rnd (x1 - x2) Hc) as (dx & -> & Dx1 & Dx2); [lra|lra|].
  destruct (close_within rnd (y1 - y2) Hc) as (dy & -> & Dy1 & Dy2); [lra|lra|].
  cbn [fmul].
  destruct (Qmult_within dx dx 18 18) as [_ Px]; try lra.
  destruct (Qmult_within dy dy 51 51) as [_ Py]; try lra.
  assert (0 <= dx * dx) as Px0 by nra. assert (0 <= dy * dy) as Py0 by nra.
  destruct (close_within rnd (dx * dx) Hc) as (v1 & E1 & V11 & V12); [lra|lra|].
  destruct (close_within rnd (dy * dy) Hc) as (v2 & E2 & V21 & V22); [lra|lra|].
  pose proof (rnd_nn rnd Hrnd _ Px0) as N1. pose proof (rnd_nn rnd Hrnd _ Py0) as N2.
  rewrite E1 in *. rewrite E2 in *. unfold nn in N1, N2. simpl in N1, N2. cbn [fadd].
  destruct (close_within rnd (v1 + v2) Hc) as (s & Es & S1 & S2); [lra|lra|].
  assert (0 <= v1 + v2) as Hsum by lra.
  pose proof (rnd_nn rnd Hrnd _ Hsum) as N3. rewrite Es in *. unfold nn in N3. simpl in N3.
  cbn [fsqrt].
  assert (Qltb s 0 = false) as -> by (by apply Qltb_ge).
  cbn [num_lt]. apply Qltb_lt.
  apply Qle_lt_trans with 60; [|done]. apply Hsq. lra.
Qed.

Lemma sample_adjacent (rnd : Q → num) (sqrt sin : Q → Q) (PI : Q) (i : nat) :
  rounding rnd → close_rounding rnd →
  (∀ q, q <= 3600 → sqrt q <= 60) →
  (∀ a, Qabs (sin a) <= 1) →
  (∀ a b, Qabs (sin a - sin b) <= Qabs (a - b) + (1 # 1024)) →
  -4 <= PI → PI <= 4 → (S i < 40)%nat →
  adjacent (edges (generateSampleGraph rnd sqrt sin PI)) i (S i).
Proof.
  intros Hrnd Hc Hsq Hsin Hlip Hlo Hhi Hi.
  pose proof (sample_neighbours_close rnd sqrt sin PI i Hrnd Hc Hsq Hsin Hlip Hlo Hhi Hi) as Hd.
  eexists. split.
  - change (edges (generateSampleGraph rnd sqrt sin PI))
      with (connect_nearby rnd sqrt (nodes (generateSampleGraph rnd sqrt sin PI))).
    apply (connect_nearby_intro rnd sqrt _ i (S i)); [lia| | |].
    + apply sample_nodes_lookup. lia.
    + by apply sample_nodes_lookup.
    + done.
  - unfold joins. simpl. by rewrite !Nat.eqb_refl.
Qed.

Lemma sample_connected (rnd : Q → num) (sqrt sin : Q → Q) (PI : Q) (s t : nat) :
  rounding rnd → close_rounding rnd →
  (∀ q, q <= 3600 → sqrt q <= 60) →
  (∀ a, Qabs (sin a) <= 1) →
  (∀ a b, Qabs (sin a - sin b) <= Qabs (a - b) + (1 # 1024)) →
  -4 <= PI → PI <= 4 → (s < 40)%nat → (t < 40)%nat →
  connected (generateSampleGraph rnd sqrt sin PI) s t.
Proof.
  intros Hrnd Hc Hsq Hsin Hlip Hlo Hhi.
  assert (∀ n, (n < 40)%nat → connected (generateSampleGraph rnd sqrt sin PI) 0 n) as H0.
  { induction n as [|n IH]; intros Hn; [apply connected_refl|].
    apply connected_trans with n; [apply IH; lia|].
    exists [n; S n]. split; [done|]. split; [done|]. split; [|done].
    by apply sample_adjacent. }
  intros Hs Ht. apply connected_trans with 0%nat; [|by apply H0].
  by apply connected_sym, H0.
Qed.

(** X19.  On the sample graph every search between two of the forty
    nodes finds a path, as consecutive nodes are less than 100 apart.
    What is used of the rounding: its laws, and that it moves a number
    of size at most [2 ^ 20] by at most [1 / 1024].  What is used of
    [Math.sqrt], [Math.sin] and [Math.PI]: the square root is never
    negative and is at most 60 on numbers up to 3600, the sine lies
    between -1 and 1 and differs by at most the difference of its
    arguments plus [1 / 1024], and pi lies between -4 and 4. *)
Theorem sample_graph_always_path (rnd : Q → num) (sqrt sin : Q → Q) (PI : Q)
    (start goal : nat) :
  rounding rnd → close_rounding rnd →
  (∀ q, 0 <= sqrt q) →
  (∀ q, q <= 3600 → sqrt q <= 60) →
  (∀ a, Qabs (sin a) <= 1) →
  (∀ a b, Qabs (sin a - sin b) <= Qabs (a - b) + (1 # 1024)) →
  -4 <= PI → PI <= 4 → (start < 40)%nat → (goal < 40)%nat →
  ∃ fuel p,
    (∀ fuel', (fuel ≤ fuel')%nat →
       astar rnd sqrt fuel' (generateSampleGraph rnd sqrt sin PI) start goal
       = Ret (Some p)) ∧
    is_path (generateSampleGraph rnd sqrt sin PI) start goal p.
Proof.
  intros Hrnd Hc Hnn Hsq Hsin Hlip Hlo Hhi Hs Hg.
  set (g := generateSampleGraph rnd sqrt sin PI).
  assert (nonneg_weights g) as Hw by (by apply connect_nearby_nonneg).
  assert (endpoints_ok g) as He by apply connect_nearby_endpoints.
  destruct (astar_outcome rnd sqrt g start goal Hrnd Hw) as (fuel & r0 & _ & Hr & Hv).
  destruct Hv as [r ->]; [done| | |].
  { unfold g. rewrite sample_nodes_lookup by done. eauto. }
  { unfold g. rewrite sample_nodes_lookup by done. eauto. }
  pose proof (astar_result rnd Hrnd sqrt g start goal fuel r Hw (Hr fuel (Nat.le_refl _)))
    as Hres.
  destruct r as [p|].
  - by exists fuel, p.
  - destruct Hres. by apply sample_connected.
Qed.

(** X18.  [generateSampleGraph] builds forty nodes; the node at index
    [i] has id [i] and the x-coordinate [50 + 15 i], exactly so in the
    arithmetic of binary64 as it is without rounding. *)
Theorem sample_graph_nodes (sqrt sin : Q → Q) (PI : Q) (i : nat) :
  (length (nodes (generateSampleGraph round64 sqrt sin PI)) = 40%nat ∧
   match nodes (generateSampleGraph round64 sqrt sin PI) !! i with
   | Some n => (i < 40)%nat ∧ id n = i ∧
               num_eq (x n) (Fin (50 + 15 * inject_Z (Z.of_nat i)))
   | None => (40 ≤ i)%nat
   end) ∧
  (length (nodes (generateSampleGraph exact sqrt sin PI)) = 40%nat ∧
   match nodes (generateSampleGraph exact sqrt sin PI) !! i with
   | Some n => (i < 40)%nat ∧ id n = i ∧
               num_eq (x n) (Fin (50 + 15 * inject_Z (Z.of_nat i)))
   | None => (40 ≤ i)%nat
   end).
Proof.
  split; (split; [done|]); destruct (Nat.lt_ge_cases i 40) as [Hi|Hi].
  - rewrite sample_nodes_lookup by done. split; [done|]. split; [done|].
    unfold sample_node. cbv zeta. cbn [x].
    do 40 (destruct i as [|i]; [by vm_compute|]). lia.
  - rewrite lookup_ge_None_2; [done|]. done.
  - rewrite sample_nodes_lookup by done. split; [done|]. split; [done|].
    unfold sample_node. cbv zeta. cbn [x fdiv fmul fadd exact num_eq]. field.
  - rewrite lookup_ge_None_2; [done|]. done.
Qed.
(** ** The animation *)

(** X20.  The animation of a path of [len] nodes, [len] not 0: after
    [k] firings of the interval the robot is at position [k] and the
    animation is on while [k < len]; from the firing number [len] on
    the robot stays at the last position [len - 1], the animation is
    off and the interval is cleared. *)
Theorem animation_run (len k : nat) (st : animation) :
  len ≠ 0%nat →
  ticks len k (animatePath len st)
  = {| animating := (k <? len)%nat; robotPos := k `min` (len - 1);
       pos := k `min` (len - 1); interval := (k <? len)%nat |}.
Proof.
  intros Hlen. unfold ticks, animatePath.
  destruct (Nat.eqb_spec len 0) as [|_]; [done|].
  induction k as [|k IH].
  - simpl. destruct (Nat.ltb_spec 0 len); [|lia]. done.
  - rewrite Nat.iter_succ, IH. unfold tick. cbn [interval pos animating].
    destruct (Nat.ltb_spec k len) as [Hk|Hk].
    + destruct (Nat.leb_spec len (S (k `min` (len - 1)))) as [Hle|Hgt].
      * destruct (Nat.ltb_spec (S k) len); [lia|]. f_equal; lia.
      * destruct (Nat.ltb_spec (S k) len); [|lia]. f_equal; lia.
    + destruct (Nat.ltb_spec (S k) len); [lia|]. f_equal; lia.
Qed.

(** ** Which edges are drawn as part of the path *)

Lemma indexOf_from_first (l : list nat) (v : nat) (k : Z) :
  v ∈ l →
  ∃ i, l !! i = Some v ∧ indexOf_from l v k = (k + Z.of_nat i)%Z.
Proof.
  revert k. induction l as [|a l IH]; intros k Hv; [by apply elem_of_nil in Hv|].
  simpl. destruct (Nat.eqb_spec a v) as [->|Hne].
  - exists 0%nat. split; [done|lia].
  - apply elem_of_cons in Hv as [->|Hv]; [done|].
    destruct (IH (k + 1)%Z Hv) as (i & Hi & Hk). exists (S i). split; [done|lia].
Qed.

Lemma indexOf_from_NoDup (l : list nat) (v : nat) (k : Z) (i : nat) :
  NoDup l → l !! i = Some v → indexOf_from l v k = (k + Z.of_nat i)%Z.
Proof.
  intros Hnd Hi. destruct (indexOf_from_first l v k) as (j & Hj & ->).
  { by eapply list_elem_of_lookup_2. }
  by rewrite (NoDup_lookup l i j v Hnd Hi Hj).
Qed.

(** X21.  An edge drawn as part of the path joins two nodes that
    follow each other on the path, in one order or the other. *)
Theorem isInPath_sound (currentPath : list nat) (e : edge) :
  isInPath currentPath e = true →
  ∃ i, (currentPath !! i = Some (from e) ∧ currentPath !! S i = Some (to e)) ∨
       (currentPath !! i = Some (to e) ∧ currentPath !! S i = Some (from e)).
Proof.
  unfold isInPath, indexOf. intros H.
  apply andb_true_iff in H as [H Habs]. apply andb_true_iff in H as [Hf Ht].
  apply bool_decide_eq_true in Hf. apply bool_decide_eq_true in Ht.
  destruct (indexOf_from_first _ _ 0 Hf) as (i & Hi & Ei).
  destruct (indexOf_from_first _ _ 0 Ht) as (j & Hj & Ej).
  rewrite Ei, Ej in Habs. apply Z.eqb_eq in Habs.
  destruct (decide (j = S i)) as [->|Hne].
  - exists i. by left.
  - assert (i = S j) as -> by lia. exists j. by right.
Qed.

(** X22.  On a path that passes no node twice, every edge between
    two nodes that follow each other is drawn as part of the path. *)
Theorem isInPath_complete (currentPath : list nat) (e : edge) (i : nat) :
  NoDup currentPath →
  (currentPath !! i = Some (from e) ∧ currentPath !! S i = Some (to e)) ∨
  (currentPath !! i = Some (to e) ∧ currentPath !! S i = Some (from e)) →
  isInPath currentPath e = true.
Proof.
  intros Hnd Hhop. unfold isInPath, indexOf.
  assert (∃ a b, currentPath !! a = Some (from e) ∧ currentPath !! b = Some (to e) ∧
                 (Z.abs (Z.of_nat a - Z.of_nat b) = 1)%Z) as (a & b & Ha & Hb & Hab).
  { destruct Hhop as [[H1 H2]|[H1 H2]].
    - exists i, (S i). split; [done|]. split; [done|lia].
    - exists (S i), i. split; [done|]. split; [done|lia]. }
  rewrite (indexOf_from_NoDup _ _ 0 a Hnd Ha), (indexOf_from_NoDup _ _ 0 b Hnd Hb).
  rewrite !bool_decide_true by (by eapply list_elem_of_lookup_2). simpl.
  apply Z.eqb_eq. lia.
Qed.



Local Close Scope Q_scope.

(** * Runs on the sample graphs

    The runs use the rounding of binary64 and the square root that is
    exact on squares. *)



(** An estimate that is 0 everywhere is consistent with non-negative
    weights, whatever the rounding: the search is then the search of
    Dijkstra. *)
Lemma consistent_flat (rnd : Q → num) (sqrt : Q → Q) (g : graph) (goal : nat) :
  rounding rnd → nonneg_weights g →
  (∀ n, heuristic_to rnd sqrt g goal n = Fin 0) →
  consistent rnd sqrt g goal.
Proof.
  intros Hrnd Hnn Hz. split; [|split].
  - intros n. rewrite Hz. apply (good_zero rnd Hrnd).
  - by rewrite Hz.
  - intros e c He Hc. rewrite !Hz.
    assert (num_eq (fadd rnd c (Fin 0)) c) as E1 by (by apply (fadd_zero_r rnd Hrnd)).
    assert (good rnd (fadd rnd c (weight e))) as Hg.
    { apply (fadd_good rnd Hrnd); [by apply (good_nn rnd)|by apply Hnn]. }
    assert (num_eq (fadd rnd (fadd rnd c (weight e)) (Fin 0)) (fadd rnd c (weight e)))
      as E2 by (by apply (fadd_zero_r rnd Hrnd)).
    assert (num_le (fadd rnd c (Fin 0)) (fadd rnd (fadd rnd c (weight e)) (Fin 0))) as Hle.
    { apply num_le_eq_l with c; [by apply num_eq_sym|].
      apply num_le_eq_r with (fadd rnd c (weight e)); [by apply num_eq_sym|].
      apply (fadd_infl rnd Hrnd); [done|by apply Hnn]. }
    done.
Qed.

(** The estimates of [g_rounding] are 0, so that the path found there
    has the least cost as the search adds it up: [10 ^ 16], each 1
    added to it being rounded away.  The weights of that path add up
    to [10 ^ 16 + 3], more than the weight [10 ^ 16 + 2] of the edge
    from node 0 to node 4. *)
Example astar_least_after_rounding :
  consistent round64 exact_sqrt g_rounding 4 ∧
  astar round64 exact_sqrt 10 g_rounding 0 4 = Ret (Some [0; 1; 2; 3; 4]) ∧
  path_cost round64 g_rounding [0; 1; 2; 3; 4] = Fin (10 ^ 16)%Q ∧
  path_cost round64 g_rounding [0; 4] = Fin (10 ^ 16 + 2)%Q ∧
  path_cost exact g_rounding [0; 1; 2; 3; 4] = Fin (10 ^ 16 + 3)%Q.
Proof.
  split; [|repeat split; by vm_compute].
  apply consistent_flat; [apply round64_rounding|weights_nonneg|].
  intros n. unfold heuristic_to.
  do 5 (destruct n as [|n]; [by vm_compute|]). done.
Qed.

(** Where nothing is rounded, consistency is the triangle inequality
    along every edge. *)
Lemma consistent_exact (sqrt : Q → Q) (g : graph) (goal : nat) :
  (∀ n, ∃ h, heuristic_to exact sqrt g goal n = Fin h ∧ (0 <= h)%Q) →
  num_eq (heuristic_to exact sqrt g goal goal) (Fin 0) →
  (∀ e, e ∈ edges g →
     ∃ w hf ht, weight e = Fin w ∧ (0 <= w)%Q ∧
       heuristic_to exact sqrt g goal (from e) = Fin hf ∧
       heuristic_to exact sqrt g goal (to e) = Fin ht ∧
       (hf <= w + ht)%Q ∧ (ht <= w + hf)%Q) →
  consistent exact sqrt g goal.
Proof.
  intros Hh Hg He. split; [|split; [done|]].
  - intros n. destruct (Hh n) as (h & -> & Hpos). split; [done|]. simpl. reflexivity.
  - intros e c Hin [Hc _]. unfold nn in Hc.
    destruct (He e Hin) as (w & hf & ht & -> & Hw & -> & -> & H1 & H2).
    destruct c as [| | |q]; try done. simpl in *. split; lra.
Qed.

(** The estimate is consistent with the weights of [g_triangle] where
    nothing is rounded, so that the path found there is a cheapest
    one. *)
Example g_triangle_consistent : consistent exact exact_sqrt g_triangle 2.
Proof.
  apply consistent_exact.
  - intros n. unfold heuristic_to.
    do 3 (destruct n as [|n]; [eexists; split; [by vm_compute|by vm_compute]|]).
    eexists; split; [by vm_compute|by vm_compute].
  - by vm_compute.
  - intros e He. each_elem He; eexists _, _, _;
      (split; [reflexivity|]); (split; [by vm_compute|]);
      (split; [by vm_compute|]); (split; [by vm_compute|]); split; by vm_compute.
Qed.

(** C2, counterexample.  The only edge of [g_one_way] is stored from
    node 1 to node 0, and [astar] returns a path from node 0 to node 1. *)
Lemma astar_walks_edge_backwards :
  astar round64 exact_sqrt 10 g_one_way 0 1 = Ret (Some [0; 1]) ∧
  ∀ e, e ∈ edges g_one_way → ¬ (from e = 0 ∧ to e = 1).
Proof.
  split; [by vm_compute|]. intros e He. each_elem He. by intros [? ?].
Qed.

Lemma astar_hops_one_way :
  nonneg_weights g_one_way ∧ endpoints_ok g_one_way ∧
  ed 1 0 1 ∈ edges g_one_way ∧
  astar round64 exact_sqrt 10 g_one_way 0 1 = Ret (Some [0; 1]) ∧
  (∃ fuel p q, ∀ fuel', fuel ≤ fuel' →
     astar round64 exact_sqrt fuel' g_one_way (from (ed 1 0 1)) (to (ed 1 0 1))
     = Ret (Some p) ∧
     astar round64 exact_sqrt fuel' g_one_way (to (ed 1 0 1)) (from (ed 1 0 1))
     = Ret (Some q)) ∧
  ∃ e, e ∈ edges g_one_way ∧ ((from e = 0 ∧ to e = 1) ∨ (from e = 1 ∧ to e = 0)).
Proof.
  assert (nonneg_weights g_one_way) as H1 by weights_nonneg.
  assert (endpoints_ok g_one_way) as H2 by ends_in_nodes.
  assert (ed 1 0 1 ∈ edges g_one_way) as H3 by (by left).
  assert (astar round64 exact_sqrt 10 g_one_way 0 1 = Ret (Some [0; 1])) as H4
    by (by vm_compute).
  do 4 (split; [assumption|]).
  destruct (astar_hops_are_edges round64 exact_sqrt g_one_way) as (_ & Hboth & Hhop).
  split.
  - exact (Hboth round64_rounding H1 H2 (ed 1 0 1) H3).
  - exact (Hhop 0 1 10 [0; 1] 0 0 1 H4 eq_refl eq_refl).
Defined.

(** C3, counterexample.  Node 2 of [g_island] cannot be reached from
    node 0.  Asked for the goal 2, the loop stops with 2 still in
    [remaining], and [calculatePath] returns the path made of node 0
    alone, the very value it returns when asked for no goal at all. *)
Lemma multi_drops_unreached :
  multi_final round64 exact_sqrt 10 g_island 0 [2] = Ret ([0], [2]) ∧
  calculatePath_multi round64 exact_sqrt 10 g_island 0 [2] = Ret [0] ∧
  calculatePath_multi round64 exact_sqrt 10 g_island 0 [] = Ret [0].
Proof. repeat split; by vm_compute. Qed.

Lemma multi_goals_accounted_island :
  nonneg_weights g_island ∧ endpoints_ok g_island ∧
  is_Some (nodes g_island !! 0) ∧
  (∀ x, x ∈ [1; 2] → is_Some (nodes g_island !! x)) ∧
  ∃ fuel fullPath remaining,
    (∀ fuel', fuel ≤ fuel' →
       multi_final round64 exact_sqrt fuel' g_island 0 [1; 2] = Ret (fullPath, remaining) ∧
       calculatePath_multi round64 exact_sqrt fuel' g_island 0 [1; 2] = Ret fullPath) ∧
    (∀ x, x ∈ remaining → x ∈ [1; 2]) ∧
    (∀ x, x ∈ [1; 2] → x ∈ remaining ∨ x ∈ fullPath).
Proof.
  assert (nonneg_weights g_island) as H1 by weights_nonneg.
  assert (endpoints_ok g_island) as H2 by ends_in_nodes.
  assert (is_Some (nodes g_island !! 0)) as H3 by (simpl; eauto).
  assert (∀ x, x ∈ [1; 2] → is_Some (nodes g_island !! x)) as H4.
  { intros x Hx. each_elem Hx; simpl; eauto. }
  do 4 (split; [assumption|]).
  exact (multi_goals_accounted round64 exact_sqrt g_island 0 [1; 2]
           round64_rounding H1 H2 H3 H4).
Defined.

(** On [g_island], asked for the goals 1 and 2 from node 0: the path
    returned is 0, 1 and goal 2 is left in [remaining]. *)
Example multi_island_run :
  multi_final round64 exact_sqrt 10 g_island 0 [1; 2] = Ret ([0; 1], [2]).
Proof. by vm_compute. Qed.



Lemma astar_frontier_empties_island :
  ∃ st,
    heuristic_at round64 exact_sqrt (nodes g_island) 0 2 = Ret (Fin 5) ∧
    reaches round64 exact_sqrt g_island 2 (astar_init (Fin 5) 0) st ∧
    openSet st = [] ∧
    ∃ fuel, ∀ fuel', fuel ≤ fuel' →
      astar round64 exact_sqrt fuel' g_island 0 2 = Ret None ∧
      calculatePath_single round64 exact_sqrt fuel' g_island 0 2 = Ret [].
Proof.
  eexists.
  assert (heuristic_at round64 exact_sqrt (nodes g_island) 0 2 = Ret (Fin 5)) as H1
    by (by vm_compute).
  split; [exact H1|].
  eassert (reaches round64 exact_sqrt g_island 2 (astar_init (Fin 5) 0) _) as H2.
  { eapply reaches_turn; [reflexivity|by vm_compute|by vm_compute|].
    eapply reaches_turn; [reflexivity|by vm_compute|by vm_compute|].
    apply reaches_here. }
  split; [exact H2|].
  assert (openSet
            {| openSet := []; cameFrom := {[1 := 0]};
               gScore := {[0 := Fin 0; 1 := Fin 1]};
               fScore := {[0 := Fin 5; 1 := Fin 5]} |} = []) as H3 by reflexivity.
  split; [exact H3|].
  exact (astar_frontier_empties round64 exact_sqrt g_island 0 2 (Fin 5) _ H1 H2 H3).
Defined.



(** The turn of the loop on [g_fork], asked for the goals 2, 1 from
    node 0. *)
Example multi_fork_turn :
  select_best round64 exact_sqrt 10 g_fork 0 [2; 1]
  = Ret {| bestGoal := Some 2; bestPath := Some [0; 2]; bestDist := Fin 1 |}.
Proof. by vm_compute. Qed.

(** The selected goal is skipped when it is node 0: [!bestGoal] holds
    for the number 0 as it does for [null].  Node 0 of [g_one_way] is
    one edge away from node 1 and is left in [remaining]. *)
Example multi_stops_at_goal_zero :
  astar round64 exact_sqrt 10 g_one_way 1 0 = Ret (Some [1; 0]) ∧
  multi_final round64 exact_sqrt 10 g_one_way 1 [0] = Ret ([1], [0]).
Proof. split; by vm_compute. Qed.

(** The goal selected first need not be the goal met first.  In
    [g_through] the path found from node 0 to node 3 has distance 28
    and runs through node 2, while the path found to node 2 has
    distance 32: node 3 is selected first, and the accumulated path
    passes node 2 on its way there. *)
Example multi_passes_farther_goal :
  (p ← astar round64 exact_sqrt 10 g_through 0 3;
   calculatePathDistance round64 exact_sqrt g_through (default [] p))
  = Ret (Fin 28) ∧
  (p ← astar round64 exact_sqrt 10 g_through 0 2;
   calculatePathDistance round64 exact_sqrt g_through (default [] p))
  = Ret (Fin 32) ∧
  calculatePath_multi round64 exact_sqrt 10 g_through 0 [3; 2] = Ret [0; 1; 2; 3; 2].
Proof. repeat split; by vm_compute. Qed.

(** A goal that can be reached is left when the distance of its path
    is not below infinity.  The nodes of [g_far] are joined by an edge
    and [astar] returns the path 0, 1; the square of their distance
    overflows, the distance of the path is [Infinity], and
    [Infinity < Infinity] is false: no goal is selected and node 1
    stays in [remaining]. *)
Example multi_leaves_far_goal :
  astar round64 exact_sqrt 10 g_far 0 1 = Ret (Some [0; 1]) ∧
  calculatePathDistance round64 exact_sqrt g_far [0; 1] = Ret PInf ∧
  select_best round64 exact_sqrt 10 g_far 0 [1]
  = Ret {| bestGoal := None; bestPath := None; bestDist := PInf |} ∧
  multi_final round64 exact_sqrt 10 g_far 0 [1] = Ret ([0], [1]).
Proof. repeat split; by vm_compute. Qed.

(** C7, counterexample.  The edge of [g_long_edge] weighs 10 and its
    ends are 5 apart: for the path 0, 1 that [astar] returns,
    [calculatePathDistance] gives 5, which is the distance shown, and
    not the weight 10 of the edge traversed. *)
Lemma shown_distance_not_weights :
  astar round64 exact_sqrt 10 g_long_edge 0 1 = Ret (Some [0; 1]) ∧
  calculatePathDistance round64 exact_sqrt g_long_edge [0; 1] = Ret (Fin 5) ∧
  pathDistance round64 exact_sqrt g_long_edge [0; 1] = Ret (Fin (50 # 10)) ∧
  path_cost round64 g_long_edge [0; 1] = Fin 10 ∧
  ¬ num_eq (Fin (50 # 10)) (Fin 10).
Proof. repeat split; by vm_compute. Qed.

Lemma shown_distance_and_time_triangle :
  [0; 1; 2] ≠ [] ∧
  (∀ n, n ∈ [0; 1; 2] → is_Some (nodes g_triangle !! n)) ∧
  ∃ d,
    calculatePathDistance round64 exact_sqrt g_triangle [0; 1; 2] = Ret d ∧
    d = straight_line round64 exact_sqrt (nodes g_triangle) [0; 1; 2] ∧
    pathDistance round64 exact_sqrt g_triangle [0; 1; 2] = Ret (toFixed1 d) ∧
    (∀ q, d = Fin q → ∃ s, toFixed1 d = Fin s ∧ (Qabs (s - q) <= 1 # 20)%Q) ∧
    estimatedTime round64 exact_sqrt g_triangle [0; 1; 2]
    = Ret (toFixed1 (fdiv round64 (of_string round64 (toFixed1 d)) 50)) ∧
    (∀ q, fdiv round64 (of_string round64 (toFixed1 d)) 50 = Fin q →
       ∃ s, toFixed1 (fdiv round64 (of_string round64 (toFixed1 d)) 50) = Fin s ∧
            (Qabs (s - q) <= 1 # 20)%Q) ∧
    (rounding round64 → euclidean_weights round64 exact_sqrt g_triangle →
     hops_ok (edges g_triangle) [0; 1; 2] →
     num_eq d (path_cost round64 g_triangle [0; 1; 2])).
Proof.
  assert ([0; 1; 2] ≠ []) as H1 by discriminate.
  assert (∀ n, n ∈ [0; 1; 2] → is_Some (nodes g_triangle !! n)) as H2.
  { intros n Hn. each_elem Hn; simpl; eauto. }
  split; [exact H1|]. split; [exact H2|].
  exact (shown_distance_and_time round64 exact_sqrt g_triangle [0; 1; 2] H1 H2).
Defined.

(** The distance and the time shown for the path of [g_triangle]: 20.0
    and 0.4. *)
Example triangle_shown :
  pathDistance round64 exact_sqrt g_triangle [0; 1; 2] = Ret (Fin (200 # 10)) ∧
  estimatedTime round64 exact_sqrt g_triangle [0; 1; 2] = Ret (Fin (4 # 10)).
Proof. split; by vm_compute. Qed.

(** The time is rounded twice.  The nodes of [g_half] are 7.5 apart;
    7.5 / 50 is 0.15, the double nearest to it lies below 0.15, and
    the time shown is 0.1, where [toFixed(1)] of 0.15 itself would be
    0.2. *)
Example time_shown_is_rounded_twice :
  pathDistance round64 exact_sqrt g_half [0; 1] = Ret (Fin (75 # 10)) ∧
  estimatedTime round64 exact_sqrt g_half [0; 1] = Ret (Fin (1 # 10)) ∧
  toFixed1 (Fin ((75 # 10) / 50)) = Fin (2 # 10).
Proof. repeat split; by vm_compute. Qed.

(** The distance is a sum rounded at every step.  On [g_line] the hops
    are [2 ^ 53], 1 and 1 long: from node 0 each 1 is rounded away,
    from node 3 the two of them are added first and kept, so that the
    path and its reverse have different distances. *)
Example distance_depends_on_direction :
  calculatePathDistance round64 exact_sqrt g_line [0; 1; 2; 3] = Ret (Fin (2 ^ 53)) ∧
  calculatePathDistance round64 exact_sqrt g_line [3; 2; 1; 0] = Ret (Fin (2 ^ 53 + 2)).
Proof. split; by vm_compute. Qed.

(** C8, counterexample.  The only edge of [g_blocked] has [traversable]
    set to [false], and [astar] returns the path that crosses it. *)
Lemma astar_crosses_untraversable :
  (∀ e, e ∈ edges g_blocked → traversable e = Some false) ∧
  astar round64 exact_sqrt 10 g_blocked 0 1 = Ret (Some [0; 1]).
Proof.
  split; [|by vm_compute]. intros e He. by each_elem He.
Qed.

Lemma penalty_and_flags_sample :
  sample_store !! (0, 1)
  = Some (CostModel.mkStoreEdge 10 1 CostModel.follow_corridor true 0) ∧
  Qlt 0 10 ∧ Qlt 0 10 ∧
  ∃ s1 s2 e1 e2,
    CostModel.apply_penalty sample_store (0, 1) 10 = Some s1 ∧
    CostModel.apply_penalty s1 (0, 1) 10 = Some s2 ∧
    s1 !! (0, 1) = Some e1 ∧ s2 !! (0, 1) = Some e2 ∧
    Qeq (CostModel.effective_cost e1)
        (CostModel.effective_cost
           (CostModel.mkStoreEdge 10 1 CostModel.follow_corridor true 0) + 10) ∧
    Qlt (CostModel.effective_cost
           (CostModel.mkStoreEdge 10 1 CostModel.follow_corridor true 0))
        (CostModel.effective_cost e1) ∧
    Qlt (CostModel.effective_cost e1) (CostModel.effective_cost e2) ∧
    (∀ k', k' ≠ (0, 1) → s1 !! k' = sample_store !! k' ∧ s2 !! k' = sample_store !! k') ∧
    astar round64 exact_sqrt 10 (with_flags (λ _, Some true) g_blocked) 0 1
    = astar round64 exact_sqrt 10 g_blocked 0 1.
Proof.
  assert (sample_store !! (0, 1)
          = Some (CostModel.mkStoreEdge 10 1 CostModel.follow_corridor true 0)) as H1
    by (by vm_compute).
  assert (Qlt 0 10) as H2 by reflexivity.
  split; [exact H1|]. split; [exact H2|]. split; [exact H2|].
  exact (penalty_and_flags round64 exact_sqrt sample_store (0, 1) _ 10 10 g_blocked
           (λ _, Some true) 0 1 10 H1 H2 H2).
Defined.

(** The second scenario of the specification, on the store alone: two
    penalties of 10 on an edge of base cost 10 and reliability 1 bring
    its effective cost to 30. *)
Example two_penalties_make_thirty :
  (s1 ← CostModel.apply_penalty sample_store (0, 1) 10;
   s2 ← CostModel.apply_penalty s1 (0, 1) 10;
   CostModel.effective_cost <$> s2 !! (0, 1)) = Some 30%Q.
Proof. by vm_compute. Qed.

Lemma astar_start_is_goal_triangle :
  is_Some (nodes g_triangle !! 0) ∧
  astar round64 exact_sqrt 1 g_triangle 0 0 = Ret (Some [0]).
Proof.
  assert (is_Some (nodes g_triangle !! 0)) as H by (simpl; eauto).
  split; [exact H|].
  exact (astar_start_is_goal round64 exact_sqrt g_triangle 0 0 H).
Defined.

Lemma astar_terminates_detour :
  nonneg_weights g_detour ∧
  ∃ fuel r, r ≠ OutOfFuel ∧
    (∀ fuel', fuel ≤ fuel' → astar round64 exact_sqrt fuel' g_detour 0 2 = r) ∧
    (endpoints_ok g_detour → is_Some (nodes g_detour !! 0) →
     is_Some (nodes g_detour !! 2) → ∃ v, r = Ret v).
Proof.
  assert (nonneg_weights g_detour) as H by weights_nonneg.
  split; [exact H|].
  exact (astar_terminates round64 exact_sqrt g_detour 0 2 round64_rounding H).
Defined.

(** The first scenario of the specification: on [g_triangle] the path
    from node 0 to node 2 runs through node 1 and has distance 20. *)
Example triangle_scenario :
  astar round64 exact_sqrt 10 g_triangle 0 2 = Ret (Some [0; 1; 2]) ∧
  calculatePathDistance round64 exact_sqrt g_triangle [0; 1; 2] = Ret (Fin 20).
Proof. split; by vm_compute. Qed.

(** The edges [generateSampleGraph] builds over three nodes: only the
    first two are less than 100 apart. *)
Example connect_nearby_run :
  connect_nearby round64 exact_sqrt [nd 0 0 0; nd 1 30 40; nd 2 200 0]
  = [ {| from := 0; to := 1; weight := Fin 50; traversable := None |} ].
Proof. by vm_compute. Qed.

(** ** Runs for the rest of the planner *)

(** Two nodes that link to each other: [reconstructPath] runs out of
    every number of turns. *)
Lemma reconstructPath_cycle_two :
  link_iter {[1 := 2; 2 := 1]} 2 1 = Some 1 ∧
  ∀ k path, reconstructPath k {[1 := 2; 2 := 1]} 1 path = OutOfFuel.
Proof.
  assert (link_iter {[1 := 2; 2 := 1]} 2 1 = Some 1) as H by (by vm_compute).
  split; [exact H|].
  exact (reconstructPath_cycle {[1 := 2; 2 := 1]} 1 1 H).
Defined.

Lemma astar_path_NoDup_triangle :
  nonneg_weights g_triangle ∧
  astar round64 exact_sqrt 10 g_triangle 0 2 = Ret (Some [0; 1; 2]) ∧
  NoDup [0; 1; 2].
Proof.
  assert (nonneg_weights g_triangle) as H1 by weights_nonneg.
  assert (astar round64 exact_sqrt 10 g_triangle 0 2 = Ret (Some [0; 1; 2])) as H2
    by (by vm_compute).
  do 2 (split; [assumption|]).
  exact (astar_path_NoDup round64 exact_sqrt g_triangle 0 2 10 [0; 1; 2]
           round64_rounding H1 H2).
Defined.

(** Node 7 is no node of [g_triangle]: the search from it throws. *)
Lemma astar_throws_iff_triangle :
  endpoints_ok g_triangle ∧
  (astar round64 exact_sqrt 10 g_triangle 7 2 = Throw ↔
   nodes g_triangle !! 7 = None ∨ nodes g_triangle !! 2 = None).
Proof.
  assert (endpoints_ok g_triangle) as H by ends_in_nodes.
  split; [exact H|].
  exact (astar_throws_iff round64 exact_sqrt g_triangle 7 2 10 H).
Defined.

Lemma astar_both_ways_one_way :
  nonneg_weights g_one_way ∧
  astar round64 exact_sqrt 10 g_one_way 0 1 = Ret (Some [0; 1]) ∧
  astar round64 exact_sqrt 10 g_one_way 1 0 = Ret (Some [1; 0]) ∧
  (Some [0; 1] = None ↔ Some [1; 0] = None).
Proof.
  assert (nonneg_weights g_one_way) as H1 by weights_nonneg.
  assert (astar round64 exact_sqrt 10 g_one_way 0 1 = Ret (Some [0; 1])) as H2
    by (by vm_compute).
  assert (astar round64 exact_sqrt 10 g_one_way 1 0 = Ret (Some [1; 0])) as H3
    by (by vm_compute).
  do 3 (split; [assumption|]).
  exact (astar_both_ways round64 exact_sqrt g_one_way 0 1 10 10 _ _
           round64_rounding H1 H2 H3).
Defined.

Lemma single_path_shown_island :
  nonneg_weights g_island ∧
  calculatePath_single round64 exact_sqrt 10 g_island 0 2 = Ret [] ∧
  (@nil nat = [] ↔ ¬ connected g_island 0 2) ∧
  (@nil nat ≠ [] → is_path g_island 0 2 []).
Proof.
  assert (nonneg_weights g_island) as H1 by weights_nonneg.
  assert (calculatePath_single round64 exact_sqrt 10 g_island 0 2 = Ret []) as H2
    by (by vm_compute).
  do 2 (split; [assumption|]).
  exact (single_path_shown round64 exact_sqrt 10 g_island 0 2 []
           round64_rounding H1 H2).
Defined.

(** On [g_line] the path 0, 1 has distance [2 ^ 53] and the path 1, 2,
    3 has distance 2; joined, they have distance [2 ^ 53], each hop of
    the second being added to the distance of the first and rounded
    away. *)
Lemma distance_of_joined_paths_line :
  last [0; 1] = Some 1 ∧ head [1; 2; 3] = Some 1 ∧
  calculatePathDistance round64 exact_sqrt g_line [0; 1] = Ret (Fin (2 ^ 53)) ∧
  calculatePathDistance round64 exact_sqrt g_line ([0; 1] ++ drop 1 [1; 2; 3])
  = distance_loop round64 exact_sqrt (nodes g_line) [1; 2; 3] (Fin (2 ^ 53)) ∧
  ((∀ n, n ∈ [1; 2; 3] → is_Some (nodes g_line !! n)) →
   calculatePathDistance round64 exact_sqrt g_line ([0; 1] ++ drop 1 [1; 2; 3])
   = Ret (fold_left (fadd round64) (legs round64 exact_sqrt (nodes g_line) [1; 2; 3])
                    (Fin (2 ^ 53)))).
Proof.
  assert (calculatePathDistance round64 exact_sqrt g_line [0; 1] = Ret (Fin (2 ^ 53))) as H1
    by (by vm_compute).
  do 2 (split; [reflexivity|]). split; [assumption|].
  exact (distance_of_joined_paths round64 exact_sqrt g_line [0; 1] [1; 2; 3] 1 _
           eq_refl eq_refl H1).
Defined.

(** The path 0, 1, 2, 3 of [g_line] and its reverse: the same hops,
    and the distances [2 ^ 53] and [2 ^ 53 + 2]. *)
Lemma distance_of_reversed_path_line :
  calculatePathDistance round64 exact_sqrt g_line [0; 1; 2; 3] = Ret (Fin (2 ^ 53)) ∧
  ∃ d', calculatePathDistance round64 exact_sqrt g_line (reverse [0; 1; 2; 3]) = Ret d' ∧
        Forall2 num_eq (legs round64 exact_sqrt (nodes g_line) (reverse [0; 1; 2; 3]))
                       (reverse (legs round64 exact_sqrt (nodes g_line) [0; 1; 2; 3])) ∧
        Fin (2 ^ 53)
        = fold_left (fadd round64) (legs round64 exact_sqrt (nodes g_line) [0; 1; 2; 3])
                    (Fin 0) ∧
        d' = fold_left (fadd round64)
                       (legs round64 exact_sqrt (nodes g_line) (reverse [0; 1; 2; 3]))
                       (Fin 0).
Proof.
  assert (calculatePathDistance round64 exact_sqrt g_line [0; 1; 2; 3] = Ret (Fin (2 ^ 53)))
    as H by (by vm_compute).
  split; [exact H|].
  exact (distance_of_reversed_path round64 exact_sqrt g_line [0; 1; 2; 3] _
           round64_rounding round64_odd exact_sqrt_proper H).
Defined.

Example joined_distance_is_not_the_sum :
  calculatePathDistance round64 exact_sqrt g_line [0; 1] = Ret (Fin (2 ^ 53)) ∧
  calculatePathDistance round64 exact_sqrt g_line [1; 2; 3] = Ret (Fin 2) ∧
  calculatePathDistance round64 exact_sqrt g_line [0; 1; 2; 3] = Ret (Fin (2 ^ 53)) ∧
  fadd round64 (Fin (2 ^ 53)) (Fin 2) = Fin (2 ^ 53 + 2).
Proof. repeat split; by vm_compute. Qed.

Lemma multi_path_is_walk_fork :
  nonneg_weights g_fork ∧
  calculatePath_multi round64 exact_sqrt 10 g_fork 0 [2; 1] = Ret [0; 2; 0; 1] ∧
  head [0; 2; 0; 1] = Some 0 ∧ hops_ok (edges g_fork) [0; 2; 0; 1].
Proof.
  assert (nonneg_weights g_fork) as H1 by weights_nonneg.
  assert (calculatePath_multi round64 exact_sqrt 10 g_fork 0 [2; 1] = Ret [0; 2; 0; 1]) as H2
    by (by vm_compute).
  do 2 (split; [assumption|]).
  exact (multi_path_is_walk round64 exact_sqrt 10 g_fork 0 [2; 1] [0; 2; 0; 1]
           round64_rounding H1 H2).
Defined.

(** Every path found on [g_island] has a distance below infinity. *)
Lemma g_island_distances (s x : nat) (p : list nat) (d : num) :
  x ∈ [1; 2] → astar round64 exact_sqrt 10 g_island s x = Ret (Some p) →
  calculatePathDistance round64 exact_sqrt g_island p = Ret d → num_lt d PInf = true.
Proof.
  intros Hx Ha Hd.
  destruct s as [|[|[|s]]].
  - each_elem Hx; vm_compute in Ha; [|done]. injection Ha as <-.
    vm_compute in Hd. by injection Hd as <-.
  - each_elem Hx; vm_compute in Ha; [|done]. injection Ha as <-.
    vm_compute in Hd. by injection Hd as <-.
  - each_elem Hx; vm_compute in Ha; [done|]. injection Ha as <-.
    vm_compute in Hd. by injection Hd as <-.
  - rewrite astar_throws_without_node in Ha; [done|]. by left.
Qed.

(** On [g_island], from node 0: goal 1 can be reached and is on the
    path, goal 2 cannot and is left. *)
Lemma multi_visits_reachable_island :
  nonneg_weights g_island ∧ (0 ∉ [1; 2]) ∧
  multi_final round64 exact_sqrt 10 g_island 0 [1; 2] = Ret ([0; 1], [2]) ∧
  ∀ x, x ∈ [1; 2] →
    (x ∈ [0; 1] ↔ connected g_island 0 x) ∧
    (x ∈ [2] ↔ ¬ connected g_island 0 x).
Proof.
  assert (nonneg_weights g_island) as H1 by weights_nonneg.
  assert (0 ∉ [1; 2]) as H2 by (rewrite !elem_of_cons, elem_of_nil; lia).
  assert (multi_final round64 exact_sqrt 10 g_island 0 [1; 2] = Ret ([0; 1], [2])) as H3
    by (by vm_compute).
  do 3 (split; [assumption|]).
  exact (multi_visits_reachable round64 exact_sqrt 10 g_island 0 [1; 2] [0; 1] [2]
           round64_rounding H1 H2 g_island_distances H3).
Defined.

(** Asked from node 1 of [g_fork] for its neighbour node 0, the loop
    stops at once and leaves the goal. *)
Lemma multi_goal_zero_stays_fork :
  multi_final round64 exact_sqrt 10 g_fork 1 [0] = Ret ([1], [0]) ∧ 0 ∈ [0] ∧ 0 ∈ [0].
Proof.
  assert (multi_final round64 exact_sqrt 10 g_fork 1 [0] = Ret ([1], [0])) as H1
    by (by vm_compute).
  assert (0 ∈ [0]) as H2 by (by left).
  do 2 (split; [assumption|]).
  exact (multi_goal_zero_stays round64 exact_sqrt 10 g_fork 1 [0] [1] [0] H1 H2).
Defined.

(** The one goal of [g_far] has a path and is not visited: the
    distance of the path is not below infinity. *)
Lemma multi_one_goal_far :
  nonneg_weights g_far ∧ endpoints_ok g_far ∧ 1 ≠ 0 ∧
  astar round64 exact_sqrt 10 g_far 0 1 = Ret (Some [0; 1]) ∧
  ∃ d, calculatePathDistance round64 exact_sqrt g_far [0; 1] = Ret d ∧
       calculatePath_multi round64 exact_sqrt 10 g_far 0 [1]
       = Ret (if num_lt d PInf then [0; 1] else [0]).
Proof.
  assert (nonneg_weights g_far) as H1 by weights_nonneg.
  assert (endpoints_ok g_far) as H2 by ends_in_nodes.
  assert (1 ≠ 0) as H3 by lia.
  assert (astar round64 exact_sqrt 10 g_far 0 1 = Ret (Some [0; 1])) as H4
    by (by vm_compute).
  do 4 (split; [assumption|]).
  exact (multi_one_goal round64 exact_sqrt 10 g_far 0 1 _ round64_rounding H1 H2 H3 H4).
Defined.

Example multi_one_goal_runs :
  calculatePath_multi round64 exact_sqrt 10 g_triangle 0 [2] = Ret [0; 1; 2] ∧
  calculatePath_multi round64 exact_sqrt 10 g_far 0 [1] = Ret [0].
Proof. split; by vm_compute. Qed.

Lemma multi_repeated_goal_fork :
  1 ∈ [1; 2] ∧
  calculatePath_multi round64 exact_sqrt 10 g_fork 0 ([1; 2] ++ 1 :: [])
  = calculatePath_multi round64 exact_sqrt 10 g_fork 0 ([1; 2] ++ []).
Proof.
  assert (1 ∈ [1; 2]) as H by (by left).
  split; [exact H|].
  exact (multi_repeated_goal round64 exact_sqrt 10 g_fork 0 [1; 2] [] 1 H).
Defined.

(** The edges built over [corner_nodes]: all three pairs are less than
    100 apart. *)
Example connect_nearby_corner :
  connect_nearby round64 exact_sqrt corner_nodes
  = [ {| from := 0; to := 1; weight := Fin 50; traversable := None |};
      {| from := 0; to := 2; weight := Fin 30; traversable := None |};
      {| from := 1; to := 2; weight := Fin 40; traversable := None |} ].
Proof. by vm_compute. Qed.

Lemma connect_nearby_joins_once_corner :
  connect_nearby round64 exact_sqrt corner_nodes !! 0
  = Some {| from := 0; to := 1; weight := Fin 50; traversable := None |} ∧
  joins 1 0 {| from := 0; to := 1; weight := Fin 50; traversable := None |} = true ∧
  0 = 0 ∧
  {| from := 0; to := 1; weight := Fin 50; traversable := None |}
  = {| from := 0; to := 1; weight := Fin 50; traversable := None |}.
Proof.
  assert (connect_nearby round64 exact_sqrt corner_nodes !! 0
          = Some {| from := 0; to := 1; weight := Fin 50; traversable := None |}) as H1
    by (by vm_compute).
  assert (joins 1 0 {| from := 0; to := 1; weight := Fin 50; traversable := None |} = true)
    as H2 by reflexivity.
  do 2 (split; [assumption|]).
  exact (connect_nearby_joins_once round64 exact_sqrt corner_nodes 1 0 0 0 _ _ H1 H1 H2 H2).
Defined.



(** In the arithmetic of binary64 the estimate is consistent where all
    nodes lie in one place. *)
Example nearby_graph_shortest_flat :
  consistent round64 exact_sqrt
    {| nodes := [nd 0 0 0; nd 1 0 0];
       edges := connect_nearby round64 exact_sqrt [nd 0 0 0; nd 1 0 0] |} 1.
Proof.
  apply consistent_flat; [apply round64_rounding| |].
  - apply connect_nearby_nonneg, exact_sqrt_nonneg.
  - intros n. unfold heuristic_to. do 2 (destruct n as [|n]; [by vm_compute|]). done.
Qed.

Lemma floor_sqrt_60 (q : Q) : (q <= 3600)%Q → (floor_sqrt q <= 60)%Q.
Proof. intros H. apply floor_sqrt_le; [done|]. change (60 * 60)%Q with 3600%Q. exact H. Qed.

Lemma flat_sine_close (a b : Q) :
  (Qabs ((λ _ : Q, 0%Q) a - (λ _ : Q, 0%Q) b) <= Qabs (a - b) + (1 # 1024))%Q.
Proof.
  cbv beta. pose proof (Qabs_nonneg (a - b)) as H.
  assert (Qabs (0 - 0) == 0)%Q as -> by reflexivity. lra.
Qed.

(** The sample graph in the arithmetic of binary64, with the square
    root rounded down and a flat sine: node 39 is reached from node
    0. *)
Lemma sample_graph_always_path_flat :
  (∀ a : Q, (Qabs ((λ _, 0%Q) a) <= 1)%Q) ∧
  (-4 <= 3)%Q ∧ (3 <= 4)%Q ∧ 0 < 40 ∧ 39 < 40 ∧
  ∃ fuel p,
    (∀ fuel', fuel ≤ fuel' →
       astar round64 floor_sqrt fuel'
         (generateSampleGraph round64 floor_sqrt (λ _, 0%Q) 3%Q) 0 39
       = Ret (Some p)) ∧
    is_path (generateSampleGraph round64 floor_sqrt (λ _, 0%Q) 3%Q) 0 39 p.
Proof.
  assert (∀ a : Q, (Qabs ((λ _, 0%Q) a) <= 1)%Q) as H0 by (intros _; by vm_compute).
  assert (-4 <= 3)%Q as H1 by (by vm_compute).
  assert (3 <= 4)%Q as H2 by (by vm_compute).
  assert (0 < 40) as H3 by lia.
  assert (39 < 40) as H4 by lia.
  do 5 (split; [assumption|]).
  exact (sample_graph_always_path round64 floor_sqrt (λ _, 0%Q) 3%Q 0 39
           round64_rounding round64_close floor_sqrt_nonneg floor_sqrt_60
           H0 flat_sine_close H1 H2 H3 H4).
Defined.
Lemma animation_run_three :
  3 ≠ 0 ∧
  ticks 3 5 (animatePath 3 (mkAnimation false 0 0 false))
  = {| animating := 5 <? 3; robotPos := 5 `min` (3 - 1);
       pos := 5 `min` (3 - 1); interval := 5 <? 3 |}.
Proof.
  assert (3 ≠ 0) as H by lia.
  split; [exact H|].
  exact (animation_run 3 5 (mkAnimation false 0 0 false) H).
Defined.

Lemma isInPath_sound_backwards :
  isInPath [0; 1; 2] (ed 2 1 10) = true ∧
  ∃ i, ([0; 1; 2] !! i = Some (from (ed 2 1 10)) ∧
        [0; 1; 2] !! S i = Some (to (ed 2 1 10))) ∨
       ([0; 1; 2] !! i = Some (to (ed 2 1 10)) ∧
        [0; 1; 2] !! S i = Some (from (ed 2 1 10))).
Proof.
  assert (isInPath [0; 1; 2] (ed 2 1 10) = true) as H by (by vm_compute).
  split; [exact H|].
  exact (isInPath_sound [0; 1; 2] (ed 2 1 10) H).
Defined.

Lemma isInPath_complete_backwards :
  NoDup [0; 1; 2] ∧
  (([0; 1; 2] !! 1 = Some (from (ed 2 1 10)) ∧ [0; 1; 2] !! 2 = Some (to (ed 2 1 10))) ∨
   ([0; 1; 2] !! 1 = Some (to (ed 2 1 10)) ∧ [0; 1; 2] !! 2 = Some (from (ed 2 1 10)))) ∧
  isInPath [0; 1; 2] (ed 2 1 10) = true.
Proof.
  assert (NoDup [0; 1; 2]) as H1.
  { repeat (apply NoDup_cons; split; [rewrite ?elem_of_cons, elem_of_nil; lia|]).
    apply NoDup_nil_2. }
  assert (([0; 1; 2] !! 1 = Some (from (ed 2 1 10)) ∧
           [0; 1; 2] !! 2 = Some (to (ed 2 1 10))) ∨
          ([0; 1; 2] !! 1 = Some (to (ed 2 1 10)) ∧
           [0; 1; 2] !! 2 = Some (from (ed 2 1 10)))) as H2.
  { right. split; reflexivity. }
  do 2 (split; [assumption|]).
  exact (isInPath_complete [0; 1; 2] (ed 2 1 10) 1 H1 H2).
Defined.

(** When the same node comes twice on the path, as on the paths of the
    multi-goal branch, an edge of the path can be left undrawn: on the
    path 0, 2, 0, 1 of [g_fork] the edge between 0 and 1 is taken, and
    [indexOf] finds node 0 at its first position only. *)
Example isInPath_misses_repeated_node :
  calculatePath_multi round64 exact_sqrt 10 g_fork 0 [2; 1] = Ret [0; 2; 0; 1] ∧
  isInPath [0; 2; 0; 1] (ed 0 1 1) = false.
Proof. split; by vm_compute. Qed.
